(** * TurbuStat: the 2D power-spectrum base class and the spline break search

  A shallow embedding of
    - [turbustat/statistics/base_pspec2.py]   (class [StatisticBase_PSpec2D]),
    - [turbustat/statistics/base_statistic.py] (the unit conversions it uses),
    - [turbustat/statistics/dendrograms/dendro_stats.py] ([break_spline]).

  Conventions of the embedding.
    - A numpy [float64] is a real number ([R]): finite values, exact
      arithmetic.  Rounding, infinities and NaN are outside the model, and
      so is a division by a [Quantity] that is zero.
    - A 1D [ndarray] is a [list R], a 2D one a list of rows.
    - A Python method is a function in the monad [M], which threads the
      object, the warnings issued and the calls made into the fitting
      libraries, and keeps every mutation made before an exception, as
      Python does.
    - An attribute that may not exist yet is an [option] field; reading it
      while [None] raises [AttributeError].
    - Code that is not part of these files (numpy, statsmodels, astropy,
      scipy, and the sibling modules [lm_seg], [psds], [fitting_utils],
      [elliptical_powerlaw]) enters as Section variables. *)

From Stdlib Require Import Reals Lra Lia ZArith List String Bool Arith.
From Stdlib Require Import DecimalString.
From Stdlib Require Floats.PrimFloat Floats.SpecFloat Floats.FloatOps.
Import ListNotations.

Set Implicit Arguments.
Set Primitive Projections.

Local Open Scope R_scope.

(** ** Scalar operations of numpy and Python on floats *)

Module Np.

Definition ltb (x y : R) : bool := if Rlt_dec x y then true else false.
Definition leb (x y : R) : bool := if Rle_dec x y then true else false.
Definition gtb (x y : R) : bool := ltb y x.

(** [np.log10] *)
Definition log10 (x : R) : R := ln x / ln 10.

(** [np.log(10)] *)
Definition log_10 : R := ln 10.

(** [10 ** x] *)
Definition pow10 (x : R) : R := Rpower 10 x.

(** Python's [x % m] on floats: the remainder of floored division, which
    takes the sign of [m].  Only used with [m = np.pi]. *)
Definition mod_ (x m : R) : R := x - m * IZR (Int_part (x / m)).

(** [np.pi] *)
Definition pi : R := PI.

(** [a.max()]: [None] stands for the [ValueError] numpy raises on an empty
    array. *)
Definition max (a : list R) : option R :=
  match a with
  | [] => None
  | v :: a' => Some (fold_left Rmax a' v)
  end.

(** [np.argmin]: index of the first smallest entry. *)
Fixpoint argmin_from (best : R) (besti i : nat) (a : list R) : nat :=
  match a with
  | [] => besti
  | v :: a' =>
      if ltb v best then argmin_from v i (S i) a'
      else argmin_from best besti (S i) a'
  end.

Definition argmin (a : list R) : option nat :=
  match a with
  | [] => None
  | v :: a' => Some (argmin_from v 0 1 a')
  end.

(** [sum(mask)] of Python over a boolean array: the number of [True]s. *)
Definition sum (m : list bool) : Z :=
  Z.of_nat (List.length (filter (fun b => b) m)).

(** [a[mask]] for 1D arrays: compress; the lengths must agree. *)
Fixpoint compress (A : Type) (a : list A) (m : list bool) : list A :=
  match a, m with
  | v :: a', b :: m' => if b then v :: compress a' m' else compress a' m'
  | _, _ => []
  end.

Definition any (m : list bool) : bool := existsb (fun b => b) m.

(** [a < b] for an array [a] and a float [b]. *)
Definition less (a : list R) (b : R) : list bool := map (fun v => ltb v b) a.

End Np.

(** ** 2D arrays *)

Definition grid (A : Type) : Type := list (list A).

Module Grid.

(** [a.shape] of a 2D array. *)
Definition shape (A : Type) (g : grid A) : nat * nat :=
  (List.length g, match g with [] => O | r :: _ => List.length r end).

Definition same_shape (A B : Type) (g : grid A) (h : grid B) : bool :=
  if list_eq_dec Nat.eq_dec (map (@List.length A) g) (map (@List.length B) h)
  then true else false.


(** [a[mask]] with a 2D boolean mask: the selected entries in row-major
    order. *)
Definition select (A : Type) (g : grid A) (m : grid bool) : list A :=
  List.concat (map (fun rm => Np.compress (fst rm) (snd rm)) (combine g m)).

(** Entry-wise combination of two arrays of one shape. *)
Definition map2 (A B C : Type) (f : A -> B -> C) (g : grid A) (h : grid B)
  : grid C :=
  map (fun rs => map (fun ab => f (fst ab) (snd ab)) (combine (fst rs) (snd rs)))
      (combine g h).

Definition any (m : grid bool) : bool := existsb Np.any m.

(** [np.nanmax(a)]; [None] stands for the error on an array without
    entries. *)
Definition nanmax (g : grid R) : option R := Np.max (List.concat g).

End Grid.

(** ** The remainder on float64

    The real numbers give [%] without rounding.  Where rounding decides a
    statement, the operation is taken on binary64 floats, with the
    operations of the processor. *)

Module Float64.
Import Floats.PrimFloat Floats.SpecFloat Floats.FloatOps.

(** [np.pi], the float nearest to pi. *)
Definition pi : float := 0x1.921fb54442d18p+1%float.





End Float64.

(** ** Exceptions and warnings *)

Inductive exn : Type :=
| AttributeError (attr : string)
| ValueError (msg : string)
| TypeError (msg : string)
| IndexError
| AssertionError
| UnitConversionError
| ZeroDivisionError
| Foreign (origin : string).

Inductive outcome (A : Type) : Type :=
| Ok (a : A)
| Raise (e : exn).
Arguments Raise {A} e.

Module Msg.
Local Open Scope string_scope.

Definition stddev_not_enabled :=
  "ps1D_stddev is only calculated when return_stddev is enabled.".
Definition wls_with_break :=
  "Weighted least-squares fitting cannot be used when fitting a break-point.".
Definition stddev_required :=
  "'return_stddev' must be enabled when computing the radial power spectrum. The WLS fit requires uncertainties.".
Definition not_enough_points := "Not enough points to fit to. Ignoring break.".
(** The literal continues over a line break inside the quotes, so the
    indentation of the second line is part of the message. *)
Definition break_failed :=
  "Model with break failed, reverting to model                               without break.".
Definition empty_mask :=
  "Limits have removed all points to fit. Make low_cut and high_cut less restrictive.".
Definition ellip_close_to_1 :=
  "The elliptical parameter is close to 1. The field may be isotropic and the fit is not converging to 1. Consider fitting with `fix_ellip_params=True`, which forces the ellipticity to 1.".
Definition zero_size_max :=
  "zero-size array to reduction operation maximum which has no identity".
Definition unpack := "wrong number of values to unpack".
Definition broadcast := "operands could not be broadcast together".
Definition not_quantity := "value must be an astropy Quantity object.".
Definition no_header := "No header has not been given.".
Definition no_header_for_distance :=
  "No header has not been given. Cannot make use of distance.".
Definition no_distance := "No distance has not been given.".

End Msg.

(** ** astropy quantities, as far as the cut-offs need them *)

Inductive Unit : Type :=
| pix                      (* u.pix *)
| deg                      (* stands for every unit equivalent to u.deg *)
| pc                       (* stands for every unit equivalent to u.pc *)
| dimensionless_unscaled
| per (u : Unit)           (* 1 / u *)
| other.

Definition unit_inv (u : Unit) : Unit :=
  match u with
  | per v => v
  | dimensionless_unscaled => dimensionless_unscaled
  | v => per v
  end.

Definition unit_eq_dec (u v : Unit) : {u = v} + {u <> v}.
Proof. decide equality. Defined.

(** A scalar argument: a bare float or a [Quantity]. *)
Inductive scalar : Type :=
| Plain (v : R)
| Quantity (v : R) (u : Unit).

Definition value (q : scalar) : R :=
  match q with Plain v | Quantity v _ => v end.

(** [1 / q] where nothing is zero. *)
Definition inv (q : scalar) : scalar :=
  match q with
  | Plain v => Plain (1 / v)
  | Quantity v u => Quantity (1 / v) (unit_inv u)
  end.

(** ** Results handed back by the fitting libraries *)

(** statsmodels' [RegressionResults]: the attributes read here. *)
Record fitres : Type := {
  params : list R;
  bse : list R
}.

(** [lm_seg.Lm_Seg] after [fit_model]. *)
Module Lm_Seg.
Record t : Type := {
  params_size : nat;       (* brk_fit.params.size *)
  brk : R;
  brk_err : R;
  slopes : list R;
  slope_errs : list R;
  fit : fitres
}.
End Lm_Seg.

(** The 4-tuple returned by [elliptical_powerlaw.fit_elliptical_powerlaw];
    the astropy model and fitter are opaque handles. *)
Module Ellip.
Record t : Type := {
  params : list R;
  stderrs : list R;
  fit_2Dmodel : nat;
  fitter : nat
}.
Record options : Type := {
  fit_method : string;
  bootstrap : bool;
  niters : Z;
  radial_weighting : bool;
  fix_ellip_params : bool
}.
End Ellip.

(** [self._slope] is a float after an unbroken fit and an array after a
    broken one. *)
Inductive slope_t : Type :=
| Float (v : R)
| NdArray (a : list R).

(** What [psds.pspec] returns: [(freqs, ps1D[, stddev][, azim_mask])]. *)
Record pspec_out : Type := {
  out_freqs : list R;
  out_ps1D : list R;
  out_stddev : option (list R);
  out_azim_mask : option (grid bool)
}.

(** Calls into the fitting libraries, in the order they are made. *)
Inductive fit_call : Type :=
| Call_Lm_Seg (x y : list R) (brk : R)
| Call_OLS (y x : list R)
| Call_WLS (y x weights : list R)
| Call_fit_elliptical_powerlaw (z xx yy p0 : list R).

(** ** The object *)

Record PSpec : Type := {
  _header : option R;
  _distance : option R;
  _ps2D : option (grid R);
  _freqs : option (list R);
  _ps1D : option (list R);
  _ps1D_stddev : option (list R);
  _azim_mask : option (grid bool);
  _stddev_flag : option bool;
  _azim_constraint_flag : option bool;
  low_cut : option R;
  high_cut : option R;
  _brk : option (option R);
  _brk_err : option (option R);
  _slope : option slope_t;
  _slope_err : option slope_t;
  fit : option fitres;
  fit2D : option nat;
  _fitter : option nat;
  _slope2D : option R;
  _slope2D_err : option R;
  _theta2D : option R;
  _theta2D_err : option R;
  _ellip2D : option R;
  _ellip2D_err : option R
}.

(** [self.attr = v]: one setter per attribute the methods assign. *)

Definition set_freqs v (self : PSpec) : PSpec :=
  let '(Build_PSpec a0 a1 a2 a3 a4 a5 a6 a7 a8 a9 a10 a11 a12 a13 a14 a15 a16
    a17 a18 a19 a20 a21 a22 a23) := self in
  Build_PSpec a0 a1 a2 (Some v) a4 a5 a6 a7 a8 a9 a10 a11 a12 a13 a14 a15 a16
    a17 a18 a19 a20 a21 a22 a23.

Definition set_ps1D v (self : PSpec) : PSpec :=
  let '(Build_PSpec a0 a1 a2 a3 a4 a5 a6 a7 a8 a9 a10 a11 a12 a13 a14 a15 a16
    a17 a18 a19 a20 a21 a22 a23) := self in
  Build_PSpec a0 a1 a2 a3 (Some v) a5 a6 a7 a8 a9 a10 a11 a12 a13 a14 a15 a16
    a17 a18 a19 a20 a21 a22 a23.

Definition set_ps1D_stddev v (self : PSpec) : PSpec :=
  let '(Build_PSpec a0 a1 a2 a3 a4 a5 a6 a7 a8 a9 a10 a11 a12 a13 a14 a15 a16
    a17 a18 a19 a20 a21 a22 a23) := self in
  Build_PSpec a0 a1 a2 a3 a4 (Some v) a6 a7 a8 a9 a10 a11 a12 a13 a14 a15 a16
    a17 a18 a19 a20 a21 a22 a23.

Definition set_azim_mask v (self : PSpec) : PSpec :=
  let '(Build_PSpec a0 a1 a2 a3 a4 a5 a6 a7 a8 a9 a10 a11 a12 a13 a14 a15 a16
    a17 a18 a19 a20 a21 a22 a23) := self in
  Build_PSpec a0 a1 a2 a3 a4 a5 (Some v) a7 a8 a9 a10 a11 a12 a13 a14 a15 a16
    a17 a18 a19 a20 a21 a22 a23.

Definition set_stddev_flag v (self : PSpec) : PSpec :=
  let '(Build_PSpec a0 a1 a2 a3 a4 a5 a6 a7 a8 a9 a10 a11 a12 a13 a14 a15 a16
    a17 a18 a19 a20 a21 a22 a23) := self in
  Build_PSpec a0 a1 a2 a3 a4 a5 a6 (Some v) a8 a9 a10 a11 a12 a13 a14 a15 a16
    a17 a18 a19 a20 a21 a22 a23.

Definition set_azim_constraint_flag v (self : PSpec) : PSpec :=
  let '(Build_PSpec a0 a1 a2 a3 a4 a5 a6 a7 a8 a9 a10 a11 a12 a13 a14 a15 a16
    a17 a18 a19 a20 a21 a22 a23) := self in
  Build_PSpec a0 a1 a2 a3 a4 a5 a6 a7 (Some v) a9 a10 a11 a12 a13 a14 a15 a16
    a17 a18 a19 a20 a21 a22 a23.

Definition set_low_cut v (self : PSpec) : PSpec :=
  let '(Build_PSpec a0 a1 a2 a3 a4 a5 a6 a7 a8 a9 a10 a11 a12 a13 a14 a15 a16
    a17 a18 a19 a20 a21 a22 a23) := self in
  Build_PSpec a0 a1 a2 a3 a4 a5 a6 a7 a8 (Some v) a10 a11 a12 a13 a14 a15 a16
    a17 a18 a19 a20 a21 a22 a23.

Definition set_high_cut v (self : PSpec) : PSpec :=
  let '(Build_PSpec a0 a1 a2 a3 a4 a5 a6 a7 a8 a9 a10 a11 a12 a13 a14 a15 a16
    a17 a18 a19 a20 a21 a22 a23) := self in
  Build_PSpec a0 a1 a2 a3 a4 a5 a6 a7 a8 a9 (Some v) a11 a12 a13 a14 a15 a16
    a17 a18 a19 a20 a21 a22 a23.

Definition set_brk v (self : PSpec) : PSpec :=
  let '(Build_PSpec a0 a1 a2 a3 a4 a5 a6 a7 a8 a9 a10 a11 a12 a13 a14 a15 a16
    a17 a18 a19 a20 a21 a22 a23) := self in
  Build_PSpec a0 a1 a2 a3 a4 a5 a6 a7 a8 a9 a10 (Some v) a12 a13 a14 a15 a16
    a17 a18 a19 a20 a21 a22 a23.

Definition set_brk_err v (self : PSpec) : PSpec :=
  let '(Build_PSpec a0 a1 a2 a3 a4 a5 a6 a7 a8 a9 a10 a11 a12 a13 a14 a15 a16
    a17 a18 a19 a20 a21 a22 a23) := self in
  Build_PSpec a0 a1 a2 a3 a4 a5 a6 a7 a8 a9 a10 a11 (Some v) a13 a14 a15 a16
    a17 a18 a19 a20 a21 a22 a23.

Definition set_slope v (self : PSpec) : PSpec :=
  let '(Build_PSpec a0 a1 a2 a3 a4 a5 a6 a7 a8 a9 a10 a11 a12 a13 a14 a15 a16
    a17 a18 a19 a20 a21 a22 a23) := self in
  Build_PSpec a0 a1 a2 a3 a4 a5 a6 a7 a8 a9 a10 a11 a12 (Some v) a14 a15 a16
    a17 a18 a19 a20 a21 a22 a23.

Definition set_slope_err v (self : PSpec) : PSpec :=
  let '(Build_PSpec a0 a1 a2 a3 a4 a5 a6 a7 a8 a9 a10 a11 a12 a13 a14 a15 a16
    a17 a18 a19 a20 a21 a22 a23) := self in
  Build_PSpec a0 a1 a2 a3 a4 a5 a6 a7 a8 a9 a10 a11 a12 a13 (Some v) a15 a16
    a17 a18 a19 a20 a21 a22 a23.

Definition set_fit v (self : PSpec) : PSpec :=
  let '(Build_PSpec a0 a1 a2 a3 a4 a5 a6 a7 a8 a9 a10 a11 a12 a13 a14 a15 a16
    a17 a18 a19 a20 a21 a22 a23) := self in
  Build_PSpec a0 a1 a2 a3 a4 a5 a6 a7 a8 a9 a10 a11 a12 a13 a14 (Some v) a16
    a17 a18 a19 a20 a21 a22 a23.

Definition set_fit2D v (self : PSpec) : PSpec :=
  let '(Build_PSpec a0 a1 a2 a3 a4 a5 a6 a7 a8 a9 a10 a11 a12 a13 a14 a15 a16
    a17 a18 a19 a20 a21 a22 a23) := self in
  Build_PSpec a0 a1 a2 a3 a4 a5 a6 a7 a8 a9 a10 a11 a12 a13 a14 a15 (Some v)
    a17 a18 a19 a20 a21 a22 a23.

Definition set_fitter v (self : PSpec) : PSpec :=
  let '(Build_PSpec a0 a1 a2 a3 a4 a5 a6 a7 a8 a9 a10 a11 a12 a13 a14 a15 a16
    a17 a18 a19 a20 a21 a22 a23) := self in
  Build_PSpec a0 a1 a2 a3 a4 a5 a6 a7 a8 a9 a10 a11 a12 a13 a14 a15 a16
    (Some v) a18 a19 a20 a21 a22 a23.

Definition set_slope2D v (self : PSpec) : PSpec :=
  let '(Build_PSpec a0 a1 a2 a3 a4 a5 a6 a7 a8 a9 a10 a11 a12 a13 a14 a15 a16
    a17 a18 a19 a20 a21 a22 a23) := self in
  Build_PSpec a0 a1 a2 a3 a4 a5 a6 a7 a8 a9 a10 a11 a12 a13 a14 a15 a16 a17
    (Some v) a19 a20 a21 a22 a23.

Definition set_slope2D_err v (self : PSpec) : PSpec :=
  let '(Build_PSpec a0 a1 a2 a3 a4 a5 a6 a7 a8 a9 a10 a11 a12 a13 a14 a15 a16
    a17 a18 a19 a20 a21 a22 a23) := self in
  Build_PSpec a0 a1 a2 a3 a4 a5 a6 a7 a8 a9 a10 a11 a12 a13 a14 a15 a16 a17
    a18 (Some v) a20 a21 a22 a23.

Definition set_theta2D v (self : PSpec) : PSpec :=
  let '(Build_PSpec a0 a1 a2 a3 a4 a5 a6 a7 a8 a9 a10 a11 a12 a13 a14 a15 a16
    a17 a18 a19 a20 a21 a22 a23) := self in
  Build_PSpec a0 a1 a2 a3 a4 a5 a6 a7 a8 a9 a10 a11 a12 a13 a14 a15 a16 a17
    a18 a19 (Some v) a21 a22 a23.

Definition set_theta2D_err v (self : PSpec) : PSpec :=
  let '(Build_PSpec a0 a1 a2 a3 a4 a5 a6 a7 a8 a9 a10 a11 a12 a13 a14 a15 a16
    a17 a18 a19 a20 a21 a22 a23) := self in
  Build_PSpec a0 a1 a2 a3 a4 a5 a6 a7 a8 a9 a10 a11 a12 a13 a14 a15 a16 a17
    a18 a19 a20 (Some v) a22 a23.

Definition set_ellip2D v (self : PSpec) : PSpec :=
  let '(Build_PSpec a0 a1 a2 a3 a4 a5 a6 a7 a8 a9 a10 a11 a12 a13 a14 a15 a16
    a17 a18 a19 a20 a21 a22 a23) := self in
  Build_PSpec a0 a1 a2 a3 a4 a5 a6 a7 a8 a9 a10 a11 a12 a13 a14 a15 a16 a17
    a18 a19 a20 a21 (Some v) a23.

Definition set_ellip2D_err v (self : PSpec) : PSpec :=
  let '(Build_PSpec a0 a1 a2 a3 a4 a5 a6 a7 a8 a9 a10 a11 a12 a13 a14 a15 a16
    a17 a18 a19 a20 a21 a22 a23) := self in
  Build_PSpec a0 a1 a2 a3 a4 a5 a6 a7 a8 a9 a10 a11 a12 a13 a14 a15 a16 a17
    a18 a19 a20 a21 a22 (Some v).

(** ** The interpreter state and the monad of methods *)

Record world : Type := {
  self : PSpec;
  warned : list string;        (* warnings.warn, oldest first *)
  fitted : list fit_call       (* calls into the fitting libraries *)
}.

Definition M (A : Type) : Type := world -> outcome A * world.

Definition ret (A : Type) (a : A) : M A := fun w => (Ok a, w).

Definition bind (A B : Type) (m : M A) (k : A -> M B) : M B :=
  fun w =>
    match m w with
    | (Ok a, w') => k a w'
    | (Raise e, w') => (Raise e, w')
    end.

Definition raise (A : Type) (e : exn) : M A := fun w => (Raise e, w).
Arguments raise {A} e.

Definition lift (A : Type) (o : outcome A) : M A := fun w => (o, w).

Notation "x <- m ;; k" := (bind m (fun x => k))
  (at level 61, m at next level, right associativity).
Notation "m ;; k" := (bind m (fun _ => k))
  (at level 61, right associativity).

(** The three ways a statement changes the state. *)
Definition update (set : PSpec -> PSpec) (w : world) : world :=
  {| self := set (self w); warned := warned w; fitted := fitted w |}.

Definition warning (msg : string) (w : world) : world :=
  {| self := self w; warned := warned w ++ [msg]; fitted := fitted w |}.

Definition called (c : fit_call) (w : world) : world :=
  {| self := self w; warned := warned w; fitted := fitted w ++ [c] |}.

(** [warnings.warn(msg)] *)
Definition warn (msg : string) : M unit := fun w => (Ok tt, warning msg w).

(** Reading [self.name]. *)
Definition getattr (A : Type) (name : string) (field : PSpec -> option A)
  : M A :=
  fun w =>
    match field (self w) with
    | Some v => (Ok v, w)
    | None => (Raise (AttributeError name), w)
    end.

(** [hasattr(self, name)] *)
Definition hasattr (A : Type) (field : PSpec -> option A) : M bool :=
  fun w => (Ok (match field (self w) with Some _ => true | None => false end), w).

(** Assigning [self.name = v], through one of the setters. *)
Definition setattr (set : PSpec -> PSpec) : M unit :=
  fun w => (Ok tt, update set w).

Definition record_call (c : fit_call) : M unit :=
  fun w => (Ok tt, called c w).

(** [a[i]] on a 1D array, for [0 <= i]. *)
Definition item (a : list R) (i : nat) : M R :=
  match nth_error a i with
  | Some v => ret v
  | None => raise IndexError
  end.

(** [a[mask]] on a 1D array. *)
Definition index (a : list R) (mask : list bool) : M (list R) :=
  if Nat.eqb (List.length a) (List.length mask)
  then ret (Np.compress a mask)
  else raise IndexError.

(** [a[mask]] on a 2D array. *)
Definition index2 (a : grid R) (mask : grid bool) : M (list R) :=
  if Grid.same_shape a mask then ret (Grid.select a mask)
  else raise IndexError.

(** Python's truth value of [kwargs.get(key)]: a missing key gives [None],
    a float is true unless zero, a [Quantity] is true. *)
Definition kwargs : Type := list (string * scalar).

Fixpoint kwargs_get (kw : kwargs) (key : string) : option scalar :=
  match kw with
  | [] => None
  | (k, v) :: kw' => if String.eqb k key then Some v else kwargs_get kw' key
  end.

Definition truthy (o : option scalar) : bool :=
  match o with
  | None => false
  | Some (Plain v) => if Req_dec_T v 0 then false else true
  | Some (Quantity _ _) => true
  end.

(** ** base_statistic.py: [BaseStatisticMixIn]

    The FITS header is reduced to the angular size of a pixel it encodes
    ([_ang_size]), in degrees, the distance to its value in parsecs; a
    quantity in [deg] or [pc] holds its value in degrees or parsecs. *)

Definition _ang_size : M R :=
  h <- hasattr _header ;;
  if negb h then raise (AttributeError Msg.no_header)
  else getattr "_header" _header.

Definition distance : M R :=
  h <- hasattr _header ;;
  if negb h then raise (AttributeError Msg.no_header_for_distance)
  else
    d <- hasattr _distance ;;
    if negb d then raise (AttributeError Msg.no_distance)
    else getattr "_distance" _distance.

(** [(self._ang_size * self.distance).to(self.distance.unit,
    equivalencies=u.dimensionless_angles())]: the angle, turned into
    radians, times the distance. *)
Definition _physical_size : M R :=
  d <- hasattr _distance ;;
  if negb d then raise (AttributeError Msg.no_distance)
  else a <- _ang_size ;; d <- distance ;; ret (a * (PI / 180) * d).

(** [value.to(u.pix, equivalencies=self._angular_equiv)] *)
Definition to_pix_angular (v : R) : M scalar :=
  h <- hasattr _header ;;
  if negb h then raise (AttributeError Msg.no_header)
  else a <- _ang_size ;; ret (Quantity (v / a) pix).

(** [value.to(u.pix, equivalencies=self._physical_equiv)]; the property
    [_physical_equiv] reads [self.distance.unit] when it builds the list. *)
Definition to_pix_physical (v : R) : M scalar :=
  d <- hasattr _distance ;;
  if negb d then raise (AttributeError Msg.no_distance)
  else distance ;; p <- _physical_size ;; ret (Quantity (v / p) pix).

Definition _to_pixel (value : scalar) : M scalar :=
  match value with
  | Plain _ => raise (TypeError Msg.not_quantity)
  | Quantity v pix => ret value
  | Quantity v deg => to_pix_angular v
  | Quantity v pc => to_pix_physical v
  | Quantity _ _ => raise UnitConversionError
  end.

(** [1 / q]: Python refuses to divide by a float that is zero. *)
Definition reciprocal (q : scalar) : M scalar :=
  match q with
  | Plain v => if Req_dec_T v 0 then raise ZeroDivisionError else ret (inv q)
  | Quantity _ _ => ret (inv q)
  end.

Definition _to_pixel_freq (value : scalar) : M scalar :=
  r <- reciprocal value ;; q <- _to_pixel r ;; reciprocal q.

(** [value.to(target, equivalencies=[(u.pix, family, x * scale,
    x / scale)])] of astropy: the value as it is within one family of
    units, scaled between pixels and [family], refused otherwise. *)
Definition quantity_to (scale : R) (family : Unit) (value : scalar)
  (target : Unit) : M scalar :=
  match value with
  | Plain _ => raise (AttributeError "to")
  | Quantity v u =>
      if unit_eq_dec u target then ret value
      else if unit_eq_dec u pix then
        if unit_eq_dec target family then ret (Quantity (v * scale) target)
        else raise UnitConversionError
      else if unit_eq_dec u family then
        if unit_eq_dec target pix then ret (Quantity (v / scale) pix)
        else raise UnitConversionError
      else raise UnitConversionError
  end.

Definition _to_angular (value : scalar) (unit : Unit) : M scalar :=
  h <- hasattr _header ;;
  if negb h then raise (AttributeError Msg.no_header)
  else a <- _ang_size ;; quantity_to a deg value unit.

(** [value.to] is looked up before [self._physical_equiv] is built. *)
Definition _to_physical (value : scalar) (unit : Unit) : M scalar :=
  d <- hasattr _distance ;;
  if negb d then raise (AttributeError Msg.no_distance)
  else
    match value with
    | Plain _ => raise (AttributeError "to")
    | Quantity _ _ =>
        distance ;; p <- _physical_size ;; quantity_to p pc value unit
    end.

(** [unit] is the unit itself: a [Quantity] given for it is reduced to its
    unit by the first two lines. *)
Definition _spatial_unit_conversion (pixel_value : scalar) (unit : Unit)
  : M scalar :=
  match unit with
  | pix => ret pixel_value
  | deg => _to_angular pixel_value unit
  | pc => _to_physical pixel_value unit
  | _ => raise UnitConversionError
  end.

Definition _spatial_freq_unit_conversion (pixel_value : scalar)
  (unit : Unit) : M scalar :=
  r <- reciprocal pixel_value ;;
  q <- _spatial_unit_conversion r (unit_inv unit) ;;
  reciprocal q.

(** What [_to_pixel] can convert on a given object. *)
Definition convertible (q : scalar) (s : PSpec) : Prop :=
  match q with
  | Quantity _ pix => True
  | Quantity _ deg => _header s <> None
  | Quantity _ pc => _header s <> None /\ _distance s <> None
  | _ => False
  end.

(** ** Arrays whose entries may be NaN

    The functions on arrays of [dendrograms/dendro_stats.py]
    ([hellinger_stat], [standardize], the cut-off and the distance of
    [DendroDistance]), of [dendrograms/mecdf.py], of [genus/genus.py]
    ([clip_genus]) and of [tsallis/tsallis.py] ([clip_to_sigma], the
    distance of [Tsallis_Distance]) are embedded as pure functions, with
    the semantics of Python 2, in which these files are written.

    Several of them produce or skip NaN ([np.nansum], [np.nanmean], the
    square root of a negative number): there an entry is an [option R] with
    [None] for NaN.  A 2D array is a list of rows, so that an array without
    rows has no columns either. *)

Module Nan.

(** [np.sqrt] *)
Definition sqrt (v : option R) : option R :=
  match v with
  | Some x => if Rlt_dec x 0 then None else Some (R_sqrt.sqrt x)
  | None => None
  end.

(** A binary operation on floats: NaN if an argument is. *)
Definition lift2 (f : R -> R -> R) (a b : option R) : option R :=
  match a, b with
  | Some x, Some y => Some (f x y)
  | _, _ => None
  end.

(** The entries that are not NaN. *)
Definition finite (l : list (option R)) : list R :=
  flat_map (fun v => match v with Some x => [x] | None => [] end) l.

(** [np.sum] on an array without NaN. *)
Definition sum (l : list R) : R := fold_right Rplus 0 l.

Definition nansum (l : list (option R)) : R := sum (finite l).

(** [np.nanmean]: NaN when no entry is left. *)
Definition nanmean (l : list (option R)) : option R :=
  match finite l with
  | [] => None
  | vals => Some (sum vals / INR (List.length vals))
  end.

(** [np.nanstd], with its default [ddof=0]. *)
Definition nanstd (l : list (option R)) : option R :=
  match nanmean l with
  | None => None
  | Some mu =>
      option_map R_sqrt.sqrt
        (nanmean (map (option_map (fun v => (v - mu) ^ 2)) l))
  end.

End Nan.

(** ** dendro_stats.py: the functions on arrays *)

(** A 1D or a 2D array. *)
Inductive ndarray : Type :=
| Arr1 (a : list (option R))
| Arr2 (a : grid (option R)).

(** The [lambda] of [hellinger_stat], on two 1D arrays of one length. *)
Definition hellinger (i j : list (option R)) : R :=
  1 / sqrt 2 *
  sqrt (Nan.nansum
          (map (fun ab =>
                  Nan.lift2 (fun u v => (u - v) ^ 2)
                    (Nan.sqrt (fst ab)) (Nan.sqrt (snd ab)))
               (combine i j))).

(** [np.mean] of an array without NaN: NaN when it is empty. *)
Definition mean (l : list R) : option R :=
  match l with
  | [] => None
  | _ => Some (Nan.sum l / INR (List.length l))
  end.

Definition hellinger_stat (x y : ndarray) : outcome (option R) :=
  match x, y with
  | Arr1 a, Arr1 b =>
      if Nat.eqb (List.length a) (List.length b)
      then Ok (Some (hellinger a b))
      else Raise AssertionError
  | Arr2 a, Arr2 b =>
      if Grid.same_shape a b
      then Ok (mean (map (fun rows => hellinger (fst rows) (snd rows))
                         (combine a b)))
      else Raise AssertionError
  | _, _ => Raise AssertionError
  end.

(** [(x - np.nanmean(x)) / np.nanstd(x)].  A zero deviation makes every
    numerator zero, and 0 / 0 is NaN. *)
Definition standardize (x : list (option R)) : list (option R) :=
  match Nan.nanmean x, Nan.nanstd x with
  | Some mu, Some sd =>
      if Req_dec_T sd 0 then map (fun _ => None) x
      else map (option_map (fun v => (v - mu) / sd)) x
  | _, _ => map (fun _ => None) x
  end.

(** What [DendroDistance] reads of a [Dendrogram_Stats]. *)
Record Dendrogram_Stats : Type := {
  numfeatures : list R;
  tail_slope : R;
  tail_slope_err : R
}.

(** The value [numfeature_stat] assigns to [num_distance]. *)
Definition numfeature_stat (dendro1 dendro2 : Dendrogram_Stats) : R :=
  Rabs (tail_slope dendro1 - tail_slope dendro2) /
  sqrt (tail_slope_err dendro1 ^ 2 + tail_slope_err dendro2 ^ 2).

(** [np.argwhere(a > m)] for a 1D array: the positions, in order. *)
Fixpoint argwhere_gt (a : list R) (m : R) (i : nat) : list nat :=
  match a with
  | [] => []
  | v :: a' =>
      if Np.gtb v m then i :: argwhere_gt a' m (S i)
      else argwhere_gt a' m (S i)
  end.

(** [idx.any()]: is one of the positions not 0? *)
Definition any_nonzero (idx : list nat) : bool :=
  existsb (fun i => negb (Nat.eqb i 0)) idx.

(** The message of lines 218-221 and 225-228; the literal continues over
    two line breaks inside the quotes. *)
Definition too_few_features (cube : string) (min_features : Z) : string :=
  ("The dendrogram from " ++ cube ++ " does not contain the                               necessary number of features, "
   ++ DecimalString.NilZero.string_of_int (Z.to_int min_features)
   ++ ". Lower                               min_features or alter min_deltas.")%string.

(** Lines 211-230 of [DendroDistance.__init__]: the cut-off on the number
    of features, from the two dendrograms once they are computed. *)
Definition cutoff (dendro1 dendro2 : Dendrogram_Stats) (min_features : Z)
  : outcome nat :=
  let cutoff1 := argwhere_gt (numfeatures dendro1) (IZR min_features) 0 in
  let cutoff2 := argwhere_gt (numfeatures dendro2) (IZR min_features) 0 in
  if any_nonzero cutoff1 then
    if any_nonzero cutoff2 then
      Ok (Nat.min (last cutoff1 O) (last cutoff2 O))
    else Raise (ValueError (too_few_features "cube2" min_features))
  else Raise (ValueError (too_few_features "cube1" min_features)).

(** ** mecdf.py

    The arrays handed to [mecdf] are the histograms of [histogram_stat],
    padded with NaN.  In a result [None] stands for an entry that is not a
    finite number. *)

(** [np.sum]: NaN as soon as one entry is. *)
Definition total (l : list (option R)) : option R :=
  fold_right (Nan.lift2 Rplus) (Some 0) l.

(** [a / b]: NaN if an argument is; dividing by zero gives an infinity or
    NaN. *)
Definition divide (a b : option R) : option R :=
  match a, b with
  | Some x, Some y => if Req_dec_T y 0 then None else Some (x / y)
  | _, _ => None
  end.

(** [np.cumsum] *)
Fixpoint cumsum_from (acc : option R) (l : list (option R))
  : list (option R) :=
  match l with
  | [] => []
  | v :: l' =>
      let s := Nan.lift2 Rplus acc v in s :: cumsum_from s l'
  end.

Definition cumsum (l : list (option R)) : list (option R) :=
  cumsum_from (Some 0) l.

Definition mecdf (arr : grid (option R)) : grid (option R) :=
  map (fun row => cumsum (map (fun v => divide v (total row)) row)) arr.

(** ** genus.py: [clip_genus] *)

(** [enumerate] *)
Definition enumerate (A : Type) (l : list A) : list (nat * A) :=
  combine (seq 0 (List.length l)) l.

(** [np.where(genus_curve == 0)[0]]: the positions of the zeros. *)
Definition zeros (genus_curve : list R) : list nat :=
  flat_map (fun iv => if Req_dec_T (snd iv) 0 then [fst iv] else [])
           (enumerate genus_curve).

(** [itertools.groupby]: the runs of consecutive entries with one key.
    [run] holds the current run, last entry first. *)
Fixpoint groupby_from (A : Type) (key : A -> Z) (k : Z) (run : list A)
  (l : list A) : list (list A) :=
  match l with
  | [] => [rev run]
  | a :: l' =>
      if Z.eqb (key a) k then groupby_from key k (a :: run) l'
      else rev run :: groupby_from key (key a) [a] l'
  end.

Definition groupby (A : Type) (key : A -> Z) (l : list A) : list (list A) :=
  match l with
  | [] => []
  | a :: l' => groupby_from key (key a) [a] l'
  end.

(** The runs of consecutive positions among the zeros. *)
Definition continuous_sections (zeros : list nat) : list (list nat) :=
  map (map snd)
      (groupby (fun ix => (Z.of_nat (fst ix) - Z.of_nat (snd ix))%Z)
               (enumerate zeros)).

(** [max(sections, key=len)]: the first of the longest; the [ValueError]
    on no section at all is caught and gives the empty list. *)
Fixpoint longest_from (best : list nat) (l : list (list nat)) : list nat :=
  match l with
  | [] => best
  | s :: l' =>
      if Nat.ltb (List.length best) (List.length s) then longest_from s l'
      else longest_from best l'
  end.

Definition max_cont_section (sections : list (list nat)) : list nat :=
  match sections with
  | [] => []
  | s :: l => longest_from s l
  end.

(** [genus_curve[section] = np.NaN] *)
Definition set_nan (genus_curve : list R) (section : list nat)
  : list (option R) :=
  map (fun iv => if existsb (Nat.eqb (fst iv)) section then None
                 else Some (snd iv))
      (enumerate genus_curve).

Definition clip_genus (genus_curve : list R) (length_threshold : Z)
  : list (option R) :=
  let section := max_cont_section (continuous_sections (zeros genus_curve)) in
  if Z.leb length_threshold (Z.of_nat (List.length section))
  then set_nan genus_curve section
  else map Some genus_curve.

(** ** tsallis.py: the functions on arrays *)

(** [a[idx]] for a list of positions. *)
Fixpoint take (A : Type) (a : list A) (idx : list nat) : outcome (list A) :=
  match idx with
  | [] => Ok []
  | i :: idx' =>
      match nth_error a i, take a idx' with
      | Some v, Ok vs => Ok (v :: vs)
      | None, _ => Raise IndexError
      | _, Raise e => Raise e
      end
  end.

(** [np.where(mask == 1)[0]] *)
Definition where_true (mask : list bool) : list nat :=
  flat_map (fun ib => if snd ib : bool then [fst ib] else [])
           (enumerate mask).

(** [y] holds base-10 logarithms of counts: [None] stands for an entry
    that is not finite. *)
Definition clip_to_sigma (x : list R) (y : list (option R)) (sigma : R)
  : outcome (list R * list R) :=
  let clip_mask :=
    map (fun val => Np.ltb val sigma || Np.gtb val (- sigma)) x in
  let idx := where_true clip_mask in
  match take x idx, take y idx with
  | Ok clip_x, Ok clip_y =>
      let isfinite :=
        map (fun v => match v with Some _ => true | None => false end)
            clip_y in
      Ok (Np.compress clip_x isfinite, Nan.finite clip_y)
  | Raise e, _ => Raise e
  | _, Raise e => Raise e
  end.

(** [table[:, k]] *)
Fixpoint column (k : nat) (table : grid R) : outcome (list R) :=
  match table with
  | [] => Ok []
  | row :: table' =>
      match nth_error row k, column k table' with
      | Some v, Ok vs => Ok (v :: vs)
      | None, _ => Raise IndexError
      | _, Raise e => Raise e
      end
  end.

(** [(a - b) ** 2. / (a ** 2. + b ** 2.)] on two floats. *)
Definition normalized_diff (a b : R) : R :=
  (a - b) ^ 2 / (a ^ 2 + b ^ 2).

(** The same on two 1D arrays, which numpy broadcasts: arrays of one
    length go entry by entry, and an array of a single entry goes against
    every entry of the other. *)
Definition normalized_diffs (a b : list R) : outcome (list R) :=
  if Nat.eqb (List.length a) (List.length b) then
    Ok (map (fun p => normalized_diff (fst p) (snd p)) (combine a b))
  else
    match a, b with
    | [x], _ => Ok (map (fun y => normalized_diff x y) b)
    | _, [y] => Ok (map (fun x => normalized_diff x y) a)
    | _, _ => Raise (ValueError Msg.broadcast)
    end.

(** The value [Tsallis_Distance.distance_metric] assigns to [distance],
    from the two tables of fitted parameters (one row [logA, w2, q] per
    lag). *)
Definition tsallis_distance (params1 params2 : grid R) : outcome R :=
  match column 1 params1, column 1 params2,
        column 2 params1, column 2 params2 with
  | Ok w1, Ok w2, Ok q1, Ok q2 =>
      match normalized_diffs w1 w2, normalized_diffs q1 q2 with
      | Ok diff_w, Ok diff_q =>
          Ok (Nan.sum (map (fun d => fst d + snd d) (combine diff_w diff_q)))
      | Raise e, _ => Raise e
      | _, Raise e => Raise e
      end
  | Raise e, _, _, _ => Raise e
  | _, Raise e, _, _ => Raise e
  | _, _, Raise e, _ => Raise e
  | _, _, _, Raise e => Raise e
  end.

(** ** A small object and stand-ins for the libraries

    Concrete inputs for the worked examples at the end: a 2x2 spectrum with
    a three-bin radial profile, and library functions that return fixed
    results. *)

Module Demo.

Definition spectrum : grid R := [[1; 2]; [3; 4]].

Definition obj : PSpec := {|
  _header := None;
  _distance := None;
  _ps2D := Some spectrum;
  _freqs := Some [1 / 10; 1; 10];
  _ps1D := Some [10; 1; 1 / 10];
  _ps1D_stddev := Some [10; 10; 10];
  _azim_mask := None;
  _stddev_flag := Some true;
  _azim_constraint_flag := Some false;
  low_cut := None;
  high_cut := None;
  _brk := None;
  _brk_err := None;
  _slope := None;
  _slope_err := None;
  fit := None;
  fit2D := None;
  _fitter := None;
  _slope2D := None;
  _slope2D_err := None;
  _theta2D := None;
  _theta2D_err := None;
  _ellip2D := None;
  _ellip2D_err := None
|}.

Definition start : world := {| self := obj; warned := []; fitted := [] |}.

(** An object that holds its 2D spectrum and nothing else. *)
Definition bare : PSpec := {|
  _header := None;
  _distance := None;
  _ps2D := Some spectrum;
  _freqs := None;
  _ps1D := None;
  _ps1D_stddev := None;
  _azim_mask := None;
  _stddev_flag := None;
  _azim_constraint_flag := None;
  low_cut := None;
  high_cut := None;
  _brk := None;
  _brk_err := None;
  _slope := None;
  _slope_err := None;
  fit := None;
  fit2D := None;
  _fitter := None;
  _slope2D := None;
  _slope2D_err := None;
  _theta2D := None;
  _theta2D_err := None;
  _ellip2D := None;
  _ellip2D_err := None
|}.

Definition bare_start : world :=
  {| self := bare; warned := []; fitted := [] |}.

(** [start] once the default cut-offs are in place. *)
Definition with_cuts : world :=
  update (set_high_cut (Rmax (Rmax (1 / 10) 1) 10))
    (update (set_low_cut (1 / (0.5 * INR 2))) start).

(** [log10] of the radial profile. *)
Definition x : list R := map Np.log10 [1 / 10; 1; 10].
Definition y : list R := map Np.log10 [10; 1; 1 / 10].

Definition clip_all (v lo hi : R) : bool := true.
Definition clip_none (v lo hi : R) : bool := false.

Definition line : fitres := {| params := [0; -1]; bse := [0; 0] |}.

Definition OLS (y x : list R) : outcome fitres := Ok line.
Definition WLS (y x w : list R) : outcome fitres := Ok line.

(** A segmented fit that converges, with its break at the guess. *)
Definition segmented (b : R) : Lm_Seg.t := {|
  Lm_Seg.params_size := 5;
  Lm_Seg.brk := b;
  Lm_Seg.brk_err := 0;
  Lm_Seg.slopes := [-1; -2];
  Lm_Seg.slope_errs := [0; 0];
  Lm_Seg.fit := line
|}.

Definition Lm_Seg_fit (x y : list R) (b : R) (verbose : bool)
  : outcome Lm_Seg.t := Ok (segmented b).

Definition radial_freq_arrays (shape : nat * nat) : grid R * grid R :=
  ([[0; 0]; [1; 1]], [[0; 1]; [0; 1]]).

(** A 2D fit that returns the ellipticity parameter [e] and the angle
    [theta]. *)
Definition ellip_fit (e theta : R) (z xx yy p0 : list R)
  (opts : Ellip.options) : outcome Ellip.t :=
  Ok {| Ellip.params := [2; e; theta; -3];
        Ellip.stderrs := [0; 0; 0; 0];
        Ellip.fit_2Dmodel := 0;
        Ellip.fitter := 0 |}.

Definition transform (x a b : R) : R := x.
Definition transform_stderr (s x a b : R) : R := s.

Definition radial_profile (a : grid R) (return_stddev logspacing : bool)
  (max_bin : option R) (kw : kwargs) : outcome pspec_out :=
  Ok {| out_freqs := [1 / 10; 1; 10];
        out_ps1D := [10; 1; 1 / 10];
        out_stddev := if return_stddev then Some [10; 10; 10] else None;
        out_azim_mask := None |}.

Definition knots_of (knots : list R) (x y : list R) (kw : kwargs)
  : outcome (list R) := Ok knots.

(** [obj] with a header, of pixels of 2 degrees, and a distance of 3 pc. *)
Definition located_obj : PSpec := {|
  _header := Some 2;
  _distance := Some 3;
  _ps2D := _ps2D obj;
  _freqs := _freqs obj;
  _ps1D := _ps1D obj;
  _ps1D_stddev := _ps1D_stddev obj;
  _azim_mask := _azim_mask obj;
  _stddev_flag := _stddev_flag obj;
  _azim_constraint_flag := _azim_constraint_flag obj;
  low_cut := low_cut obj;
  high_cut := high_cut obj;
  _brk := _brk obj;
  _brk_err := _brk_err obj;
  _slope := _slope obj;
  _slope_err := _slope_err obj;
  fit := fit obj;
  fit2D := fit2D obj;
  _fitter := _fitter obj;
  _slope2D := _slope2D obj;
  _slope2D_err := _slope2D_err obj;
  _theta2D := _theta2D obj;
  _theta2D_err := _theta2D_err obj;
  _ellip2D := _ellip2D obj;
  _ellip2D_err := _ellip2D_err obj
|}.

Definition located : world :=
  {| self := located_obj; warned := []; fitted := [] |}.

(** [obj] after a run without [return_stddev]. *)
Definition no_stddev : world :=
  update (set_stddev_flag false) start.

(** A segmented fit that did not converge: the model of a single line. *)
Definition unbroken (b : R) : Lm_Seg.t := {|
  Lm_Seg.params_size := 3;
  Lm_Seg.brk := b;
  Lm_Seg.brk_err := 0;
  Lm_Seg.slopes := [-1];
  Lm_Seg.slope_errs := [0];
  Lm_Seg.fit := line
|}.

Definition Lm_Seg_fails (x y : list R) (b : R) (verbose : bool)
  : outcome Lm_Seg.t := Ok (unbroken b).

(** Two dendrograms, by their numbers of features per level. *)
Definition dendro1 : Dendrogram_Stats :=
  {| numfeatures := [10; 8; 5; 2]; tail_slope := -1; tail_slope_err := 0.1 |}.
Definition dendro2 : Dendrogram_Stats :=
  {| numfeatures := [9; 7; 3; 1]; tail_slope := -2; tail_slope_err := 0.1 |}.

(** [with_cuts] holding the azimuthal mask of an earlier run. *)
Definition masked : world :=
  update (set_azim_mask [[true; false]; [false; true]]) with_cuts.

(** A radial profile that cannot be computed. *)
Definition no_profile (a : grid R) (return_stddev logspacing : bool)
  (max_bin : option R) (kw : kwargs) : outcome pspec_out :=
  Raise (Foreign "psds.pspec").

(** A dendrogram with enough features at its first level only. *)
Definition dendro0 : Dendrogram_Stats :=
  {| numfeatures := [10; 2; 1]; tail_slope := -1; tail_slope_err := 0 |}.

(** [obj] with a radial profile that has no bin. *)
Definition empty_obj : PSpec := {|
  _header := _header obj;
  _distance := _distance obj;
  _ps2D := _ps2D obj;
  _freqs := Some [];
  _ps1D := Some [];
  _ps1D_stddev := Some [];
  _azim_mask := _azim_mask obj;
  _stddev_flag := _stddev_flag obj;
  _azim_constraint_flag := _azim_constraint_flag obj;
  low_cut := low_cut obj;
  high_cut := high_cut obj;
  _brk := _brk obj;
  _brk_err := _brk_err obj;
  _slope := _slope obj;
  _slope_err := _slope_err obj;
  fit := fit obj;
  fit2D := fit2D obj;
  _fitter := _fitter obj;
  _slope2D := _slope2D obj;
  _slope2D_err := _slope2D_err obj;
  _theta2D := _theta2D obj;
  _theta2D_err := _theta2D_err obj;
  _ellip2D := _ellip2D obj;
  _ellip2D_err := _ellip2D_err obj
|}.

Definition empty_start : world :=
  {| self := empty_obj; warned := []; fitted := [] |}.

End Demo.

Section TurbuStat.

(** ** base_pspec2.py: [StatisticBase_PSpec2D] *)

(** [fitting_utils.clip_func(arr, low, high)], entry by entry. *)
Variable clip_func : R -> R -> R -> bool.

(** [psds.pspec(ps2D, return_stddev=, logspacing=, max_bin=, **kwargs)] *)
Variable pspec :
  grid R -> bool -> bool -> option R -> kwargs -> outcome pspec_out.

(** [psds.make_radial_freq_arrays(shape)], returning [(yy_freq, xx_freq)]. *)
Variable make_radial_freq_arrays : nat * nat -> grid R * grid R.

(** [Lm_Seg(x, y, brk)] followed by [fit_model(verbose=verbose)]. *)
Variable Lm_Seg_fit_model :
  list R -> list R -> R -> bool -> outcome Lm_Seg.t.

(** [sm.OLS(y, sm.add_constant(x), missing='drop').fit()] *)
Variable OLS_fit : list R -> list R -> outcome fitres.

(** [sm.WLS(y, sm.add_constant(x), missing='drop', weights=w).fit()] *)
Variable WLS_fit : list R -> list R -> list R -> outcome fitres.

(** [elliptical_powerlaw.fit_elliptical_powerlaw(z, x, y, p0, ...)] *)
Variable fit_elliptical_powerlaw :
  list R -> list R -> list R -> list R -> Ellip.options -> outcome Ellip.t.

(** [elliptical_powerlaw.inverse_interval_transform(x, a, b)] and its
    standard-error companion [(stderr, x, a, b)]. *)
Variable inverse_interval_transform : R -> R -> R -> R.
Variable inverse_interval_transform_stderr : R -> R -> R -> R -> R.

(** *** Properties *)

Definition ps2D : M (grid R) :=
  a <- getattr "_ps2D" _ps2D ;; ret (rev a).

Definition ps1D : M (list R) := getattr "_ps1D" _ps1D.

Definition ps1D_stddev : M (list R) :=
  flag <- getattr "_stddev_flag" _stddev_flag ;;
  (if negb flag then warn Msg.stddev_not_enabled else ret tt) ;;
  getattr "_ps1D_stddev" _ps1D_stddev.

Definition freqs : M (list R) := getattr "_freqs" _freqs.

Definition slope : M slope_t := getattr "_slope" _slope.
Definition brk : M (option R) := getattr "_brk" _brk.
Definition ellip2D : M R := getattr "_ellip2D" _ellip2D.

(** *** compute_radial_pspec *)

Definition compute_radial_pspec (return_stddev logspacing : bool)
  (max_bin : option R) (kw : kwargs) : M unit :=
  let azim_constraint_flag := truthy (kwargs_get kw "theta_0") in
  a <- ps2D ;;
  out <- lift (pspec a return_stddev logspacing max_bin kw) ;;
  setattr (set_stddev_flag return_stddev) ;;
  setattr (set_azim_constraint_flag azim_constraint_flag) ;;
  match return_stddev, azim_constraint_flag,
        out_stddev out, out_azim_mask out with
  | true, true, Some sd, Some am =>
      setattr (set_freqs (out_freqs out)) ;;
      setattr (set_ps1D (out_ps1D out)) ;;
      setattr (set_ps1D_stddev sd) ;;
      setattr (set_azim_mask am)
  | true, false, Some sd, None =>
      setattr (set_freqs (out_freqs out)) ;;
      setattr (set_ps1D (out_ps1D out)) ;;
      setattr (set_ps1D_stddev sd)
  | false, true, None, Some am =>
      setattr (set_freqs (out_freqs out)) ;;
      setattr (set_ps1D (out_ps1D out)) ;;
      setattr (set_azim_mask am)
  | false, false, None, None =>
      setattr (set_freqs (out_freqs out)) ;;
      setattr (set_ps1D (out_ps1D out))
  | _, _, _, _ => raise (ValueError Msg.unpack)
  end ;;
  (* self._freqs = self.freqs / u.pix *)
  f <- freqs ;;
  setattr (set_freqs f).

(** *** fit_pspec *)

(** The opening lines shared by [fit_pspec] and [fit_2Dpspec]: the cut-offs
    in pixel frequency, defaulting to one pixel of the 2D spectrum and to
    the largest radial frequency. *)
Definition set_cuts (low_cut high_cut : option scalar) : M unit :=
  match low_cut with
  | None =>
      a <- ps2D ;;
      let shape := Grid.shape a in
      setattr (set_low_cut
                 (1 / (0.5 * INR (Nat.max (fst shape) (snd shape)))))
  | Some q =>
      v <- _to_pixel_freq q ;; setattr (set_low_cut (value v))
  end ;;
  match high_cut with
  | None =>
      f <- freqs ;;
      match Np.max f with
      | Some m => setattr (set_high_cut m)
      | None => raise (ValueError Msg.zero_size_max)
      end
  | Some q =>
      v <- _to_pixel_freq q ;; setattr (set_high_cut (value v))
  end.

(** [arr[clip_func(self.freqs.value, self.low_cut.value,
    self.high_cut.value)]] *)
Definition clipped (arr : M (list R)) : M (list R) :=
  a <- arr ;;
  f <- freqs ;;
  lo <- getattr "low_cut" low_cut ;;
  hi <- getattr "high_cut" high_cut ;;
  index a (map (fun v => clip_func v lo hi) f).

Definition call_Lm_Seg (x y : list R) (b : R) (verbose : bool)
  : M Lm_Seg.t :=
  record_call (Call_Lm_Seg x y b) ;; lift (Lm_Seg_fit_model x y b verbose).

Definition call_OLS (y x : list R) : M fitres :=
  record_call (Call_OLS y x) ;; lift (OLS_fit y x).

Definition call_WLS (y x weights : list R) : M fitres :=
  record_call (Call_WLS y x weights) ;; lift (WLS_fit y x weights).

(** Lines 153-166: the checks of a weighted fit and its [y_err]. *)
Definition weighted_y_err (brk_arg : option scalar) : M (list R) :=
  match brk_arg with
  | Some _ => raise (ValueError Msg.wls_with_break)
  | None => ret tt
  end ;;
  flag <- getattr "_stddev_flag" _stddev_flag ;;
  (if negb flag then raise (ValueError Msg.stddev_required) else ret tt) ;;
  e <- clipped ps1D_stddev ;;
  ret (map Np.log10 e).

(** Lines 170-177: the break guess in log10 of pixel frequency. *)
Definition break_guess (b : scalar) (log_break : bool) : M R :=
  if negb log_break then
    q <- _to_pixel_freq b ;; ret (Np.log10 (value q))
  else
    match b with
    | Quantity v u =>
        if unit_eq_dec u dimensionless_unscaled then ret v
        else raise AssertionError
    | Plain v => ret v
    end.

(** Lines 168-209: the fit with a break.  Returns the [x] and [y] bound
    when the block ends. *)
Definition fit_break (b : scalar) (log_break : bool) (min_fits_pts : Z)
  (verbose : bool) (x y : list R) : M (list R * list R) :=
  b' <- break_guess b log_break ;;
  brk_fit <- call_Lm_Seg x y b' verbose ;;
  if Nat.eqb (Lm_Seg.params_size brk_fit) 5 then
    if Z.ltb (Np.sum (Np.less x (Lm_Seg.brk brk_fit))) min_fits_pts then
      warn Msg.not_enough_points ;;
      setattr (set_brk None) ;;
      ret (x, y)
    else
      let good_pts := Np.less x (Lm_Seg.brk brk_fit) in
      x' <- index x good_pts ;;
      y' <- index y good_pts ;;
      setattr (set_brk (Some (Np.pow10 (Lm_Seg.brk brk_fit)))) ;;
      cur <- brk ;;
      match cur with
      | Some bv =>
          setattr (set_brk_err
                     (Some (Np.log_10 * bv * Lm_Seg.brk_err brk_fit)))
      | None => raise (AttributeError "value")
      end ;;
      setattr (set_slope (NdArray (Lm_Seg.slopes brk_fit))) ;;
      setattr (set_slope_err (NdArray (Lm_Seg.slope_errs brk_fit))) ;;
      setattr (set_fit (Lm_Seg.fit brk_fit)) ;;
      ret (x', y')
  else
    setattr (set_brk None) ;;
    warn Msg.break_failed ;;
    ret (x, y).

(** Lines 214-225: the fit without a break.  [y_err] is bound exactly when
    [weighted_fit] holds. *)
Definition fit_unbroken (x y : list R) (y_err : option (list R)) : M unit :=
  f <- match y_err with
       | Some e => call_WLS y x (map (fun v => 1 / v ^ 2) e)
       | None => call_OLS y x
       end ;;
  setattr (set_fit f) ;;
  s <- item (params f) 1 ;;
  setattr (set_slope (Float s)) ;;
  e <- item (bse f) 1 ;;
  setattr (set_slope_err (Float e)).

(** Lines 135-151: the data to fit, [(x, y)]. *)
Definition fit_data (low_cut high_cut : option scalar)
  : M (list R * list R) :=
  set_cuts low_cut high_cut ;;
  xs <- clipped freqs ;;
  ys <- clipped ps1D ;;
  ret (map Np.log10 xs, map Np.log10 ys).

Definition fit_pspec (brk_arg : option scalar) (log_break : bool)
  (low_cut high_cut : option scalar) (min_fits_pts : Z)
  (weighted_fit verbose : bool) : M unit :=
  xy <- fit_data low_cut high_cut ;;
  y_err <- (if weighted_fit then
              e <- weighted_y_err brk_arg ;; ret (Some e)
            else ret None) ;;
  xy' <- match brk_arg with
         | Some b =>
             fit_break b log_break min_fits_pts verbose (fst xy) (snd xy)
         | None =>
             setattr (set_brk None) ;;
             setattr (set_brk_err None) ;;
             ret xy
         end ;;
  cur <- brk ;;
  match cur with
  | None => fit_unbroken (fst xy') (snd xy') y_err
  | Some _ => ret tt
  end.

(** *** fit_2Dpspec *)

(** [np.sqrt(yy_freq**2 + xx_freq**2)] and [np.logical_and] on two arrays:
    entry by entry when the shapes agree; other shapes are refused (numpy
    would broadcast some of them). *)
Definition freqs_dist_of (yy_freq xx_freq : grid R) : M (grid R) :=
  if Grid.same_shape yy_freq xx_freq
  then ret (Grid.map2 (fun y x => sqrt (y ^ 2 + x ^ 2)) yy_freq xx_freq)
  else raise (ValueError Msg.broadcast).

Definition logical_and (m1 m2 : grid bool) : M (grid bool) :=
  if Grid.same_shape m1 m2 then ret (Grid.map2 andb m1 m2)
  else raise (ValueError Msg.broadcast).

(** Lines 346-353: the mask of the fit, with [(yy_freq, xx_freq)]. *)
Definition build_mask (use_azimmask : bool)
  : M (grid bool * grid R * grid R) :=
  a <- ps2D ;;
  let (yy_freq, xx_freq) := make_radial_freq_arrays (Grid.shape a) in
  freqs_dist <- freqs_dist_of yy_freq xx_freq ;;
  lo <- getattr "low_cut" low_cut ;;
  hi <- getattr "high_cut" high_cut ;;
  let mask := map (map (fun v => clip_func v lo hi)) freqs_dist in
  has <- hasattr _azim_mask ;;
  mask <- (if has && use_azimmask then
             am <- getattr "_azim_mask" _azim_mask ;; logical_and mask am
           else ret mask) ;;
  ret (mask, yy_freq, xx_freq).

(** Lines 355-357: its validation. *)
Definition check_mask (mask : grid bool) : M unit :=
  if negb (Grid.any mask) then raise (ValueError Msg.empty_mask)
  else ret tt.

(** Lines 359-375: the initial parameters when [p0] is empty. *)
Definition default_p0 : M (list R) :=
  has <- hasattr _slope ;;
  guess <- (if has then
              s <- slope ;;
              slope_guess <- match s with
                             | NdArray a => item a 0
                             | Float v => ret v
                             end ;;
              f <- getattr "fit" fit ;;
              amp_guess <- item (params f) 0 ;;
              ret (slope_guess, amp_guess)
            else
              a <- ps2D ;;
              match Grid.nanmax a with
              | Some m => ret (-2, Np.log10 m)
              | None => raise (ValueError Msg.zero_size_max)
              end) ;;
  let theta := Np.pi / 2 in
  let ellip_conv := 0 in
  ret [snd guess; ellip_conv; theta; fst guess].

Definition call_fit_elliptical_powerlaw (z xx yy p0 : list R)
  (opts : Ellip.options) : M Ellip.t :=
  record_call (Call_fit_elliptical_powerlaw z xx yy p0) ;;
  lift (fit_elliptical_powerlaw z xx yy p0 opts).

(** Lines 387-407: storing the fitted parameters. *)
Definition store_fit2D (r : Ellip.t) : M unit :=
  setattr (set_fit2D (Ellip.fit_2Dmodel r)) ;;
  setattr (set_fitter (Ellip.fitter r)) ;;
  p3 <- item (Ellip.params r) 3 ;;
  setattr (set_slope2D p3) ;;
  e3 <- item (Ellip.stderrs r) 3 ;;
  setattr (set_slope2D_err e3) ;;
  p2 <- item (Ellip.params r) 2 ;;
  setattr (set_theta2D (Np.mod_ p2 Np.pi)) ;;
  e2 <- item (Ellip.stderrs r) 2 ;;
  setattr (set_theta2D_err e2) ;;
  p1 <- item (Ellip.params r) 1 ;;
  setattr (set_ellip2D (inverse_interval_transform p1 0 1)) ;;
  e1 <- item (Ellip.stderrs r) 1 ;;
  p1 <- item (Ellip.params r) 1 ;;
  setattr (set_ellip2D_err (inverse_interval_transform_stderr e1 p1 0 1)) ;;
  e <- ellip2D ;;
  if Np.gtb e 0.97 then warn Msg.ellip_close_to_1 else ret tt.

Definition fit_2Dpspec (fit_method : string) (p0 : list R)
  (low_cut high_cut : option scalar) (bootstrap : bool) (niters : Z)
  (use_azimmask radial_weighting fix_ellip_params : bool) : M unit :=
  set_cuts low_cut high_cut ;;
  mf <- build_mask use_azimmask ;;
  let '(mask, yy_freq, xx_freq) := mf in
  check_mask mask ;;
  p0 <- (if Nat.eqb (List.length p0) 0 then default_p0 else ret p0) ;;
  a <- ps2D ;;
  z <- index2 a mask ;;
  xx <- index2 xx_freq mask ;;
  yy <- index2 yy_freq mask ;;
  r <- call_fit_elliptical_powerlaw (map Np.log10 z) xx yy p0
         {| Ellip.fit_method := fit_method; Ellip.bootstrap := bootstrap;
            Ellip.niters := niters;
            Ellip.radial_weighting := radial_weighting;
            Ellip.fix_ellip_params := fix_ellip_params |} ;;
  store_fit2D r.

(** ** dendro_stats.py: [break_spline] *)

(** [UnivariateSpline(x, y, **kwargs).get_knots()] of scipy. *)
Variable UnivariateSpline_get_knots :
  list R -> list R -> kwargs -> outcome (list R).

Definition knot_expec : R := -0.8.

(** [knots[i]] *)
Definition knot (knots : list R) (i : nat) : outcome R :=
  match nth_error knots i with
  | Some k => Ok k
  | None => Raise IndexError
  end.

(** The result, paired with what the function prints. *)
Definition break_spline (x y : list R) (kw : kwargs)
  : list string * outcome R :=
  match UnivariateSpline_get_knots x y kw with
  | Raise e => ([], Raise e)
  | Ok knots =>
      if Nat.ltb 3 (List.length knots) then
        (["Many knots"%string],
         match Np.argmin (map (fun k => Rabs (k - knot_expec)) knots) with
         | Some posn => knot knots posn
         | None => Raise (ValueError Msg.zero_size_max)
         end)
      else if Nat.eqb (List.length knots) 2 then
        (["No knots"%string], knot knots 0)
      else ([], knot knots 1)
  end.

(** * Properties *)

(** ** Running a method step by step *)

Lemma bind_Ok (A B : Type) (m : M A) (k : A -> M B) w a w1 :
  m w = (Ok a, w1) -> bind m k w = k a w1.
Proof. intros H. unfold bind. now rewrite H. Qed.

Lemma bind_Raise (A B : Type) (m : M A) (k : A -> M B) w e w1 :
  m w = (Raise e, w1) -> bind m k w = (Raise e, w1).
Proof. intros H. unfold bind. now rewrite H. Qed.

Lemma bind_inv (A B : Type) (m : M A) (k : A -> M B) w b w' :
  bind m k w = (Ok b, w') ->
  exists a w1, m w = (Ok a, w1) /\ k a w1 = (Ok b, w').
Proof.
  unfold bind. destruct (m w) as [[a | e] w1]; intros H.
  - now exists a, w1.
  - discriminate.
Qed.

Lemma getattr_inv (A : Type) name (field : PSpec -> option A) w v w' :
  getattr name field w = (Ok v, w') -> field (self w) = Some v /\ w' = w.
Proof.
  unfold getattr. destruct (field (self w)); intros H; inversion H; auto.
Qed.

Lemma getattr_Some (A : Type) name (field : PSpec -> option A) w v :
  field (self w) = Some v -> getattr name field w = (Ok v, w).
Proof. intros H. unfold getattr. now rewrite H. Qed.

Lemma item_inv a i w v w' :
  item a i w = (Ok v, w') -> nth_error a i = Some v /\ w' = w.
Proof.
  unfold item. destruct (nth_error a i); intros H; inversion H; auto.
Qed.

(** [run_ok H]: the first statement returns, by [H]. *)
Tactic Notation "run_ok" constr(H) := rewrite (@bind_Ok _ _ _ _ _ _ _ H).
Tactic Notation "run_ok" constr(H) "in" hyp(H') :=
  rewrite (@bind_Ok _ _ _ _ _ _ _ H) in H'.

(** ** What a method leaves alone

    [keeps f m]: running [m] never changes the observation [f] of the
    state, whether [m] returns or raises. *)

Definition keeps (A B : Type) (f : world -> B) (m : M A) : Prop :=
  forall w, f (snd (m w)) = f w.

Lemma keeps_ret (A B : Type) (f : world -> B) (a : A) : keeps f (ret a).
Proof. intros w. reflexivity. Qed.

Lemma keeps_raise (A B : Type) (f : world -> B) e : keeps f (@raise A e).
Proof. intros w. reflexivity. Qed.

Lemma keeps_lift (A B : Type) (f : world -> B) (o : outcome A) :
  keeps f (lift o).
Proof. intros w. reflexivity. Qed.

Lemma keeps_getattr (A B : Type) (f : world -> B) name
  (field : PSpec -> option A) : keeps f (getattr name field).
Proof. intros w. unfold getattr. now destruct (field (self w)). Qed.

Lemma keeps_hasattr (A B : Type) (f : world -> B)
  (field : PSpec -> option A) : keeps f (hasattr field).
Proof. intros w. reflexivity. Qed.

Lemma keeps_bind (A B C : Type) (f : world -> C) (m : M A) (k : A -> M B) :
  keeps f m -> (forall a, keeps f (k a)) -> keeps f (bind m k).
Proof.
  intros Hm Hk w. unfold bind. specialize (Hm w).
  destruct (m w) as [[a | e] w1]; simpl in *.
  - now rewrite Hk.
  - exact Hm.
Qed.

Lemma keeps_item (B : Type) (f : world -> B) a i : keeps f (item a i).
Proof. intros w. unfold item. now destruct (nth_error a i). Qed.

Lemma keeps_index (B : Type) (f : world -> B) a m : keeps f (index a m).
Proof. intros w. unfold index. now destruct (Nat.eqb _ _). Qed.

Lemma keeps_index2 (B : Type) (f : world -> B) a m : keeps f (index2 a m).
Proof. intros w. unfold index2. now destruct (Grid.same_shape _ _). Qed.

(** Observations of the object alone survive warnings and recorded calls;
    [warned] and [fitted] survive every assignment. *)

Lemma keeps_warn_self (B : Type) (f : PSpec -> B) msg :
  keeps (fun w => f (self w)) (warn msg).
Proof. intros w. reflexivity. Qed.

Lemma keeps_record_call_self (B : Type) (f : PSpec -> B) c :
  keeps (fun w => f (self w)) (record_call c).
Proof. intros w. reflexivity. Qed.

Lemma keeps_setattr_self (B : Type) (f : PSpec -> B) set :
  (forall s, f (set s) = f s) -> keeps (fun w => f (self w)) (setattr set).
Proof. intros H w. simpl. apply H. Qed.

Lemma keeps_setattr_fitted set : keeps fitted (setattr set).
Proof. intros w. reflexivity. Qed.

Lemma keeps_setattr_warned set : keeps warned (setattr set).
Proof. intros w. reflexivity. Qed.

Lemma keeps_warn_fitted msg : keeps fitted (warn msg).
Proof. intros w. reflexivity. Qed.

Lemma keeps_record_call_warned c : keeps warned (record_call c).
Proof. intros w. reflexivity. Qed.

Create HintDb keeps.

#[local] Hint Resolve keeps_ret keeps_raise keeps_lift keeps_getattr
  keeps_hasattr keeps_item keeps_index keeps_index2 keeps_warn_self
  keeps_record_call_self keeps_setattr_fitted keeps_setattr_warned
  keeps_warn_fitted keeps_record_call_warned : keeps.

(** Splits a method into its statements and closes each with the lemmas
    above. *)
Ltac keeps_step :=
  match goal with
  | |- keeps _ (bind _ _) => apply keeps_bind; [ | intros ]
  | |- keeps _ (setattr _) =>
      solve [ apply keeps_setattr_self; intros; reflexivity ]
  | |- keeps _ (match ?x with _ => _ end) => destruct x
  | |- keeps _ _ => solve [ auto with keeps ]
  end.

Ltac keeps_auto := repeat keeps_step.

Lemma keeps__to_pixel_freq (B : Type) (f : world -> B) q :
  keeps f (_to_pixel_freq q).
Proof.
  unfold _to_pixel_freq, reciprocal, _to_pixel, to_pix_angular,
    to_pix_physical, _physical_size, distance, _ang_size.
  keeps_auto.
Qed.

(** The results of the 1D fit held by the object. *)
Definition fit_results (s : PSpec) :=
  (fit s, _slope s, _slope_err s, _brk s, _brk_err s).

(** An observation of the object that no cut-off assignment changes. *)
Definition blind_to_cuts (B : Type) (f : PSpec -> B) : Prop :=
  forall v s, f (set_low_cut v s) = f s /\ f (set_high_cut v s) = f s.

Lemma keeps_set_cuts_self (B : Type) (f : PSpec -> B) lc hc :
  blind_to_cuts f -> keeps (fun w => f (self w)) (set_cuts lc hc).
Proof.
  intros Hf. unfold set_cuts, ps2D, freqs.
  repeat first
    [ apply keeps_setattr_self; intros; apply Hf
    | apply keeps__to_pixel_freq
    | keeps_step ].
Qed.

Lemma keeps_set_cuts_fitted lc hc : keeps fitted (set_cuts lc hc).
Proof.
  unfold set_cuts, ps2D, freqs.
  repeat first [ apply keeps__to_pixel_freq | keeps_step ].
Qed.

Lemma keeps_set_cuts_warned lc hc : keeps warned (set_cuts lc hc).
Proof.
  unfold set_cuts, ps2D, freqs.
  repeat first [ apply keeps__to_pixel_freq | keeps_step ].
Qed.

Lemma keeps_clipped (B : Type) (f : world -> B) arr :
  keeps f arr -> keeps f (clipped arr).
Proof. intros H. unfold clipped, freqs. keeps_auto. Qed.

Lemma keeps_fit_data_self (B : Type) (f : PSpec -> B) lc hc :
  blind_to_cuts f -> keeps (fun w => f (self w)) (fit_data lc hc).
Proof.
  intros Hf. unfold fit_data.
  apply keeps_bind; [ now apply keeps_set_cuts_self | intros ].
  apply keeps_bind; [ apply keeps_clipped; apply keeps_getattr | intros ].
  apply keeps_bind; [ apply keeps_clipped; apply keeps_getattr | intros ].
  apply keeps_ret.
Qed.

Lemma keeps_fit_data_fitted lc hc : keeps fitted (fit_data lc hc).
Proof.
  unfold fit_data.
  apply keeps_bind; [ apply keeps_set_cuts_fitted | intros ].
  apply keeps_bind; [ apply keeps_clipped; apply keeps_getattr | intros ].
  apply keeps_bind; [ apply keeps_clipped; apply keeps_getattr | intros ].
  apply keeps_ret.
Qed.

Lemma keeps_fit_data_warned lc hc : keeps warned (fit_data lc hc).
Proof.
  unfold fit_data.
  apply keeps_bind; [ apply keeps_set_cuts_warned | intros ].
  apply keeps_bind; [ apply keeps_clipped; apply keeps_getattr | intros ].
  apply keeps_bind; [ apply keeps_clipped; apply keeps_getattr | intros ].
  apply keeps_ret.
Qed.

Lemma blind_fit_results : blind_to_cuts fit_results.
Proof. intros v s. split; reflexivity. Qed.

(** A weighted fit asked together with a break stops at the first check,
    whatever the state. *)
Lemma weighted_y_err_break b w :
  weighted_y_err (Some b) w = (Raise (ValueError Msg.wls_with_break), w).
Proof. reflexivity. Qed.

(** C2, as amended.  [fit_pspec] with [weighted_fit=True] and a break guess
    never returns: it raises, no call into a fitting library is made and
    the stored results of the 1D fit ([fit], [_slope], [_slope_err],
    [_brk], [_brk_err]) are those of before the call.  The cut-offs and
    the data to fit are computed first (lines 136-151): once they are in
    place the exception is the [ValueError] of the incompatible options,
    and when computing them raises, that earlier exception is the one the
    call ends with. *)
Theorem fit_pspec_weighted_with_break_raises
  w b log_break lc hc min_fits_pts verbose :
  let r := fit_pspec (Some b) log_break lc hc min_fits_pts true verbose w in
  (exists e, fst r = Raise e) /\
  (forall xy w1, fit_data lc hc w = (Ok xy, w1) ->
     r = (Raise (ValueError Msg.wls_with_break), w1)) /\
  (forall e w1, fit_data lc hc w = (Raise e, w1) -> r = (Raise e, w1)) /\
  fitted (snd r) = fitted w /\
  fit_results (self (snd r)) = fit_results (self w).
Proof.
  assert (Hrun : forall xy w1, fit_data lc hc w = (Ok xy, w1) ->
            fit_pspec (Some b) log_break lc hc min_fits_pts true verbose w
            = (Raise (ValueError Msg.wls_with_break), w1)).
  { intros xy w1 H. unfold fit_pspec. run_ok H.
    apply bind_Raise.
    apply bind_Raise. apply weighted_y_err_break. }
  pose proof (keeps_fit_data_fitted lc hc w) as Hf.
  pose proof (keeps_fit_data_self lc hc blind_fit_results w) as Hs.
  simpl in Hs.
  destruct (fit_data lc hc w) as [[xy | e] w1] eqn:E; simpl in Hf, Hs.
  - rewrite (Hrun xy w1 eq_refl). simpl. repeat split; eauto.
    + intros xy' w1' H. inversion H. reflexivity.
    + intros e' w1' H. discriminate.
  - assert (Hr : fit_pspec (Some b) log_break lc hc min_fits_pts true
                   verbose w = (Raise e, w1)).
    { unfold fit_pspec. now apply bind_Raise. }
    rewrite Hr. simpl. repeat split; eauto.
    + intros xy' w1' H. discriminate.
    + intros e' w1' H. inversion H. reflexivity.
Qed.

(** ** The data to fit *)

Lemma compress_length_eq (A B : Type) (m : list bool) :
  forall (a : list A) (b : list B),
    List.length a = List.length m -> List.length b = List.length m ->
    List.length (Np.compress a m) = List.length (Np.compress b m).
Proof.
  induction m as [| c m IH]; intros [| u a] [| v b] Ha Hb;
    simpl in *; try discriminate; auto.
  destruct c; simpl; auto.
Qed.

Lemma index_inv a m w r w' :
  index a m w = (Ok r, w') ->
  List.length a = List.length m /\ r = Np.compress a m /\ w' = w.
Proof.
  unfold index. destruct (Nat.eqb _ _) eqn:E; intros H; inversion H.
  apply Nat.eqb_eq in E. auto.
Qed.

Lemma clipped_getattr_inv name (field : PSpec -> option (list R)) w r w' :
  clipped (getattr name field) w = (Ok r, w') ->
  w' = w /\
  exists a f lo hi,
    field (self w) = Some a /\ _freqs (self w) = Some f /\
    low_cut (self w) = Some lo /\ high_cut (self w) = Some hi /\
    List.length a = List.length f /\
    r = Np.compress a (map (fun v => clip_func v lo hi) f).
Proof.
  unfold clipped, freqs. intros H.
  apply bind_inv in H as (a & w1 & Ha & H). apply getattr_inv in Ha as [Ha ->].
  apply bind_inv in H as (f & w1 & Hf & H). apply getattr_inv in Hf as [Hf ->].
  apply bind_inv in H as (lo & w1 & Hlo & H).
  apply getattr_inv in Hlo as [Hlo ->].
  apply bind_inv in H as (hi & w1 & Hhi & H).
  apply getattr_inv in Hhi as [Hhi ->].
  apply index_inv in H as (Hlen & -> & ->).
  split; [ reflexivity | ]. exists a, f, lo, hi.
  rewrite length_map in Hlen. auto 10.
Qed.

Lemma index_same_length a m w :
  List.length a = List.length m -> index a m w = (Ok (Np.compress a m), w).
Proof.
  intros H. unfold index. apply Nat.eqb_eq in H. now rewrite H.
Qed.

Lemma clipped_run (arr : M (list R)) a w f lo hi :
  arr w = (Ok a, w) ->
  _freqs (self w) = Some f ->
  low_cut (self w) = Some lo ->
  high_cut (self w) = Some hi ->
  List.length a = List.length f ->
  clipped arr w =
  (Ok (Np.compress a (map (fun v => clip_func v lo hi) f)), w).
Proof.
  intros Ha Hf Hlo Hhi Hlen. unfold clipped, freqs. run_ok Ha.
  run_ok (getattr_Some "_freqs" _ _ Hf).
  run_ok (getattr_Some "low_cut" _ _ Hlo).
  run_ok (getattr_Some "high_cut" _ _ Hhi).
  apply index_same_length. now rewrite length_map.
Qed.

(** [x] and [y] come out of one mask: they have one length. *)
Lemma fit_data_lengths lc hc w x y w1 :
  fit_data lc hc w = (Ok (x, y), w1) -> List.length x = List.length y.
Proof.
  unfold fit_data. intros H.
  apply bind_inv in H as ([] & wa & _ & H).
  apply bind_inv in H as (xs & wb & Hx & H).
  apply bind_inv in H as (ys & wc & Hy & H).
  apply clipped_getattr_inv in Hx as (-> & a & f & lo & hi & Ha & Hf & Hlo & Hhi & Hlen & ->).
  apply clipped_getattr_inv in Hy as (-> & a' & f' & lo' & hi' & Ha' & Hf' & Hlo' & Hhi' & Hlen' & ->).
  inversion H; subst. rewrite !length_map.
  assert (f' = f) by congruence. assert (lo' = lo) by congruence.
  assert (hi' = hi) by congruence. subst.
  apply compress_length_eq; rewrite length_map; auto.
Qed.

(** ** The fit with a break *)

(** The state after [Lm_Seg] found a break that is then rejected, and the
    state after it is accepted. *)
Definition break_rejected (x y : list R) (b' : R) (w : world) : world :=
  update (set_brk None)
    (warning Msg.not_enough_points (called (Call_Lm_Seg x y b') w)).

Definition break_accepted (x y : list R) (b' : R) (brk_fit : Lm_Seg.t)
  (w : world) : world :=
  let q := Np.pow10 (Lm_Seg.brk brk_fit) in
  update (set_fit (Lm_Seg.fit brk_fit))
    (update (set_slope_err (NdArray (Lm_Seg.slope_errs brk_fit)))
       (update (set_slope (NdArray (Lm_Seg.slopes brk_fit)))
          (update (set_brk_err
                     (Some (Np.log_10 * q * Lm_Seg.brk_err brk_fit)))
             (update (set_brk (Some q)) (called (Call_Lm_Seg x y b') w))))).

(** The number of points strictly above a break, [sum(x > b)]: what a test
    of the segment beyond the break would count. *)
Definition points_above (x : list R) (b : R) : Z :=
  Np.sum (map (fun v => Np.gtb v b) x).

(** The number of points strictly below a break. *)
Definition points_below (x : list R) (b : R) : Z := Np.sum (Np.less x b).

Lemma less_length x b : List.length (Np.less x b) = List.length x.
Proof. apply length_map. Qed.

Lemma fit_break_found b log_break min_fits_pts verbose x y w b' w1 brk_fit :
  break_guess b log_break w = (Ok b', w1) ->
  Lm_Seg_fit_model x y b' verbose = Ok brk_fit ->
  Lm_Seg.params_size brk_fit = 5%nat ->
  List.length x = List.length y ->
  fit_break b log_break min_fits_pts verbose x y w =
  if Z.ltb (points_below x (Lm_Seg.brk brk_fit)) min_fits_pts
  then (Ok (x, y), break_rejected x y b' w1)
  else (Ok (Np.compress x (Np.less x (Lm_Seg.brk brk_fit)),
            Np.compress y (Np.less x (Lm_Seg.brk brk_fit))),
        break_accepted x y b' brk_fit w1).
Proof.
  intros Hg Hfit Hsize Hlen. unfold fit_break. run_ok Hg.
  assert (Hcall : call_Lm_Seg x y b' verbose w1
                  = (Ok brk_fit, called (Call_Lm_Seg x y b') w1)).
  { unfold call_Lm_Seg, bind, record_call, lift. now rewrite Hfit. }
  run_ok Hcall. rewrite Hsize, Nat.eqb_refl.
  unfold points_below.
  destruct (Z.ltb _ _); [ reflexivity | ].
  erewrite bind_Ok
    by (apply index_same_length; now rewrite less_length).
  erewrite bind_Ok
    by (apply index_same_length; now rewrite less_length).
  reflexivity.
Qed.

(** With no break in the object, [fit_pspec] ends with the unbroken fit. *)
Lemma fit_pspec_after_rejection b log_break lc hc min_fits_pts verbose
  w x y w1 b' w2 brk_fit :
  fit_data lc hc w = (Ok (x, y), w1) ->
  break_guess b log_break w1 = (Ok b', w2) ->
  Lm_Seg_fit_model x y b' verbose = Ok brk_fit ->
  Lm_Seg.params_size brk_fit = 5%nat ->
  (points_below x (Lm_Seg.brk brk_fit) < min_fits_pts)%Z ->
  fit_pspec (Some b) log_break lc hc min_fits_pts false verbose w =
  fit_unbroken x y None (break_rejected x y b' w2).
Proof.
  intros Hd Hg Hfit Hsize Hlt. unfold fit_pspec. run_ok Hd.
  pose proof (fit_data_lengths _ _ _ Hd) as Hlen.
  apply Z.ltb_lt in Hlt.
  pose proof (@fit_break_found b log_break min_fits_pts verbose x y
                _ _ _ _ Hg Hfit Hsize Hlen) as Hb.
  rewrite Hlt in Hb.
  unfold bind at 1. unfold ret at 1. simpl fst. simpl snd.
  run_ok Hb. reflexivity.
Qed.

Lemma fit_pspec_after_acceptance b log_break lc hc min_fits_pts verbose
  w x y w1 b' w2 brk_fit :
  fit_data lc hc w = (Ok (x, y), w1) ->
  break_guess b log_break w1 = (Ok b', w2) ->
  Lm_Seg_fit_model x y b' verbose = Ok brk_fit ->
  Lm_Seg.params_size brk_fit = 5%nat ->
  (min_fits_pts <= points_below x (Lm_Seg.brk brk_fit))%Z ->
  fit_pspec (Some b) log_break lc hc min_fits_pts false verbose w =
  (Ok tt, break_accepted x y b' brk_fit w2).
Proof.
  intros Hd Hg Hfit Hsize Hge. unfold fit_pspec. run_ok Hd.
  pose proof (fit_data_lengths _ _ _ Hd) as Hlen.
  apply Z.ltb_ge in Hge.
  pose proof (@fit_break_found b log_break min_fits_pts verbose x y
                _ _ _ _ Hg Hfit Hsize Hlen) as Hb.
  rewrite Hge in Hb.
  unfold bind at 1. unfold ret at 1. simpl fst. simpl snd.
  run_ok Hb. reflexivity.
Qed.

(** The unbroken fit by ordinary least squares, when statsmodels returns a
    line. *)
Definition refitted (x y : list R) (f : fitres) (s e : R) (w : world)
  : world :=
  update (set_slope_err (Float e))
    (update (set_slope (Float s))
       (update (set_fit f) (called (Call_OLS y x) w))).

Lemma fit_unbroken_OLS x y f s e w :
  OLS_fit y x = Ok f ->
  nth_error (params f) 1 = Some s ->
  nth_error (bse f) 1 = Some e ->
  fit_unbroken x y None w = (Ok tt, refitted x y f s e w).
Proof.
  intros Hf Hs He. unfold fit_unbroken.
  assert (Hcall : call_OLS y x w = (Ok f, called (Call_OLS y x) w)).
  { unfold call_OLS, bind, record_call, lift. now rewrite Hf. }
  run_ok Hcall. unfold bind, setattr, item. rewrite Hs, He. reflexivity.
Qed.

Lemma keeps_break_guess (B : Type) (f : world -> B) b log_break :
  keeps f (break_guess b log_break).
Proof.
  unfold break_guess.
  repeat first [ apply keeps__to_pixel_freq | keeps_step ].
Qed.

Lemma keeps_fit_unbroken_self (B : Type) (f : PSpec -> B) x y y_err :
  (forall v s, f (set_fit v s) = f s) ->
  (forall v s, f (set_slope v s) = f s) ->
  (forall v s, f (set_slope_err v s) = f s) ->
  keeps (fun w => f (self w)) (fit_unbroken x y y_err).
Proof.
  intros H1 H2 H3. unfold fit_unbroken, call_WLS, call_OLS.
  repeat first
    [ apply keeps_setattr_self; intros; solve [ apply H1 | apply H2 | apply H3 ]
    | keeps_step ].
Qed.

Lemma keeps_fit_unbroken_warned x y y_err :
  keeps warned (fit_unbroken x y y_err).
Proof. unfold fit_unbroken, call_WLS, call_OLS. keeps_auto. Qed.

(** The unbroken fit calls statsmodels once, whether it then returns or
    raises. *)
Lemma fit_unbroken_fitted x y y_err w :
  fitted (snd (fit_unbroken x y y_err w)) =
  fitted w ++ [match y_err with
               | Some e => Call_WLS y x (map (fun v => 1 / v ^ 2) e)
               | None => Call_OLS y x
               end].
Proof.
  unfold fit_unbroken.
  assert (K : forall f, keeps fitted
     (setattr (set_fit f) ;;
      s <- item (params f) 1 ;;
      setattr (set_slope (Float s)) ;;
      e <- item (bse f) 1 ;;
      setattr (set_slope_err (Float e)))) by (intros; keeps_auto).
  unfold bind at 1.
  destruct y_err as [e |].
  - unfold call_WLS, bind at 1, record_call, lift.
    destruct (WLS_fit _ _ _) as [f | ex]; [ | reflexivity ].
    apply (K f).
  - unfold call_OLS, bind at 1, record_call, lift.
    destruct (OLS_fit _ _) as [f | ex]; [ | reflexivity ].
    apply (K f).
Qed.

(** [points_below] counts the entries of [x] strictly below the break. *)
Lemma points_below_count x b :
  points_below x b =
  Z.of_nat (List.length (filter (fun v => Np.ltb v b) x)).
Proof.
  unfold points_below, Np.sum, Np.less. f_equal.
  induction x as [| v x IH]; simpl; [ reflexivity | ].
  destruct (Np.ltb v b); simpl; now rewrite IH.
Qed.

(** C4.  When [Lm_Seg] returns a full 5-parameter model, [fit_pspec] keeps
    the break exactly when at least [min_fits_pts] of the fitted points lie
    strictly below it.  Kept, the break and the two slopes are stored and
    nothing is fitted again.  Otherwise the break is [None], the warning is
    recorded, and the call ends as the ordinary least-squares fit on the
    whole clipped [x] and [y] does: it returns as soon as statsmodels
    returns a line. *)
Theorem fit_pspec_break_kept_iff_enough_points_below
  b log_break lc hc min_fits_pts verbose w x y w1 b' w2 brk_fit :
  fit_data lc hc w = (Ok (x, y), w1) ->
  break_guess b log_break w1 = (Ok b', w2) ->
  Lm_Seg_fit_model x y b' verbose = Ok brk_fit ->
  Lm_Seg.params_size brk_fit = 5%nat ->
  let n := points_below x (Lm_Seg.brk brk_fit) in
  let r := fit_pspec (Some b) log_break lc hc min_fits_pts false verbose w in
  ((min_fits_pts <= n)%Z <-> exists q, _brk (self (snd r)) = Some (Some q))
  /\ ((min_fits_pts <= n)%Z ->
        r = (Ok tt, break_accepted x y b' brk_fit w2)
        /\ warned (snd r) = warned w2
        /\ fitted (snd r) = fitted w2 ++ [Call_Lm_Seg x y b'])
  /\ ((n < min_fits_pts)%Z ->
        _brk (self (snd r)) = Some None
        /\ warned (snd r) = warned w2 ++ [Msg.not_enough_points]
        /\ fitted (snd r) = fitted w2 ++ [Call_Lm_Seg x y b'; Call_OLS y x]
        /\ r = fit_unbroken x y None (break_rejected x y b' w2)
        /\ forall f s e,
             OLS_fit y x = Ok f ->
             nth_error (params f) 1 = Some s ->
             nth_error (bse f) 1 = Some e ->
             r = (Ok tt, refitted x y f s e (break_rejected x y b' w2))).
Proof.
  intros Hd Hg Hfit Hsize n r.
  assert (Hacc : (min_fits_pts <= n)%Z ->
                 r = (Ok tt, break_accepted x y b' brk_fit w2)).
  { intros H. now apply fit_pspec_after_acceptance with (w1 := w1). }
  assert (Hrej : (n < min_fits_pts)%Z ->
                 r = fit_unbroken x y None (break_rejected x y b' w2)).
  { intros H. now apply fit_pspec_after_rejection with (w1 := w1) (brk_fit := brk_fit). }
  assert (Hnone : (n < min_fits_pts)%Z -> _brk (self (snd r)) = Some None).
  { intros H. rewrite (Hrej H).
    now rewrite (@keeps_fit_unbroken_self _ _brk x y None). }
  split; [ | split ].
  - split.
    + intros H. rewrite (Hacc H). simpl. eauto.
    + intros [q Hq]. destruct (Z.le_gt_cases min_fits_pts n) as [| H]; auto.
      rewrite (Hnone H) in Hq. discriminate.
  - intros H. rewrite (Hacc H). simpl. auto.
  - intros H. split; [ auto | ]. rewrite (Hrej H).
    split; [ now rewrite keeps_fit_unbroken_warned | ].
    split; [ rewrite fit_unbroken_fitted; simpl; now rewrite <- app_assoc | ].
    split; [ reflexivity | ].
    intros f s e Hf Hs He. now apply fit_unbroken_OLS.
Qed.

(** C1, as the code has it.  If the two-segment fit succeeds but fewer than
    [min_fits_pts] samples lie strictly below the fitted break, [fit_pspec]
    sets the break to [None], records the warning and fits the single power
    law on the whole clipped [x] and [y]: one call of [Lm_Seg], then one of
    OLS, and the call returns with the slope of that line whenever
    statsmodels returns one. *)
Theorem fit_pspec_too_few_points_below_break_falls_back
  b log_break lc hc min_fits_pts verbose w x y w1 b' w2 brk_fit :
  fit_data lc hc w = (Ok (x, y), w1) ->
  break_guess b log_break w1 = (Ok b', w2) ->
  Lm_Seg_fit_model x y b' verbose = Ok brk_fit ->
  Lm_Seg.params_size brk_fit = 5%nat ->
  (points_below x (Lm_Seg.brk brk_fit) < min_fits_pts)%Z ->
  let r := fit_pspec (Some b) log_break lc hc min_fits_pts false verbose w in
  _brk (self (snd r)) = Some None
  /\ warned (snd r) = warned w ++ [Msg.not_enough_points]
  /\ fitted (snd r) = fitted w ++ [Call_Lm_Seg x y b'; Call_OLS y x]
  /\ forall f s e,
       OLS_fit y x = Ok f ->
       nth_error (params f) 1 = Some s ->
       nth_error (bse f) 1 = Some e ->
       fst r = Ok tt
       /\ fit (self (snd r)) = Some f
       /\ _slope (self (snd r)) = Some (Float s)
       /\ _slope_err (self (snd r)) = Some (Float e).
Proof.
  intros Hd Hg Hfit Hsize Hlt r.
  assert (Hr : r = fit_unbroken x y None (break_rejected x y b' w2)).
  { now apply fit_pspec_after_rejection with (w1 := w1) (brk_fit := brk_fit). }
  assert (Hw : warned w2 = warned w).
  { pose proof (keeps_break_guess warned b log_break w1) as H2.
    pose proof (keeps_fit_data_warned lc hc w) as H1.
    rewrite Hg in H2. rewrite Hd in H1. simpl in *. congruence. }
  assert (Hc : fitted w2 = fitted w).
  { pose proof (keeps_break_guess fitted b log_break w1) as H2.
    pose proof (keeps_fit_data_fitted lc hc w) as H1.
    rewrite Hg in H2. rewrite Hd in H1. simpl in *. congruence. }
  rewrite Hr. split; [ | split; [ | split ] ].
  - now rewrite (@keeps_fit_unbroken_self _ _brk x y None).
  - rewrite keeps_fit_unbroken_warned. simpl. now rewrite Hw.
  - rewrite fit_unbroken_fitted. simpl. now rewrite <- app_assoc, Hc.
  - intros f s e Hf Hs He.
    rewrite (@fit_unbroken_OLS x y f s e (break_rejected x y b' w2) Hf Hs He).
    simpl. auto.
Qed.

(** ** The weighted fit *)

(** What [fit_pspec] hands to [sm.WLS] as weights: one over the squared
    base-10 logarithm of each clipped standard deviation. *)
Definition wls_weights (stddev : list R) : list R :=
  map (fun v => 1 / v ^ 2) (map Np.log10 stddev).

Lemma fit_pspec_weighted log_break lc hc min_fits_pts verbose
  w x y w1 sd f lo hi :
  fit_data lc hc w = (Ok (x, y), w1) ->
  _stddev_flag (self w1) = Some true ->
  _ps1D_stddev (self w1) = Some sd ->
  _freqs (self w1) = Some f ->
  low_cut (self w1) = Some lo ->
  high_cut (self w1) = Some hi ->
  List.length sd = List.length f ->
  let sel := Np.compress sd (map (fun v => clip_func v lo hi) f) in
  let r := fit_pspec None log_break lc hc min_fits_pts true verbose w in
  r = fit_unbroken x y (Some (map Np.log10 sel))
        (update (set_brk_err None) (update (set_brk None) w1))
  /\ fitted (snd r) = fitted w ++ [Call_WLS y x (wls_weights sel)].
Proof.
  intros Hd Hflag Hsd Hf Hlo Hhi Hlen sel r.
  assert (Hacc : ps1D_stddev w1 = (Ok sd, w1)).
  { unfold ps1D_stddev. run_ok (getattr_Some "_stddev_flag" _ _ Hflag).
    unfold bind at 1. simpl. now apply getattr_Some. }
  assert (He : weighted_y_err None w1 = (Ok (map Np.log10 sel), w1)).
  { unfold weighted_y_err. erewrite bind_Ok by reflexivity.
    run_ok (getattr_Some "_stddev_flag" _ _ Hflag).
    erewrite bind_Ok by reflexivity.
    erewrite bind_Ok by (eapply clipped_run; eauto).
    reflexivity. }
  assert (Hr : r = fit_unbroken x y (Some (map Np.log10 sel))
                     (update (set_brk_err None) (update (set_brk None) w1))).
  { unfold r, fit_pspec. run_ok Hd.
    unfold bind at 1. unfold bind at 1. rewrite He. reflexivity. }
  split; [ exact Hr | ].
  rewrite Hr, fit_unbroken_fitted.
  change (fitted (update (set_brk_err None) (update (set_brk None) w1)))
    with (fitted w1).
  pose proof (keeps_fit_data_fitted lc hc w) as H1. rewrite Hd in H1.
  change (fitted w1 = fitted w) in H1. now rewrite H1.
Qed.

(** ** The 2D fit: the mask *)

(** The attributes [fit_2Dpspec] stores after a fit. *)
Definition fit2D_results (s : PSpec) :=
  (fit2D s, _fitter s, _slope2D s, _slope2D_err s,
   _theta2D s, _theta2D_err s, _ellip2D s, _ellip2D_err s).

Lemma any_false_iff (m : grid bool) :
  Grid.any m = false <->
  (forall row b, In row m -> In b row -> b = false).
Proof.
  unfold Grid.any. split.
  - intros H row b Hrow Hb.
    destruct b; [ | reflexivity ].
    assert (E : existsb Np.any m = true); [ | now rewrite E in H ].
    apply existsb_exists. exists row. split; [ exact Hrow | ].
    apply existsb_exists. now exists true.
  - intros H. destruct (existsb Np.any m) eqn:E; [ | reflexivity ].
    apply existsb_exists in E as (row & Hrow & E).
    apply existsb_exists in E as (b & Hb & E). subst b.
    now apply (H row true).
Qed.

Lemma unchanged_build_mask use_azimmask :
  keeps (fun w => w) (build_mask use_azimmask).
Proof.
  unfold build_mask, ps2D, freqs_dist_of, logical_and.
  repeat first
    [ keeps_step
    | match goal with
      | |- keeps _ (let (_, _) := ?p in _) => destruct p
      | |- keeps _ (if ?c then _ else _) => destruct c
      end ].
Qed.

Lemma blind_fit2D_results : blind_to_cuts fit2D_results.
Proof. intros v s. split; reflexivity. Qed.

(** C5.  Whatever the cut-offs and with or without the azimuthal mask, once
    [fit_2Dpspec] has built a mask in which no pixel is selected it raises
    the [ValueError] of the empty selection.  The nonlinear fitter has not
    been called and none of the attributes of the 2D fit has been
    assigned. *)
Theorem fit_2Dpspec_empty_mask_raises
  fit_method p0 lc hc bootstrap niters use_azimmask radial_weighting
  fix_ellip_params w w1 mask yy_freq xx_freq w2 :
  set_cuts lc hc w = (Ok tt, w1) ->
  build_mask use_azimmask w1 = (Ok (mask, yy_freq, xx_freq), w2) ->
  (forall row b, In row mask -> In b row -> b = false) ->
  let r := fit_2Dpspec fit_method p0 lc hc bootstrap niters use_azimmask
             radial_weighting fix_ellip_params w in
  r = (Raise (ValueError Msg.empty_mask), w1)
  /\ fitted (snd r) = fitted w
  /\ fit2D_results (self (snd r)) = fit2D_results (self w).
Proof.
  intros Hc Hm Hempty r.
  assert (w2 = w1).
  { pose proof (unchanged_build_mask use_azimmask w1) as H.
    now rewrite Hm in H. }
  subst w2. apply any_false_iff in Hempty.
  assert (Hr : r = (Raise (ValueError Msg.empty_mask), w1)).
  { unfold r, fit_2Dpspec. run_ok Hc. run_ok Hm.
    apply bind_Raise. unfold check_mask. now rewrite Hempty. }
  rewrite Hr. split; [ reflexivity | ].
  pose proof (keeps_set_cuts_fitted lc hc w) as Hf.
  pose proof (keeps_set_cuts_self lc hc blind_fit2D_results w) as Hs.
  rewrite Hc in Hf, Hs. split; [ exact Hf | exact Hs ].
Qed.

(** ** The 2D fit: what a call that returns has done *)

(** Python's remainder by a positive float lies in [[0, m)] and differs
    from its argument by a whole multiple of [m]. *)
Lemma mod_spec x m :
  0 < m ->
  0 <= Np.mod_ x m < m /\ exists k : Z, x = Np.mod_ x m + IZR k * m.
Proof.
  intros Hm. unfold Np.mod_.
  destruct (base_Int_part (x / m)) as [Hlo Hhi].
  set (k := IZR (Int_part (x / m))) in *.
  assert (Hx : x = x / m * m) by (field; lra).
  split.
  - split.
    + assert (k * m <= x / m * m) by (apply Rmult_le_compat_r; lra). lra.
    + assert (x / m * m < (k + 1) * m) by (apply Rmult_lt_compat_r; lra).
      lra.
  - exists (Int_part (x / m)). fold k. lra.
Qed.

(** The state once [store_fit2D] has assigned every attribute, before the
    last test. *)
Definition stored2D (r : Ellip.t) (p1 p2 p3 e1 e2 e3 : R) (w : world)
  : world :=
  update (set_ellip2D_err (inverse_interval_transform_stderr e1 p1 0 1))
    (update (set_ellip2D (inverse_interval_transform p1 0 1))
       (update (set_theta2D_err e2)
          (update (set_theta2D (Np.mod_ p2 Np.pi))
             (update (set_slope2D_err e3)
                (update (set_slope2D p3)
                   (update (set_fitter (Ellip.fitter r))
                      (update (set_fit2D (Ellip.fit_2Dmodel r)) w))))))).

Lemma setattr_eq set w : setattr set w = (Ok tt, update set w).
Proof. reflexivity. Qed.

Lemma store_fit2D_inv r w w' :
  store_fit2D r w = (Ok tt, w') ->
  exists p1 p2 p3 e1 e2 e3,
    nth_error (Ellip.params r) 1 = Some p1 /\
    nth_error (Ellip.params r) 2 = Some p2 /\
    nth_error (Ellip.params r) 3 = Some p3 /\
    nth_error (Ellip.stderrs r) 1 = Some e1 /\
    nth_error (Ellip.stderrs r) 2 = Some e2 /\
    nth_error (Ellip.stderrs r) 3 = Some e3 /\
    w' = (if Np.gtb (inverse_interval_transform p1 0 1) 0.97
          then warning Msg.ellip_close_to_1
                 (stored2D r p1 p2 p3 e1 e2 e3 w)
          else stored2D r p1 p2 p3 e1 e2 e3 w).
Proof.
  unfold store_fit2D. intros H.
  run_ok (setattr_eq (set_fit2D (Ellip.fit_2Dmodel r)) w) in H.
  match type of H with context [bind (setattr ?s) _ ?w0] =>
    run_ok (setattr_eq s w0) in H end.
  apply bind_inv in H as (p3 & ? & Hp3 & H). apply item_inv in Hp3 as [Hp3 ->].
  match type of H with context [bind (setattr ?s) _ ?w0] =>
    run_ok (setattr_eq s w0) in H end.
  apply bind_inv in H as (e3 & ? & He3 & H). apply item_inv in He3 as [He3 ->].
  match type of H with context [bind (setattr ?s) _ ?w0] =>
    run_ok (setattr_eq s w0) in H end.
  apply bind_inv in H as (p2 & ? & Hp2 & H). apply item_inv in Hp2 as [Hp2 ->].
  match type of H with context [bind (setattr ?s) _ ?w0] =>
    run_ok (setattr_eq s w0) in H end.
  apply bind_inv in H as (e2 & ? & He2 & H). apply item_inv in He2 as [He2 ->].
  match type of H with context [bind (setattr ?s) _ ?w0] =>
    run_ok (setattr_eq s w0) in H end.
  apply bind_inv in H as (p1 & ? & Hp1 & H). apply item_inv in Hp1 as [Hp1 ->].
  match type of H with context [bind (setattr ?s) _ ?w0] =>
    run_ok (setattr_eq s w0) in H end.
  apply bind_inv in H as (e1 & ? & He1 & H). apply item_inv in He1 as [He1 ->].
  apply bind_inv in H as (p1' & ? & Hp1' & H).
  apply item_inv in Hp1' as [Hp1' ->].
  assert (p1' = p1) by congruence. subst p1'.
  match type of H with context [bind (setattr ?s) _ ?w0] =>
    run_ok (setattr_eq s w0) in H end.
  apply bind_inv in H as (e & ? & He & H). apply getattr_inv in He as [He ->].
  change (Some (inverse_interval_transform p1 0 1) = Some e) in He.
  inversion He; subst e.
  exists p1, p2, p3, e1, e2, e3. repeat (split; [ assumption | ]).
  unfold stored2D.
  destruct (Np.gtb _ _); inversion H; reflexivity.
Qed.

Lemma unchanged_default_p0 : keeps (fun w => w) default_p0.
Proof. unfold default_p0, slope, ps2D. keeps_auto. Qed.

Lemma ps2D_inv w a w' :
  ps2D w = (Ok a, w') ->
  exists g, _ps2D (self w) = Some g /\ a = rev g /\ w' = w.
Proof.
  unfold ps2D. intros H. apply bind_inv in H as (g & w1 & Hg & H).
  apply getattr_inv in Hg as [Hg ->]. inversion H; subst. exists g. auto.
Qed.

Lemma index2_inv a m w r w' :
  index2 a m w = (Ok r, w') -> r = Grid.select a m /\ w' = w.
Proof.
  unfold index2. destruct (Grid.same_shape a m); intros H; inversion H; auto.
Qed.

Lemma check_mask_inv mask w w' :
  check_mask mask w = (Ok tt, w') -> Grid.any mask = true /\ w' = w.
Proof.
  unfold check_mask. destruct (Grid.any mask); intros H; inversion H; auto.
Qed.

(** A call of [fit_2Dpspec] that returns went through every step. *)
Lemma fit_2Dpspec_inv fit_method p0 lc hc bootstrap niters use_azimmask
  radial_weighting fix_ellip_params w w' :
  fit_2Dpspec fit_method p0 lc hc bootstrap niters use_azimmask
    radial_weighting fix_ellip_params w = (Ok tt, w') ->
  exists w1 g mask yy_freq xx_freq p0' r,
    set_cuts lc hc w = (Ok tt, w1) /\
    _ps2D (self w1) = Some g /\
    build_mask use_azimmask w1 = (Ok (mask, yy_freq, xx_freq), w1) /\
    Grid.any mask = true /\
    (if Nat.eqb (List.length p0) 0 then default_p0 else ret p0) w1
      = (Ok p0', w1) /\
    let z := map Np.log10 (Grid.select (rev g) mask) in
    let xx := Grid.select xx_freq mask in
    let yy := Grid.select yy_freq mask in
    fit_elliptical_powerlaw z xx yy p0'
      {| Ellip.fit_method := fit_method; Ellip.bootstrap := bootstrap;
         Ellip.niters := niters;
         Ellip.radial_weighting := radial_weighting;
         Ellip.fix_ellip_params := fix_ellip_params |} = Ok r /\
    store_fit2D r (called (Call_fit_elliptical_powerlaw z xx yy p0') w1)
      = (Ok tt, w').
Proof.
  unfold fit_2Dpspec. intros H.
  apply bind_inv in H as ([] & w1 & Hc & H).
  apply bind_inv in H as ([[mask yy_freq] xx_freq] & w2 & Hm & H).
  assert (w2 = w1).
  { pose proof (unchanged_build_mask use_azimmask w1) as K.
    now rewrite Hm in K. }
  subst w2.
  apply bind_inv in H as ([] & ? & Hk & H).
  apply check_mask_inv in Hk as [Hany ->].
  apply bind_inv in H as (p0' & w2 & Hp & H).
  assert (w2 = w1).
  { destruct (Nat.eqb _ _).
    - pose proof (unchanged_default_p0 w1) as K. now rewrite Hp in K.
    - now inversion Hp. }
  subst w2.
  apply bind_inv in H as (a & ? & Ha & H).
  apply ps2D_inv in Ha as (g & Hg & -> & ->).
  apply bind_inv in H as (z & ? & Hz & H). apply index2_inv in Hz as [-> ->].
  apply bind_inv in H as (xx & ? & Hx & H). apply index2_inv in Hx as [-> ->].
  apply bind_inv in H as (yy & ? & Hy & H). apply index2_inv in Hy as [-> ->].
  apply bind_inv in H as (r & w3 & Hr & H).
  unfold call_fit_elliptical_powerlaw, bind, record_call, lift in Hr.
  destruct (fit_elliptical_powerlaw _ _ _ _ _) as [r' | e] eqn:E;
    inversion Hr; subst.
  exists w1, g, mask, yy_freq, xx_freq, p0', r. auto 10.
Qed.

Lemma keeps_store_fit2D_fitted r : keeps fitted (store_fit2D r).
Proof. unfold store_fit2D, ellip2D. keeps_auto. Qed.



(** C7.  After a call of [fit_2Dpspec] that returns, the warning about an
    ellipticity close to 1 has been issued exactly when the transformed
    ellipticity is above 0.97 (so at 0.98 and not at 0.5); no other warning
    is issued, and with or without it the fitted parameters are stored. *)
Theorem fit_2Dpspec_warns_iff_ellip2D_above_97
  fit_method p0 lc hc bootstrap niters use_azimmask radial_weighting
  fix_ellip_params w w' :
  fit_2Dpspec fit_method p0 lc hc bootstrap niters use_azimmask
    radial_weighting fix_ellip_params w = (Ok tt, w') ->
  exists z xx yy p0' r p1 p2 p3,
    fit_elliptical_powerlaw z xx yy p0'
      {| Ellip.fit_method := fit_method; Ellip.bootstrap := bootstrap;
         Ellip.niters := niters;
         Ellip.radial_weighting := radial_weighting;
         Ellip.fix_ellip_params := fix_ellip_params |} = Ok r /\
    nth_error (Ellip.params r) 1 = Some p1 /\
    nth_error (Ellip.params r) 2 = Some p2 /\
    nth_error (Ellip.params r) 3 = Some p3 /\
    let e := inverse_interval_transform p1 0 1 in
    (0.97 < e -> warned w' = warned w ++ [Msg.ellip_close_to_1]) /\
    (e <= 0.97 -> warned w' = warned w) /\
    (e = 0.98 -> warned w' = warned w ++ [Msg.ellip_close_to_1]) /\
    (e = 0.5 -> warned w' = warned w) /\
    _ellip2D (self w') = Some e /\
    _theta2D (self w') = Some (Np.mod_ p2 Np.pi) /\
    _slope2D (self w') = Some p3 /\
    fit2D (self w') = Some (Ellip.fit_2Dmodel r).
Proof.
  intros H.
  apply fit_2Dpspec_inv in H
    as (w1 & g & mask & yy_freq & xx_freq & p0' & r & Hc & _ & _ & _ & _ & H).
  cbv zeta in H. destruct H as [Hfit Hst].
  apply store_fit2D_inv in Hst
    as (p1 & p2 & p3 & e1 & e2 & e3 & Hp1 & Hp2 & Hp3 & _ & _ & _ & ->).
  assert (Hw : warned w1 = warned w).
  { pose proof (keeps_set_cuts_warned lc hc w) as K. now rewrite Hc in K. }
  do 5 eexists. exists p1, p2, p3.
  split; [ exact Hfit | ]. do 3 (split; [ assumption | ]).
  intros e.
  match goal with
  | |- context [stored2D _ _ _ _ _ _ _ ?W0] => set (W := W0)
  end.
  assert (HW : warned W = warned w) by exact Hw.
  clearbody W.
  assert (Hyes : 0.97 < e ->
            warned (if Np.gtb e 0.97
                    then warning Msg.ellip_close_to_1
                           (stored2D r p1 p2 p3 e1 e2 e3 W)
                    else stored2D r p1 p2 p3 e1 e2 e3 W)
            = warned w ++ [Msg.ellip_close_to_1]).
  { intros He. unfold Np.gtb, Np.ltb.
    destruct (Rlt_dec 0.97 e); [ | contradiction ].
    change (warned W ++ [Msg.ellip_close_to_1]
            = warned w ++ [Msg.ellip_close_to_1]). now rewrite HW. }
  assert (Hno : e <= 0.97 ->
            warned (if Np.gtb e 0.97
                    then warning Msg.ellip_close_to_1
                           (stored2D r p1 p2 p3 e1 e2 e3 W)
                    else stored2D r p1 p2 p3 e1 e2 e3 W)
            = warned w).
  { intros He. unfold Np.gtb, Np.ltb.
    destruct (Rlt_dec 0.97 e); [ lra | exact HW ]. }
  split; [ exact Hyes | ]. split; [ exact Hno | ].
  split; [ intros He; apply Hyes; lra | ].
  split; [ intros He; apply Hno; lra | ].
  fold e. destruct (Np.gtb e 0.97); repeat split; reflexivity.
Qed.

(** ** The stored 2D spectrum and its reversed view *)


Lemma blind__ps2D : blind_to_cuts _ps2D.
Proof. intros v s. split; reflexivity. Qed.



(** ** The standard deviation of the radial profile *)

(** Without [return_stddev], [compute_radial_pspec] leaves [_ps1D_stddev]
    as it finds it, whether it returns or raises. *)
Lemma keeps_compute_radial_pspec__ps1D_stddev logspacing max_bin kw :
  keeps (fun w => _ps1D_stddev (self w))
    (compute_radial_pspec false logspacing max_bin kw).
Proof. unfold compute_radial_pspec, ps2D, freqs. keeps_auto. Qed.

(** So do the two fits. *)
Lemma keeps_fit_pspec__ps1D_stddev brk_arg log_break lc hc min_fits_pts
  weighted_fit verbose :
  keeps (fun w => _ps1D_stddev (self w))
    (fit_pspec brk_arg log_break lc hc min_fits_pts weighted_fit verbose).
Proof.
  unfold fit_pspec.
  apply keeps_bind.
  { apply keeps_fit_data_self. intros v s. split; reflexivity. }
  intros. apply keeps_bind.
  { destruct weighted_fit; [ | apply keeps_ret ].
    apply keeps_bind; [ | intros; apply keeps_ret ].
    unfold weighted_y_err.
    apply keeps_bind; [ keeps_auto | intros ].
    apply keeps_bind; [ keeps_auto | intros ].
    apply keeps_bind; [ keeps_auto | intros ].
    apply keeps_bind; [ | intros; apply keeps_ret ].
    apply keeps_clipped. unfold ps1D_stddev. keeps_auto. }
  intros. apply keeps_bind.
  { destruct brk_arg; [ | keeps_auto ].
    unfold fit_break, call_Lm_Seg, brk.
    apply keeps_bind; [ apply keeps_break_guess | intros ].
    keeps_auto. }
  intros xy'. unfold brk. apply keeps_bind; [ keeps_auto | ].
  intros [q |]; [ apply keeps_ret | ].
  apply keeps_fit_unbroken_self; reflexivity.
Qed.

Lemma keeps_fit_2Dpspec__ps1D_stddev fit_method p0 lc hc bootstrap niters
  use_azimmask radial_weighting fix_ellip_params :
  keeps (fun w => _ps1D_stddev (self w))
    (fit_2Dpspec fit_method p0 lc hc bootstrap niters use_azimmask
       radial_weighting fix_ellip_params).
Proof.
  unfold fit_2Dpspec.
  apply keeps_bind.
  { apply keeps_set_cuts_self. intros v s. split; reflexivity. }
  intros. apply keeps_bind; [ intros w; now rewrite unchanged_build_mask | ].
  intros [[mask yy_freq] xx_freq].
  apply keeps_bind; [ unfold check_mask; keeps_auto | intros ].
  apply keeps_bind.
  { destruct (Nat.eqb _ _); [ | apply keeps_ret ].
    intros w. now rewrite unchanged_default_p0. }
  intros. unfold ps2D, call_fit_elliptical_powerlaw, store_fit2D, ellip2D.
  keeps_auto.
Qed.

(** A call with [return_stddev] that returns has stored the standard
    deviations [psds.pspec] computed. *)
Lemma compute_radial_pspec_stores_stddev logspacing max_bin kw w w' :
  compute_radial_pspec true logspacing max_bin kw w = (Ok tt, w') ->
  exists g out sd,
    _ps2D (self w) = Some g /\
    pspec (rev g) true logspacing max_bin kw = Ok out /\
    out_stddev out = Some sd /\
    _ps1D_stddev (self w') = Some sd.
Proof.
  unfold compute_radial_pspec. intros H.
  apply bind_inv in H as (a & w1 & Ha & H).
  apply ps2D_inv in Ha as (g & Hg & -> & ->).
  apply bind_inv in H as (out & w1 & Ho & H).
  unfold lift in Ho. inversion Ho; subst w1. clear Ho.
  run_ok (setattr_eq (set_stddev_flag true) w) in H.
  match type of H with context [bind (setattr ?s) _ ?w0] =>
    run_ok (setattr_eq s w0) in H end.
  apply bind_inv in H as ([] & w2 & Hm & H).
  apply bind_inv in H as (f & w3 & Hf & H).
  apply getattr_inv in Hf as [_ ->]. inversion H; subst w'. clear H.
  exists g, out.
  destruct (truthy (kwargs_get kw "theta_0")),
    (out_stddev out) as [sd |], (out_azim_mask out) as [am |];
    try discriminate; exists sd; (repeat split; try assumption);
    inversion Hm; reflexivity.
Qed.

(** C9.  After [compute_radial_pspec] has run without [return_stddev], the
    property [ps1D_stddev] records its warning and then reads the stored
    attribute, which that run has not touched: the read raises
    [AttributeError] if the attribute does not exist, and otherwise yields
    the value left by an earlier computation, in particular the one stored
    by an earlier run with [return_stddev]. *)
Theorem ps1D_stddev_after_run_without_stddev
  logspacing max_bin kw w w' :
  compute_radial_pspec false logspacing max_bin kw w = (Ok tt, w') ->
  _ps1D_stddev (self w') = _ps1D_stddev (self w)
  /\ ps1D_stddev w' =
     (match _ps1D_stddev (self w) with
      | Some sd => Ok sd
      | None => Raise (AttributeError "_ps1D_stddev")
      end, warning Msg.stddev_not_enabled w')
  /\ (_ps1D_stddev (self w) = None ->
      ps1D_stddev w' = (Raise (AttributeError "_ps1D_stddev"),
                        warning Msg.stddev_not_enabled w'))
  /\ (forall logspacing0 max_bin0 kw0 w0,
        compute_radial_pspec true logspacing0 max_bin0 kw0 w0 = (Ok tt, w) ->
        exists g out sd,
          _ps2D (self w0) = Some g /\
          pspec (rev g) true logspacing0 max_bin0 kw0 = Ok out /\
          out_stddev out = Some sd /\
          ps1D_stddev w' = (Ok sd, warning Msg.stddev_not_enabled w')).
Proof.
  intros H.
  assert (Hkeep : _ps1D_stddev (self w') = _ps1D_stddev (self w)).
  { pose proof (keeps_compute_radial_pspec__ps1D_stddev
                  logspacing max_bin kw w) as K. now rewrite H in K. }
  assert (Hflag : _stddev_flag (self w') = Some false).
  { unfold compute_radial_pspec in H.
    apply bind_inv in H as (a & w1 & _ & H).
    apply bind_inv in H as (out & w2 & _ & H).
    run_ok (setattr_eq (set_stddev_flag false) w2) in H.
    match type of H with
    | ?m ?w0 = _ =>
        assert (K : keeps (fun w => _stddev_flag (self w)) m)
          by (unfold freqs; keeps_auto);
        specialize (K w0); rewrite H in K; exact K
    end. }
  assert (Hacc : ps1D_stddev w' =
     (match _ps1D_stddev (self w) with
      | Some sd => Ok sd
      | None => Raise (AttributeError "_ps1D_stddev")
      end, warning Msg.stddev_not_enabled w')).
  { unfold ps1D_stddev. run_ok (getattr_Some "_stddev_flag" _ _ Hflag).
    unfold bind, warn, getattr. cbn [negb].
    change (_ps1D_stddev (self (warning Msg.stddev_not_enabled w')))
      with (_ps1D_stddev (self w')).
    rewrite Hkeep. now destruct (_ps1D_stddev (self w)). }
  split; [ exact Hkeep | ]. split; [ exact Hacc | ]. split.
  - intros Hnone. rewrite Hacc, Hnone. reflexivity.
  - intros logspacing0 max_bin0 kw0 w0 H0.
    apply compute_radial_pspec_stores_stddev in H0
      as (g & out & sd & Hg & Hout & Hsd & Hst).
    exists g, out, sd. repeat (split; [ assumption | ]).
    rewrite Hacc, Hst. reflexivity.
Qed.

(** ** The spline break search *)

(** [argmin_from] scans [a], the part of [pre ++ a] not yet seen, holding the
    smallest entry of [pre]: it ends on a smallest entry of the whole. *)
Lemma argmin_from_spec (a : list R) :
  forall pre best besti,
    nth_error (pre ++ a) besti = Some best ->
    (forall v, In v pre -> best <= v) ->
    exists m,
      nth_error (pre ++ a) (Np.argmin_from best besti (List.length pre) a)
        = Some m /\
      forall v, In v (pre ++ a) -> m <= v.
Proof.
  induction a as [| u a IH]; intros pre best besti Hbest Hmin; simpl.
  - exists best. split; [ exact Hbest | ].
    intros v Hv. rewrite app_nil_r in Hv. auto.
  - replace (pre ++ u :: a) with ((pre ++ [u]) ++ a) in *
      by (now rewrite <- app_assoc).
    replace (S (List.length pre)) with (List.length (pre ++ [u]))
      by (rewrite length_app; simpl; lia).
    unfold Np.ltb. destruct (Rlt_dec u best) as [Hlt | Hge].
    + apply IH.
      * rewrite <- app_assoc. simpl. now rewrite nth_error_app2, Nat.sub_diag.
      * intros v Hv. apply in_app_or in Hv as [Hv | [<- | []]];
          [ specialize (Hmin v Hv); lra | lra ].
    + apply IH; [ exact Hbest | ].
      intros v Hv. apply in_app_or in Hv as [Hv | [<- | []]];
        [ auto | lra ].
Qed.

Lemma argmin_spec (a : list R) :
  a <> [] ->
  exists i m, Np.argmin a = Some i /\ nth_error a i = Some m /\
              forall v, In v a -> m <= v.
Proof.
  destruct a as [| u a]; [ congruence | intros _ ].
  destruct (@argmin_from_spec a [u] u 0%nat) as (m & Hm & Hmin).
  - reflexivity.
  - intros v [<- | []]. lra.
  - exists (Np.argmin_from u 0 1 a), m. simpl in *. auto.
Qed.

(** C8.  Once scipy has returned the knots of the smoothing spline,
    [break_spline] returns: with more than 3 knots, a knot nearest to
    [-0.8]; with exactly 2 knots, the first of them, which is the first [x]
    whenever the spline starts at the first [x]; and otherwise, that is with
    3 knots, the one between the two ends. *)
Theorem break_spline_picks_the_knot x y kw knots :
  UnivariateSpline_get_knots x y kw = Ok knots ->
  let result := snd (break_spline x y kw) in
  ((3 < List.length knots)%nat ->
     exists k, result = Ok k /\ In k knots /\
       forall k', In k' knots ->
         Rabs (k - (-0.8)) <= Rabs (k' - (-0.8)))
  /\ (List.length knots = 2%nat ->
        exists k0 k1, knots = [k0; k1] /\ result = Ok k0 /\
          (hd_error x = hd_error knots -> hd_error x = Some k0))
  /\ ((2 <= List.length knots)%nat -> ~ (3 < List.length knots)%nat ->
      List.length knots <> 2%nat ->
        exists a k b, knots = [a; k; b] /\ result = Ok k).
Proof.
  intros Hk result. unfold result, break_spline. rewrite Hk.
  split; [ | split ].
  - intros Hlen. apply Nat.ltb_lt in Hlen. rewrite Hlen. simpl snd.
    set (d := map (fun k => Rabs (k - knot_expec)) knots).
    destruct (@argmin_spec d) as (i & m & Hi & Hm & Hmin).
    { unfold d. destruct knots; [ discriminate | discriminate ]. }
    rewrite Hi. unfold d in Hm. rewrite nth_error_map in Hm.
    destruct (nth_error knots i) as [k |] eqn:Ek; [ | discriminate ].
    inversion Hm; subst m. exists k. unfold knot. rewrite Ek.
    split; [ reflexivity | ]. split; [ now apply nth_error_In with i | ].
    intros k' Hk'. apply Hmin. unfold d.
    apply in_map with (f := fun k => Rabs (k - knot_expec)) in Hk'.
    exact Hk'.
  - intros Hlen.
    destruct knots as [| k0 [| k1 [| k2 ks]]]; try discriminate.
    exists k0, k1. simpl. auto.
  - intros H2 H3 Hne.
    destruct knots as [| a [| k [| b [| c ks]]]]; simpl in *;
      try lia; try congruence.
    exists a, k, b. auto.
Qed.

(** * Further properties of the power-spectrum class *)

(** ** Unit conversions *)

Lemma getattr_None (A : Type) name (field : PSpec -> option A) w :
  field (self w) = None ->
  getattr name field w = (Raise (AttributeError name), w).
Proof. intros H. unfold getattr. now rewrite H. Qed.

Lemma hasattr_Some (A : Type) (field : PSpec -> option A) w v :
  field (self w) = Some v -> hasattr field w = (Ok true, w).
Proof. intros H. unfold hasattr. now rewrite H. Qed.

Lemma hasattr_None (A : Type) (field : PSpec -> option A) w :
  field (self w) = None -> hasattr field w = (Ok false, w).
Proof. intros H. unfold hasattr. now rewrite H. Qed.

Lemma _ang_size_run w a :
  _header (self w) = Some a -> _ang_size w = (Ok a, w).
Proof.
  intros H. unfold _ang_size. run_ok (hasattr_Some _ _ H).
  now apply getattr_Some.
Qed.

Lemma distance_run w a d :
  _header (self w) = Some a -> _distance (self w) = Some d ->
  distance w = (Ok d, w).
Proof.
  intros Ha Hd. unfold distance. run_ok (hasattr_Some _ _ Ha). cbn [negb].
  run_ok (hasattr_Some _ _ Hd). cbn [negb].
  now apply getattr_Some.
Qed.

Lemma _physical_size_run w a d :
  _header (self w) = Some a -> _distance (self w) = Some d ->
  _physical_size w = (Ok (a * (PI / 180) * d), w).
Proof.
  intros Ha Hd. unfold _physical_size. run_ok (hasattr_Some _ _ Hd).
  cbn [negb]. run_ok (_ang_size_run _ Ha).
  now run_ok (distance_run _ Ha Hd).
Qed.

Lemma _to_pixel_deg w a v :
  _header (self w) = Some a ->
  _to_pixel (Quantity v deg) w = (Ok (Quantity (v / a) pix), w).
Proof.
  intros Ha. unfold _to_pixel, to_pix_angular.
  run_ok (hasattr_Some _ _ Ha). cbn [negb].
  now run_ok (_ang_size_run _ Ha).
Qed.

Lemma _to_pixel_pc w a d v :
  _header (self w) = Some a -> _distance (self w) = Some d ->
  _to_pixel (Quantity v pc) w
  = (Ok (Quantity (v / (a * (PI / 180) * d)) pix), w).
Proof.
  intros Ha Hd. unfold _to_pixel, to_pix_physical.
  run_ok (hasattr_Some _ _ Hd). cbn [negb].
  run_ok (distance_run _ Ha Hd).
  now run_ok (_physical_size_run _ Ha Hd).
Qed.

Lemma _to_angular_pix w a v :
  _header (self w) = Some a ->
  _to_angular (Quantity v pix) deg w = (Ok (Quantity (v * a) deg), w).
Proof.
  intros Ha. unfold _to_angular.
  run_ok (hasattr_Some _ _ Ha). cbn [negb].
  now run_ok (_ang_size_run _ Ha).
Qed.

Lemma _to_physical_pix w a d v :
  _header (self w) = Some a -> _distance (self w) = Some d ->
  _to_physical (Quantity v pix) pc w
  = (Ok (Quantity (v * (a * (PI / 180) * d)) pc), w).
Proof.
  intros Ha Hd. unfold _to_physical.
  run_ok (hasattr_Some _ _ Hd). cbn [negb].
  run_ok (distance_run _ Ha Hd).
  now run_ok (_physical_size_run _ Ha Hd).
Qed.

Ltac not_convertible :=
  simpl;
  first [ solve [ intros [] ]
        | solve [ intros [? ?]; congruence ]
        | solve [ congruence ] ].

(** X1.  [_to_pixel] never changes the object.  It returns, and then a
    quantity in pixels, exactly for a quantity in pixels, for an angular one
    on an object with a header, and for a physical one on an object with a
    header and a distance; a bare float, any other unit or a missing header
    or distance makes it raise. *)
Theorem _to_pixel_returns_iff_convertible q w :
  snd (_to_pixel q w) = w
  /\ ((exists v, fst (_to_pixel q w) = Ok (Quantity v pix))
      <-> convertible q (self w))
  /\ (forall r, fst (_to_pixel q w) = Ok r -> exists v, r = Quantity v pix).
Proof.
  assert (Hno : forall e,
            _to_pixel q w = (Raise e, w) -> ~ convertible q (self w) ->
            snd (_to_pixel q w) = w
            /\ ((exists v, fst (_to_pixel q w) = Ok (Quantity v pix))
                <-> convertible q (self w))
            /\ (forall r, fst (_to_pixel q w) = Ok r ->
                  exists v, r = Quantity v pix)).
  { intros e H Hc. rewrite H. simpl.
    split; [ reflexivity | ]. split; [ split | ].
    - intros [v H']. discriminate.
    - intros Hc'. contradiction.
    - intros r H'. discriminate. }
  assert (Hyes : forall v,
            _to_pixel q w = (Ok (Quantity v pix), w) ->
            convertible q (self w) ->
            snd (_to_pixel q w) = w
            /\ ((exists v, fst (_to_pixel q w) = Ok (Quantity v pix))
                <-> convertible q (self w))
            /\ (forall r, fst (_to_pixel q w) = Ok r ->
                  exists v, r = Quantity v pix)).
  { intros v H Hc. rewrite H. simpl.
    split; [ reflexivity | ]. split; [ split | ].
    - intros _. exact Hc.
    - intros _. exists v. reflexivity.
    - intros r H'. inversion H'. exists v. reflexivity. }
  destruct q as [v | v u].
  { eapply Hno; [ reflexivity | not_convertible ]. }
  destruct u; try (eapply Hno; [ reflexivity | not_convertible ]).
  - eapply Hyes; [ reflexivity | exact I ].
  - destruct (_header (self w)) as [a |] eqn:Ha.
    + eapply Hyes; [ apply _to_pixel_deg; exact Ha | simpl; congruence ].
    + eapply Hno; [ | simpl; congruence ].
      unfold _to_pixel, to_pix_angular.
      run_ok (@hasattr_None _ _header w Ha). reflexivity.
  - destruct (_distance (self w)) as [d |] eqn:Hd.
    + destruct (_header (self w)) as [a |] eqn:Ha.
      * eapply Hyes; [ apply _to_pixel_pc; [ exact Ha | exact Hd ]
                     | simpl; split; congruence ].
      * eapply Hno; [ | not_convertible ].
        unfold _to_pixel, to_pix_physical.
        run_ok (@hasattr_Some _ _distance w d Hd). cbn [negb].
        apply bind_Raise. unfold distance.
        run_ok (@hasattr_None _ _header w Ha). reflexivity.
    + eapply Hno; [ | not_convertible ].
      unfold _to_pixel, to_pix_physical.
      run_ok (@hasattr_None _ _distance w Hd). reflexivity.
Qed.

Lemma same_Quantity (x y : R) u (w : world) :
  x = y -> (Ok (Quantity x u), w) = (Ok (Quantity y u), w).
Proof. now intros ->. Qed.

(** X2.  Pixels to an angular or a physical size and back, and the other
    way round, return the value that was given (in exact arithmetic), on an
    object whose header and distance give non-zero scales; the object is
    not changed. *)
Theorem spatial_conversion_round_trip w a d v :
  _header (self w) = Some a -> _distance (self w) = Some d ->
  a <> 0 -> d <> 0 ->
  (q <- _to_pixel (Quantity v deg) ;; _spatial_unit_conversion q deg) w
    = (Ok (Quantity v deg), w)
  /\ (q <- _spatial_unit_conversion (Quantity v pix) deg ;; _to_pixel q) w
     = (Ok (Quantity v pix), w)
  /\ (q <- _to_pixel (Quantity v pc) ;; _spatial_unit_conversion q pc) w
     = (Ok (Quantity v pc), w)
  /\ (q <- _spatial_unit_conversion (Quantity v pix) pc ;; _to_pixel q) w
     = (Ok (Quantity v pix), w).
Proof.
  intros Ha Hd Hna Hnd.
  assert (Hpi : PI <> 0) by (pose proof PI_RGT_0; lra).
  repeat split.
  - run_ok (@_to_pixel_deg w a v Ha). unfold _spatial_unit_conversion.
    rewrite (@_to_angular_pix w a (v / a) Ha). apply same_Quantity. now field.
  - unfold _spatial_unit_conversion. run_ok (@_to_angular_pix w a v Ha).
    rewrite (@_to_pixel_deg w a (v * a) Ha). apply same_Quantity. now field.
  - run_ok (@_to_pixel_pc w a d v Ha Hd). unfold _spatial_unit_conversion.
    rewrite (@_to_physical_pix w a d (v / (a * (PI / 180) * d)) Ha Hd).
    apply same_Quantity. now field.
  - unfold _spatial_unit_conversion. run_ok (@_to_physical_pix w a d v Ha Hd).
    rewrite (@_to_pixel_pc w a d (v * (a * (PI / 180) * d)) Ha Hd).
    apply same_Quantity. now field.
Qed.

Lemma reciprocal_Quantity v u w :
  reciprocal (Quantity v u) w = (Ok (Quantity (1 / v) (unit_inv u)), w).
Proof. reflexivity. Qed.

Lemma _to_pixel_freq_per_deg w a f :
  _header (self w) = Some a ->
  _to_pixel_freq (Quantity f (per deg)) w
  = (Ok (Quantity (1 / (1 / f / a)) (per pix)), w).
Proof.
  intros Ha. unfold _to_pixel_freq. run_ok (reciprocal_Quantity f (per deg) w).
  cbn [unit_inv]. run_ok (@_to_pixel_deg w a (1 / f) Ha). reflexivity.
Qed.

Lemma _spatial_freq_unit_conversion_per_deg w a f :
  _header (self w) = Some a ->
  _spatial_freq_unit_conversion (Quantity f (per pix)) (per deg) w
  = (Ok (Quantity (1 / (1 / f * a)) (per deg)), w).
Proof.
  intros Ha. unfold _spatial_freq_unit_conversion.
  run_ok (reciprocal_Quantity f (per pix) w). cbn [unit_inv].
  unfold _spatial_unit_conversion.
  run_ok (@_to_angular_pix w a (1 / f) Ha). reflexivity.
Qed.

Lemma _to_pixel_freq_per_pix w f :
  f <> 0 ->
  _to_pixel_freq (Quantity f (per pix)) w = (Ok (Quantity f (per pix)), w).
Proof.
  intros Hf.
  unfold _to_pixel_freq. run_ok (reciprocal_Quantity f (per pix) w).
  cbn [unit_inv]. unfold _to_pixel at 1. unfold bind at 1, ret at 1.
  rewrite reciprocal_Quantity. cbn [unit_inv].
  apply same_Quantity. now field.
Qed.

(** X3.  A spatial frequency: in pixel units [_to_pixel_freq] returns it as
    it is, with or without a header; an angular frequency [f] becomes
    [f * a] per pixel for the angular pixel size [a], and
    [_spatial_freq_unit_conversion] brings it back to [f] (in exact
    arithmetic). *)
Theorem frequency_conversion_round_trip w f :
  f <> 0 ->
  _to_pixel_freq (Quantity f (per pix)) w = (Ok (Quantity f (per pix)), w)
  /\ forall a,
       _header (self w) = Some a -> a <> 0 ->
       _to_pixel_freq (Quantity f (per deg)) w
         = (Ok (Quantity (f * a) (per pix)), w)
       /\ (q <- _to_pixel_freq (Quantity f (per deg)) ;;
           _spatial_freq_unit_conversion q (per deg)) w
          = (Ok (Quantity f (per deg)), w)
       /\ (q <- _spatial_freq_unit_conversion (Quantity f (per pix))
                  (per deg) ;;
           _to_pixel_freq q) w
          = (Ok (Quantity f (per pix)), w).
Proof.
  intros Hf. split.
  - now apply _to_pixel_freq_per_pix.
  - intros a Ha Hna.
    assert (E1 : 1 / (1 / f / a) = f * a) by now field.
    assert (Hfa : f * a <> 0) by (apply Rmult_integral_contrapositive; auto).
    split; [ | split ].
    + rewrite (@_to_pixel_freq_per_deg w a f Ha). now rewrite E1.
    + run_ok (@_to_pixel_freq_per_deg w a f Ha).
      rewrite (@_spatial_freq_unit_conversion_per_deg w a (1 / (1 / f / a)) Ha).
      apply same_Quantity. now field.
    + run_ok (@_spatial_freq_unit_conversion_per_deg w a f Ha).
      rewrite (@_to_pixel_freq_per_deg w a (1 / (1 / f * a)) Ha).
      apply same_Quantity. now field.
Qed.

(** ** More on the 1D fit *)

Lemma fit_data_keeps_warned_fitted lc hc w xy w1 :
  fit_data lc hc w = (Ok xy, w1) ->
  warned w1 = warned w /\ fitted w1 = fitted w.
Proof.
  intros H.
  pose proof (keeps_fit_data_warned lc hc w) as Hw.
  pose proof (keeps_fit_data_fitted lc hc w) as Hf.
  rewrite H in Hw, Hf. auto.
Qed.

(** X4.  Without a break guess and without weights, [fit_pspec] sets the
    break and its error to [None] and calls ordinary least squares once, on
    the whole clipped [x] and [y]; [Lm_Seg] is not called and no warning is
    issued.  When statsmodels returns a line, the call returns and the
    slope and its error are the second entries of [params] and [bse]. *)
Theorem fit_pspec_without_break
  log_break lc hc min_fits_pts verbose w x y w1 :
  fit_data lc hc w = (Ok (x, y), w1) ->
  let r := fit_pspec None log_break lc hc min_fits_pts false verbose w in
  _brk (self (snd r)) = Some None
  /\ _brk_err (self (snd r)) = Some None
  /\ warned (snd r) = warned w
  /\ fitted (snd r) = fitted w ++ [Call_OLS y x]
  /\ forall f s e,
       OLS_fit y x = Ok f ->
       nth_error (params f) 1 = Some s ->
       nth_error (bse f) 1 = Some e ->
       fst r = Ok tt
       /\ fit (self (snd r)) = Some f
       /\ _slope (self (snd r)) = Some (Float s)
       /\ _slope_err (self (snd r)) = Some (Float e).
Proof.
  intros Hd r.
  set (W := update (set_brk_err None) (update (set_brk None) w1)).
  assert (Hr : r = fit_unbroken x y None W).
  { unfold r, fit_pspec. run_ok Hd. reflexivity. }
  destruct (fit_data_keeps_warned_fitted _ _ _ Hd) as [Hw Hf].
  rewrite Hr. split; [ | split; [ | split; [ | split ] ] ].
  - now rewrite (@keeps_fit_unbroken_self _ _brk x y None).
  - now rewrite (@keeps_fit_unbroken_self _ _brk_err x y None).
  - rewrite keeps_fit_unbroken_warned. exact Hw.
  - rewrite fit_unbroken_fitted. change (fitted W) with (fitted w1).
    now rewrite Hf.
  - intros f s e Ho Hs He.
    rewrite (@fit_unbroken_OLS x y f s e W Ho Hs He). simpl. auto.
Qed.

Lemma fit_break_failed b log_break min_fits_pts verbose x y w b' w1 brk_fit :
  break_guess b log_break w = (Ok b', w1) ->
  Lm_Seg_fit_model x y b' verbose = Ok brk_fit ->
  Lm_Seg.params_size brk_fit <> 5%nat ->
  fit_break b log_break min_fits_pts verbose x y w =
  (Ok (x, y),
   warning Msg.break_failed
     (update (set_brk None) (called (Call_Lm_Seg x y b') w1))).
Proof.
  intros Hg Hfit Hsize. unfold fit_break. run_ok Hg.
  assert (Hcall : call_Lm_Seg x y b' verbose w1
                  = (Ok brk_fit, called (Call_Lm_Seg x y b') w1)).
  { unfold call_Lm_Seg, bind, record_call, lift. now rewrite Hfit. }
  run_ok Hcall. apply Nat.eqb_neq in Hsize. rewrite Hsize. reflexivity.
Qed.

(** X5.  When [Lm_Seg] returns a model that does not have 5 parameters,
    the fit with a break has failed: whatever [min_fits_pts] is, the break
    is [None], the warning of the failed break is recorded, and the call
    ends as the least-squares fit of a single line on the whole clipped
    [x] and [y] does. *)
Theorem fit_pspec_failed_break_falls_back
  b log_break lc hc min_fits_pts verbose w x y w1 b' w2 brk_fit :
  fit_data lc hc w = (Ok (x, y), w1) ->
  break_guess b log_break w1 = (Ok b', w2) ->
  Lm_Seg_fit_model x y b' verbose = Ok brk_fit ->
  Lm_Seg.params_size brk_fit <> 5%nat ->
  let r := fit_pspec (Some b) log_break lc hc min_fits_pts false verbose w in
  _brk (self (snd r)) = Some None
  /\ warned (snd r) = warned w ++ [Msg.break_failed]
  /\ fitted (snd r) = fitted w ++ [Call_Lm_Seg x y b'; Call_OLS y x]
  /\ forall f s e,
       OLS_fit y x = Ok f ->
       nth_error (params f) 1 = Some s ->
       nth_error (bse f) 1 = Some e ->
       fst r = Ok tt
       /\ fit (self (snd r)) = Some f
       /\ _slope (self (snd r)) = Some (Float s).
Proof.
  intros Hd Hg Hfit Hsize r.
  set (W := warning Msg.break_failed
              (update (set_brk None) (called (Call_Lm_Seg x y b') w2))).
  assert (Hr : r = fit_unbroken x y None W).
  { unfold r, fit_pspec. run_ok Hd.
    unfold bind at 1. unfold ret at 1.
    run_ok (@fit_break_failed b log_break min_fits_pts verbose x y
              _ _ _ _ Hg Hfit Hsize).
    reflexivity. }
  destruct (fit_data_keeps_warned_fitted _ _ _ Hd) as [Hw Hf].
  assert (Hw2 : warned w2 = warned w1).
  { pose proof (keeps_break_guess warned b log_break w1) as K.
    now rewrite Hg in K. }
  assert (Hf2 : fitted w2 = fitted w1).
  { pose proof (keeps_break_guess fitted b log_break w1) as K.
    now rewrite Hg in K. }
  rewrite Hr. split; [ | split; [ | split ] ].
  - now rewrite (@keeps_fit_unbroken_self _ _brk x y None).
  - rewrite keeps_fit_unbroken_warned.
    change (warned W) with (warned w2 ++ [Msg.break_failed]).
    now rewrite Hw2, Hw.
  - rewrite fit_unbroken_fitted.
    change (fitted W) with (fitted w2 ++ [Call_Lm_Seg x y b']).
    rewrite Hf2, Hf. now rewrite <- app_assoc.
  - intros f s e Ho Hs He.
    rewrite (@fit_unbroken_OLS x y f s e W Ho Hs He). simpl. auto.
Qed.

(** X6.  A break that is found but not kept, for too few points or for a
    failed fit, leaves [_brk_err] as it was before the call, where a call
    without a break guess sets it to [None]: after such a call the break is
    [None] while its error may still be that of an earlier, accepted
    break. *)
Theorem fit_pspec_dropped_break_keeps_old_brk_err
  b log_break lc hc min_fits_pts verbose w x y w1 b' w2 brk_fit :
  fit_data lc hc w = (Ok (x, y), w1) ->
  break_guess b log_break w1 = (Ok b', w2) ->
  Lm_Seg_fit_model x y b' verbose = Ok brk_fit ->
  Lm_Seg.params_size brk_fit <> 5%nat
  \/ (Lm_Seg.params_size brk_fit = 5%nat
      /\ (points_below x (Lm_Seg.brk brk_fit) < min_fits_pts)%Z) ->
  let r := fit_pspec (Some b) log_break lc hc min_fits_pts false verbose w in
  _brk (self (snd r)) = Some None
  /\ _brk_err (self (snd r)) = _brk_err (self w).
Proof.
  intros Hd Hg Hfit Hcase r.
  assert (He : _brk_err (self w2) = _brk_err (self w)).
  { pose proof (keeps_break_guess (fun w => _brk_err (self w))
                  b log_break w1) as K2.
    assert (B : blind_to_cuts _brk_err) by (intros v s; split; reflexivity).
    pose proof (keeps_fit_data_self lc hc B w) as K1.
    rewrite Hg in K2. rewrite Hd in K1. simpl in K1, K2. congruence. }
  assert (Hr : exists W,
            r = fit_unbroken x y None W
            /\ _brk (self W) = Some None
            /\ _brk_err (self W) = _brk_err (self w2)).
  { destruct Hcase as [Hsize | [Hsize Hlt]].
    - exists (warning Msg.break_failed
                (update (set_brk None) (called (Call_Lm_Seg x y b') w2))).
      split; [ | split; reflexivity ].
      unfold r, fit_pspec. run_ok Hd.
      unfold bind at 1. unfold ret at 1.
      run_ok (@fit_break_failed b log_break min_fits_pts verbose x y
                _ _ _ _ Hg Hfit Hsize).
      reflexivity.
    - exists (break_rejected x y b' w2). split; [ | split; reflexivity ].
      now apply fit_pspec_after_rejection
        with (w1 := w1) (brk_fit := brk_fit). }
  destruct Hr as (W & -> & Hb & Hbe). split.
  - now rewrite (@keeps_fit_unbroken_self _ _brk x y None).
  - rewrite (@keeps_fit_unbroken_self _ _brk_err x y None) by reflexivity.
    congruence.
Qed.

(** X7.  A weighted fit on a profile computed without [return_stddev]
    raises the [ValueError] that asks for it, once the data to fit are in
    place: statsmodels is not called and the results of an earlier fit stay
    as they are. *)
Theorem fit_pspec_weighted_needs_stddev
  log_break lc hc min_fits_pts verbose w xy w1 :
  fit_data lc hc w = (Ok xy, w1) ->
  _stddev_flag (self w) = Some false ->
  let r := fit_pspec None log_break lc hc min_fits_pts true verbose w in
  r = (Raise (ValueError Msg.stddev_required), w1)
  /\ fitted (snd r) = fitted w
  /\ warned (snd r) = warned w
  /\ fit_results (self (snd r)) = fit_results (self w).
Proof.
  intros Hd Hflag r.
  assert (Hflag1 : _stddev_flag (self w1) = Some false).
  { assert (B : blind_to_cuts _stddev_flag)
      by (intros v s; split; reflexivity).
    pose proof (keeps_fit_data_self lc hc B w) as K.
    rewrite Hd in K. simpl in K. congruence. }
  assert (Hr : r = (Raise (ValueError Msg.stddev_required), w1)).
  { unfold r, fit_pspec. run_ok Hd. apply bind_Raise. apply bind_Raise.
    unfold weighted_y_err. erewrite bind_Ok by reflexivity.
    run_ok (getattr_Some "_stddev_flag" _ _ Hflag1). reflexivity. }
  destruct (fit_data_keeps_warned_fitted _ _ _ Hd) as [Hw Hf].
  pose proof (keeps_fit_data_self lc hc blind_fit_results w) as K.
  rewrite Hd in K. rewrite Hr. auto.
Qed.

(** ** The cut-offs *)

Lemma fold_left_Rmax_spec (a : list R) :
  forall v0,
    (In (fold_left Rmax a v0) (v0 :: a))
    /\ forall v, In v (v0 :: a) -> v <= fold_left Rmax a v0.
Proof.
  induction a as [| u a IH]; intros v0; simpl.
  - split; [ auto | ]. intros v [<- | []]. lra.
  - destruct (IH (Rmax v0 u)) as [Hin Hle]. split.
    + destruct Hin as [Hin | Hin]; [ | auto ].
      rewrite <- Hin. unfold Rmax. destruct (Rle_dec v0 u); auto.
    + intros v [<- | [<- | Hv]].
      * apply Rle_trans with (Rmax v0 u); [ apply Rmax_l | ].
        apply Hle. now left.
      * apply Rle_trans with (Rmax v0 u); [ apply Rmax_r | ].
        apply Hle. now left.
      * apply Hle. now right.
Qed.

(** X8.  The default cut-offs.  With both cut-offs left out, [low_cut] is
    one over half the longer side of the 2D spectrum and [high_cut] is the
    largest radial frequency: one of the frequencies, and no frequency is
    above it.  On an empty profile the call raises numpy's [ValueError],
    after [low_cut] has been assigned. *)
Theorem default_cuts w g f :
  _ps2D (self w) = Some g ->
  _freqs (self w) = Some f ->
  let shape := Grid.shape (rev g) in
  let low := 1 / (0.5 * INR (Nat.max (fst shape) (snd shape))) in
  (f <> [] ->
     exists m,
       In m f /\ (forall v, In v f -> v <= m) /\
       set_cuts None None w
       = (Ok tt, update (set_high_cut m) (update (set_low_cut low) w)))
  /\ (f = [] ->
        set_cuts None None w
        = (Raise (ValueError Msg.zero_size_max),
           update (set_low_cut low) w)).
Proof.
  intros Hg Hf shape low.
  assert (Hp : ps2D w = (Ok (rev g), w)).
  { unfold ps2D. now run_ok (getattr_Some "_ps2D" _ _ Hg). }
  assert (Hlow : forall k : unit -> M unit,
            bind (a <- ps2D ;;
                  setattr (set_low_cut
                    (1 / (0.5 * INR (Nat.max (fst (Grid.shape a))
                                             (snd (Grid.shape a))))))) k w
            = k tt (update (set_low_cut low) w)).
  { intros k. unfold bind at 1. unfold bind at 1. rewrite Hp. reflexivity. }
  assert (Hfr : freqs (update (set_low_cut low) w)
                = (Ok f, update (set_low_cut low) w)).
  { apply getattr_Some. exact Hf. }
  split.
  - intros Hne. destruct f as [| v0 f']; [ congruence | ].
    destruct (fold_left_Rmax_spec f' v0) as [Hin Hle].
    exists (fold_left Rmax f' v0). split; [ exact Hin | ].
    split; [ exact Hle | ].
    unfold set_cuts. rewrite Hlow. run_ok Hfr. reflexivity.
  - intros ->. unfold set_cuts. rewrite Hlow. run_ok Hfr. reflexivity.
Qed.

(** X9.  Cut-offs given in pixel frequency are stored as they are given
    (in exact arithmetic: the code inverts them twice), whatever the header
    and the distance of the object. *)
Theorem pixel_cuts_are_stored_as_given w lo hi :
  lo <> 0 -> hi <> 0 ->
  set_cuts (Some (Quantity lo (per pix))) (Some (Quantity hi (per pix))) w
  = (Ok tt, update (set_high_cut hi) (update (set_low_cut lo) w)).
Proof.
  intros Hlo Hhi. unfold set_cuts.
  unfold bind at 1. unfold bind at 1.
  rewrite (@_to_pixel_freq_per_pix w lo Hlo).
  cbn [value]. rewrite setattr_eq.
  unfold bind at 1. rewrite (@_to_pixel_freq_per_pix _ hi Hhi). reflexivity.
Qed.

(** ** More on the 2D fit *)

Lemma set_cuts_inv_self (B : Type) (f : PSpec -> B) lc hc w w1 :
  blind_to_cuts f ->
  set_cuts lc hc w = (Ok tt, w1) -> f (self w1) = f (self w).
Proof.
  intros Hb H. pose proof (keeps_set_cuts_self lc hc Hb w) as K.
  now rewrite H in K.
Qed.

Lemma default_p0_seeded w f s a :
  fit (self w) = Some f ->
  nth_error (params f) 0 = Some a ->
  (_slope (self w) = Some (Float s)
   \/ exists rest, _slope (self w) = Some (NdArray (s :: rest))) ->
  default_p0 w = (Ok [a; 0; Np.pi / 2; s], w).
Proof.
  intros Hf Ha Hs. unfold default_p0.
  assert (Hg : exists sl, _slope (self w) = Some sl
                 /\ match sl with
                    | NdArray arr => item arr 0
                    | Float v => ret v
                    end w = (Ok s, w)).
  { destruct Hs as [Hs | [rest Hs]]; eexists; (split; [ exact Hs | ]);
      reflexivity. }
  destruct Hg as (sl & Hsl & Hguess).
  run_ok (hasattr_Some _ _ Hsl).
  assert (Hin : (s0 <- slope ;;
                 slope_guess <- match s0 with
                                | NdArray arr => item arr 0
                                | Float v => ret v
                                end ;;
                 f0 <- getattr "fit" fit ;;
                 amp_guess <- item (params f0) 0 ;;
                 ret (slope_guess, amp_guess)) w = (Ok (s, a), w)).
  { unfold slope. run_ok (getattr_Some "_slope" _ _ Hsl). run_ok Hguess.
    run_ok (getattr_Some "fit" _ _ Hf). unfold item. now rewrite Ha. }
  run_ok Hin. reflexivity.
Qed.

Lemma default_p0_unseeded w g m :
  _slope (self w) = None ->
  _ps2D (self w) = Some g ->
  Grid.nanmax (rev g) = Some m ->
  default_p0 w = (Ok [Np.log10 m; 0; Np.pi / 2; -2], w).
Proof.
  intros Hs Hg Hm. unfold default_p0. run_ok (hasattr_None _ _ Hs).
  assert (Hp : ps2D w = (Ok (rev g), w)).
  { unfold ps2D. now run_ok (getattr_Some "_ps2D" _ _ Hg). }
  assert (Hin : (a <- ps2D ;;
                 match Grid.nanmax a with
                 | Some m0 => ret (-2, Np.log10 m0)
                 | None => raise (ValueError Msg.zero_size_max)
                 end) w = (Ok (-2, Np.log10 m), w)).
  { run_ok Hp. now rewrite Hm. }
  run_ok Hin. reflexivity.
Qed.

(** X10.  The initial parameters of the 2D fit.  A call of [fit_2Dpspec]
    that returns has called the fitter once.  A [p0] that is given is
    passed on as it is.  An empty [p0] is replaced by amplitude, 0,
    [pi / 2] and slope, where amplitude and slope are the intercept and the
    (first) slope of the 1D fit when there is one, and otherwise the
    base-10 logarithm of the largest entry of the spectrum and -2. *)
Theorem fit_2Dpspec_initial_parameters
  fit_method p0 lc hc bootstrap niters use_azimmask radial_weighting
  fix_ellip_params w w' :
  fit_2Dpspec fit_method p0 lc hc bootstrap niters use_azimmask
    radial_weighting fix_ellip_params w = (Ok tt, w') ->
  exists z xx yy p0',
    fitted w' = fitted w ++ [Call_fit_elliptical_powerlaw z xx yy p0']
    /\ (p0 <> [] -> p0' = p0)
    /\ (p0 = [] ->
        forall f s a,
          fit (self w) = Some f ->
          nth_error (params f) 0 = Some a ->
          (_slope (self w) = Some (Float s)
           \/ exists rest, _slope (self w) = Some (NdArray (s :: rest))) ->
          p0' = [a; 0; PI / 2; s])
    /\ (p0 = [] -> _slope (self w) = None ->
        exists g m,
          _ps2D (self w) = Some g /\ Grid.nanmax (rev g) = Some m
          /\ p0' = [Np.log10 m; 0; PI / 2; -2]).
Proof.
  intros H.
  apply fit_2Dpspec_inv in H
    as (w1 & g & mask & yy_freq & xx_freq & p0' & r
        & Hc & Hg & _ & _ & Hp & H).
  cbv zeta in H. destruct H as [_ Hst].
  assert (Bf : blind_to_cuts fit) by (intros v s; split; reflexivity).
  assert (Bs : blind_to_cuts _slope) by (intros v s; split; reflexivity).
  pose proof (@set_cuts_inv_self _ fit lc hc w w1 Bf Hc) as Hfit.
  pose proof (@set_cuts_inv_self _ _slope lc hc w w1 Bs Hc) as Hsl.
  pose proof (@set_cuts_inv_self _ _ps2D lc hc w w1 blind__ps2D Hc) as Hps.
  do 3 eexists. exists p0'. split; [ | split; [ | split ] ].
  - pose proof (keeps_store_fit2D_fitted r
      (called (Call_fit_elliptical_powerlaw
                 (map Np.log10 (Grid.select (rev g) mask))
                 (Grid.select xx_freq mask) (Grid.select yy_freq mask) p0')
              w1)) as K.
    rewrite Hst in K.
    pose proof (keeps_set_cuts_fitted lc hc w) as K'. rewrite Hc in K'.
    change (fitted w1 = fitted w) in K'.
    change (fitted w' = fitted w1 ++ [Call_fit_elliptical_powerlaw
              (map Np.log10 (Grid.select (rev g) mask))
              (Grid.select xx_freq mask) (Grid.select yy_freq mask) p0'])
      in K.
    rewrite K, K'. reflexivity.
  - intros Hne. destruct p0 as [| v p0]; [ congruence | ].
    simpl in Hp. now inversion Hp.
  - intros -> f s a Hf Ha Hs. simpl in Hp.
    assert (Hf1 : fit (self w1) = Some f) by congruence.
    assert (Hs1 : _slope (self w1) = Some (Float s)
                  \/ exists rest,
                       _slope (self w1) = Some (NdArray (s :: rest))).
    { destruct Hs as [Hs | [rest Hs]]; [ left | right; exists rest ];
        congruence. }
    rewrite (@default_p0_seeded w1 f s a Hf1 Ha Hs1) in Hp.
    now inversion Hp.
  - intros -> Hs0. simpl in Hp.
    assert (Hs : _slope (self w1) = None) by congruence.
    exists g.
    assert (Hm : exists m, Grid.nanmax (rev g) = Some m).
    { destruct (Grid.nanmax (rev g)) as [m |] eqn:Em; [ eauto | ].
      exfalso. unfold default_p0 in Hp.
      run_ok (hasattr_None _ _ Hs) in Hp.
      assert (Hp2 : ps2D w1 = (Ok (rev g), w1)).
      { unfold ps2D. now run_ok (getattr_Some "_ps2D" _ _ Hg). }
      apply bind_inv in Hp as (gs & w2 & Hin & _).
      apply bind_inv in Hin as (a0 & w3 & Ha0 & Hin).
      rewrite Hp2 in Ha0. inversion Ha0; subst. rewrite Em in Hin.
      discriminate. }
    destruct Hm as [m Hm]. exists m.
    split; [ congruence | ]. split; [ exact Hm | ].
    rewrite (@default_p0_unseeded w1 g m Hs Hg Hm) in Hp. now inversion Hp.
Qed.

Lemma Int_part_plus_Z r (k : Z) : Int_part (r + IZR k) = (Int_part r + k)%Z.
Proof.
  symmetry. apply Int_part_spec.
  destruct (base_Int_part r) as [Hlo Hhi]. rewrite plus_IZR. lra.
Qed.

(** X11.  The orientation is normalised to an axis: raw angles that differ
    by a whole multiple of [pi] are stored as the same [theta2D], and an
    angle already in [[0, pi)] is stored as it is. *)
Theorem theta2D_is_an_axis (theta : R) (k : Z) :
  Np.mod_ (theta + IZR k * Np.pi) Np.pi = Np.mod_ theta Np.pi
  /\ (0 <= theta < Np.pi -> Np.mod_ theta Np.pi = theta)
  /\ Np.mod_ (Np.mod_ theta Np.pi) Np.pi = Np.mod_ theta Np.pi.
Proof.
  pose proof PI_RGT_0 as Hpi. unfold Np.pi.
  assert (Hsmall : forall t, 0 <= t < PI -> Np.mod_ t PI = t).
  { intros t [Hlo Hhi]. unfold Np.mod_.
    replace (Int_part (t / PI)) with 0%Z; [ lra | ].
    apply Int_part_spec. simpl.
    assert (0 <= t / PI).
    { apply Rmult_le_reg_r with PI; [ lra | ].
      replace (t / PI * PI) with t by (field; lra). lra. }
    assert (t / PI < 1).
    { apply Rmult_lt_reg_r with PI; [ lra | ].
      replace (t / PI * PI) with t by (field; lra). lra. }
    lra. }
  split; [ | split ].
  - unfold Np.mod_.
    replace ((theta + IZR k * PI) / PI) with (theta / PI + IZR k)
      by (field; lra).
    rewrite Int_part_plus_Z, plus_IZR. lra.
  - apply Hsmall.
  - apply Hsmall. apply (mod_spec theta Hpi).
Qed.

(** ** The azimuthal mask *)

Lemma bind_ext (A B : Type) (m : M A) (k1 k2 : A -> M B) w :
  (forall a w1, m w = (Ok a, w1) -> k1 a w1 = k2 a w1) ->
  bind m k1 w = bind m k2 w.
Proof.
  intros H. unfold bind. destruct (m w) as [[a | e] w1]; auto.
Qed.



Lemma compute_radial_pspec_flags return_stddev logspacing max_bin kw w w' :
  compute_radial_pspec return_stddev logspacing max_bin kw w = (Ok tt, w') ->
  _stddev_flag (self w') = Some return_stddev
  /\ _azim_constraint_flag (self w')
     = Some (truthy (kwargs_get kw "theta_0")).
Proof.
  unfold compute_radial_pspec. intros H.
  apply bind_inv in H as (a & w1 & _ & H).
  apply bind_inv in H as (out & w2 & _ & H).
  run_ok (setattr_eq (set_stddev_flag return_stddev) w2) in H.
  match type of H with context [bind (setattr ?s) _ ?w0] =>
    run_ok (setattr_eq s w0) in H end.
  match type of H with
  | ?m ?w0 = _ =>
      assert (K1 : keeps (fun w => _stddev_flag (self w)) m)
        by (unfold freqs; keeps_auto);
      assert (K2 : keeps (fun w => _azim_constraint_flag (self w)) m)
        by (unfold freqs; keeps_auto);
      specialize (K1 w0); specialize (K2 w0); rewrite H in K1, K2
  end.
  split; [ exact K1 | exact K2 ].
Qed.

Lemma keeps_compute_radial_pspec__azim_mask return_stddev logspacing
  max_bin kw :
  truthy (kwargs_get kw "theta_0") = false ->
  keeps (fun w => _azim_mask (self w))
    (compute_radial_pspec return_stddev logspacing max_bin kw).
Proof.
  intros Hk. unfold compute_radial_pspec. rewrite Hk.
  unfold ps2D, freqs. keeps_auto.
Qed.

(** X12.  The azimuthal mask outlives the run that made it.  A run of
    [compute_radial_pspec] without [theta_0] records that there is no
    azimuthal constraint but leaves the mask of an earlier run in place,
    and [fit_2Dpspec] with [use_azimmask] looks only for the mask: the mask
    it builds is then the frequency mask and-ed with the stored one.
    Without a stored mask [use_azimmask] changes nothing. *)
Theorem azimuthal_mask_outlives_its_run :
  (forall return_stddev logspacing max_bin kw w w',
     truthy (kwargs_get kw "theta_0") = false ->
     compute_radial_pspec return_stddev logspacing max_bin kw w
       = (Ok tt, w') ->
     _azim_constraint_flag (self w') = Some false
     /\ _azim_mask (self w') = _azim_mask (self w))
  /\ (forall w am mask yy_freq xx_freq w',
        _azim_mask (self w) = Some am ->
        build_mask true w = (Ok (mask, yy_freq, xx_freq), w') ->
        exists mask0,
          build_mask false w = (Ok (mask0, yy_freq, xx_freq), w)
          /\ Grid.same_shape mask0 am = true
          /\ mask = Grid.map2 andb mask0 am)
  /\ (forall w, _azim_mask (self w) = None ->
        build_mask true w = build_mask false w).
Proof.
  split; [ | split ].
  - intros return_stddev logspacing max_bin kw w w' Hk H. split.
    + destruct (@compute_radial_pspec_flags return_stddev logspacing max_bin
                  kw w w' H) as [_ Hf].
      now rewrite Hk in Hf.
    + pose proof (@keeps_compute_radial_pspec__azim_mask return_stddev
                    logspacing max_bin kw Hk w) as K.
      now rewrite H in K.
  - intros w am mask yy_freq xx_freq w' Ham H.
    unfold build_mask in *.
    apply bind_inv in H as (a & w1 & Ha & H).
    run_ok Ha.
    pose proof Ha as Ha'. apply ps2D_inv in Ha' as (g & _ & _ & ->).
    destruct (make_radial_freq_arrays (Grid.shape a)) as [yy xx].
    apply bind_inv in H as (fd & w2 & Hfd & H).
    assert (w2 = w).
    { unfold freqs_dist_of in Hfd.
      destruct (Grid.same_shape yy xx); now inversion Hfd. }
    subst w2. run_ok Hfd.
    apply bind_inv in H as (lo & w2 & Hlo & H).
    pose proof Hlo as Hlo'. apply getattr_inv in Hlo' as [_ ->]. run_ok Hlo.
    apply bind_inv in H as (hi & w2 & Hhi & H).
    pose proof Hhi as Hhi'. apply getattr_inv in Hhi' as [_ ->]. run_ok Hhi.
    cbv zeta in *.
    run_ok (@hasattr_Some _ _azim_mask w am Ham) in H.
    run_ok (@hasattr_Some _ _azim_mask w am Ham).
    cbn [andb] in *.
    apply bind_inv in H as (m & w2 & Hm & H).
    run_ok (@getattr_Some _ "_azim_mask" _azim_mask w am Ham) in Hm.
    unfold logical_and in Hm.
    destruct (Grid.same_shape _ am) eqn:Es; [ | discriminate ].
    inversion Hm; subst m w2. inversion H; subst.
    eexists. split; [ reflexivity | ]. split; [ exact Es | reflexivity ].
  - intros w Hnone. unfold build_mask.
    apply bind_ext. intros a w1 Ha.
    apply ps2D_inv in Ha as (g & _ & _ & ->).
    destruct (make_radial_freq_arrays (Grid.shape a)) as [yy xx].
    apply bind_ext. intros fd w2 Hfd.
    assert (w2 = w).
    { unfold freqs_dist_of in Hfd.
      destruct (Grid.same_shape yy xx); now inversion Hfd. }
    subst w2.
    apply bind_ext. intros lo w2 Hlo. apply getattr_inv in Hlo as [_ ->].
    apply bind_ext. intros hi w2 Hhi. apply getattr_inv in Hhi as [_ ->].
    cbv zeta.
    rewrite !(@bind_Ok _ _ _ _ _ _ _ (@hasattr_None _ _azim_mask w Hnone)).
    reflexivity.
Qed.

(** ** More on the radial profile *)

(** X13.  After a run of [compute_radial_pspec] with [return_stddev] that
    returns, the object holds the frequencies, the profile and the standard
    deviations [psds.pspec] returned, and the property [ps1D_stddev] yields
    the latter without a warning. *)
Theorem compute_radial_pspec_with_stddev logspacing max_bin kw w w' :
  compute_radial_pspec true logspacing max_bin kw w = (Ok tt, w') ->
  exists g out sd,
    _ps2D (self w) = Some g
    /\ pspec (rev g) true logspacing max_bin kw = Ok out
    /\ out_stddev out = Some sd
    /\ _freqs (self w') = Some (out_freqs out)
    /\ _ps1D (self w') = Some (out_ps1D out)
    /\ ps1D_stddev w' = (Ok sd, w').
Proof.
  intros H.
  destruct (@compute_radial_pspec_flags true logspacing max_bin kw w w' H)
    as [Hflag _].
  unfold compute_radial_pspec in H.
  apply bind_inv in H as (a & w1 & Ha & H).
  apply ps2D_inv in Ha as (g & Hg & -> & ->).
  apply bind_inv in H as (out & w1 & Ho & H).
  unfold lift in Ho. inversion Ho; subst w1. clear Ho.
  run_ok (setattr_eq (set_stddev_flag true) w) in H.
  match type of H with context [bind (setattr ?s) _ ?w0] =>
    run_ok (setattr_eq s w0) in H end.
  apply bind_inv in H as ([] & w2 & Hm & H).
  apply bind_inv in H as (f & w3 & Hf & H).
  apply getattr_inv in Hf as [Hf ->]. inversion H; subst w'. clear H.
  assert (Hst : exists sd,
            out_stddev out = Some sd
            /\ _ps1D_stddev (self w2) = Some sd
            /\ _freqs (self w2) = Some (out_freqs out)
            /\ _ps1D (self w2) = Some (out_ps1D out)).
  { destruct (truthy (kwargs_get kw "theta_0")),
      (out_stddev out) as [sd |], (out_azim_mask out) as [am |];
      try discriminate; exists sd; inversion Hm; auto. }
  destruct Hst as (sd & Hsd & Hstored & Hfr & Hps).
  assert (f = out_freqs out) by congruence. subst f.
  exists g, out, sd. do 5 (split; [ assumption || reflexivity | ]).
  unfold ps1D_stddev. run_ok (getattr_Some "_stddev_flag" _ _ Hflag).
  cbn [negb]. unfold bind at 1, ret at 1. apply getattr_Some. exact Hstored.
Qed.

(** X14.  When [psds.pspec] raises, or when the object has no 2D spectrum,
    [compute_radial_pspec] raises the same exception and leaves the object
    exactly as it was: the profile and the flags of an earlier run are
    still there. *)
Theorem compute_radial_pspec_fails_without_trace
  return_stddev logspacing max_bin kw w :
  (_ps2D (self w) = None ->
     compute_radial_pspec return_stddev logspacing max_bin kw w
     = (Raise (AttributeError "_ps2D"), w))
  /\ (forall g e,
        _ps2D (self w) = Some g ->
        pspec (rev g) return_stddev logspacing max_bin kw = Raise e ->
        compute_radial_pspec return_stddev logspacing max_bin kw w
        = (Raise e, w)).
Proof.
  split.
  - intros Hnone. unfold compute_radial_pspec. apply bind_Raise.
    unfold ps2D. apply bind_Raise. now apply getattr_None.
  - intros g e Hg He. unfold compute_radial_pspec.
    assert (Hp : ps2D w = (Ok (rev g), w)).
    { unfold ps2D. now run_ok (getattr_Some "_ps2D" _ _ Hg). }
    run_ok Hp. apply bind_Raise. unfold lift. now rewrite He.
Qed.

(** ** The 2D fit stores nothing before the fitter has returned *)

Lemma unchanged_ps2D : keeps (fun w => w) ps2D.
Proof. unfold ps2D. keeps_auto. Qed.

Ltac early_exit Kf Ks :=
  left; split; [ exact Kf | split; [ simpl; eauto | exact Ks ] ].

(** X15.  Whatever its arguments and the state, [fit_2Dpspec] either ends
    without having called the fitter, and then none of the attributes of
    the 2D fit has changed, or it has called the fitter exactly once; if
    that call raised, [fit_2Dpspec] raises the same exception and again
    none of these attributes has changed. *)
Theorem fit_2Dpspec_stores_only_after_the_fitter
  fit_method p0 lc hc bootstrap niters use_azimmask radial_weighting
  fix_ellip_params w :
  let r := fit_2Dpspec fit_method p0 lc hc bootstrap niters use_azimmask
             radial_weighting fix_ellip_params w in
  let opts := {| Ellip.fit_method := fit_method;
                 Ellip.bootstrap := bootstrap;
                 Ellip.niters := niters;
                 Ellip.radial_weighting := radial_weighting;
                 Ellip.fix_ellip_params := fix_ellip_params |} in
  (fitted (snd r) = fitted w
   /\ (exists e, fst r = Raise e)
   /\ fit2D_results (self (snd r)) = fit2D_results (self w))
  \/ (exists z xx yy p0',
        fitted (snd r) = fitted w ++ [Call_fit_elliptical_powerlaw z xx yy p0']
        /\ forall e,
             fit_elliptical_powerlaw z xx yy p0' opts = Raise e ->
             fst r = Raise e
             /\ fit2D_results (self (snd r)) = fit2D_results (self w)).
Proof.
  intros r opts. unfold r, fit_2Dpspec.
  pose proof (keeps_set_cuts_fitted lc hc w) as Kf.
  pose proof (keeps_set_cuts_self lc hc blind_fit2D_results w) as Ks.
  destruct (set_cuts lc hc w) as [[[] | e] w1] eqn:Hc;
    [ | rewrite (@bind_Raise _ _ _ _ _ _ _ Hc); early_exit Kf Ks ].
  run_ok Hc. simpl in Kf, Ks.
  pose proof (unchanged_build_mask use_azimmask w1) as Kb.
  destruct (build_mask use_azimmask w1)
    as [[[[mask yy_freq] xx_freq] | e] w2] eqn:Hm; simpl in Kb; subst w2;
    [ | rewrite (@bind_Raise _ _ _ _ _ _ _ Hm); early_exit Kf Ks ].
  run_ok Hm.
  destruct (check_mask mask w1) as [[[] | e] w2] eqn:Hk.
  2: { rewrite (@bind_Raise _ _ _ _ _ _ _ Hk). 
       assert (w2 = w1)
         by (unfold check_mask in Hk; destruct (Grid.any mask);
             now inversion Hk).
       subst. early_exit Kf Ks. }
  apply check_mask_inv in Hk as Hk'. destruct Hk' as [_ ->]. run_ok Hk.
  set (P := if Nat.eqb (List.length p0) 0 then default_p0 else ret p0).
  assert (Kp : snd (P w1) = w1).
  { unfold P. destruct (Nat.eqb _ _); [ | reflexivity ].
    apply unchanged_default_p0. }
  destruct (P w1) as [[p0' | e] w2] eqn:Hp; simpl in Kp; subst w2;
    [ | rewrite (@bind_Raise _ _ _ _ _ _ _ Hp); early_exit Kf Ks ].
  run_ok Hp.
  destruct (ps2D w1) as [[a | e] w2] eqn:Ha.
  2: { rewrite (@bind_Raise _ _ _ _ _ _ _ Ha). 
       pose proof (unchanged_ps2D w1) as K.
       rewrite Ha in K. simpl in K. subst. early_exit Kf Ks. }
  apply ps2D_inv in Ha as Ha'. destruct Ha' as (g & _ & -> & ->). run_ok Ha.
  destruct (index2 (rev g) mask w1) as [[z | e] w2] eqn:Hz.
  2: { rewrite (@bind_Raise _ _ _ _ _ _ _ Hz). 
       pose proof (@keeps_index2 _ (fun w => w) (rev g) mask w1) as K.
       rewrite Hz in K. simpl in K. subst. early_exit Kf Ks. }
  apply index2_inv in Hz as Hz'. destruct Hz' as [-> ->]. run_ok Hz.
  destruct (index2 xx_freq mask w1) as [[xx | e] w2] eqn:Hx.
  2: { rewrite (@bind_Raise _ _ _ _ _ _ _ Hx). 
       pose proof (@keeps_index2 _ (fun w => w) xx_freq mask w1) as K.
       rewrite Hx in K. simpl in K. subst. early_exit Kf Ks. }
  apply index2_inv in Hx as Hx'. destruct Hx' as [-> ->]. run_ok Hx.
  destruct (index2 yy_freq mask w1) as [[yy | e] w2] eqn:Hy.
  2: { rewrite (@bind_Raise _ _ _ _ _ _ _ Hy). 
       pose proof (@keeps_index2 _ (fun w => w) yy_freq mask w1) as K.
       rewrite Hy in K. simpl in K. subst. early_exit Kf Ks. }
  apply index2_inv in Hy as Hy'. destruct Hy' as [-> ->]. run_ok Hy.
  right.
  exists (map Np.log10 (Grid.select (rev g) mask)),
    (Grid.select xx_freq mask), (Grid.select yy_freq mask), p0'.
  set (c := Call_fit_elliptical_powerlaw
              (map Np.log10 (Grid.select (rev g) mask))
              (Grid.select xx_freq mask) (Grid.select yy_freq mask) p0').
  fold opts.
  destruct (fit_elliptical_powerlaw
              (map Np.log10 (Grid.select (rev g) mask))
              (Grid.select xx_freq mask) (Grid.select yy_freq mask) p0' opts)
    as [res | e] eqn:Hfit.
  - assert (Hcall : call_fit_elliptical_powerlaw
                      (map Np.log10 (Grid.select (rev g) mask))
                      (Grid.select xx_freq mask) (Grid.select yy_freq mask)
                      p0' opts w1 = (Ok res, called c w1)).
    { unfold call_fit_elliptical_powerlaw, bind, record_call, lift.
      now rewrite Hfit. }
    run_ok Hcall. split; [ | intros e He; discriminate ].
    rewrite keeps_store_fit2D_fitted.
    exact (f_equal (fun l => l ++ [c]) Kf).
  - assert (Hcall : call_fit_elliptical_powerlaw
                      (map Np.log10 (Grid.select (rev g) mask))
                      (Grid.select xx_freq mask) (Grid.select yy_freq mask)
                      p0' opts w1 = (Raise e, called c w1)).
    { unfold call_fit_elliptical_powerlaw, bind, record_call, lift.
      now rewrite Hfit. }
    rewrite (@bind_Raise _ _ _ _ _ _ _ Hcall). split.
    + exact (f_equal (fun l => l ++ [c]) Kf).
    + intros e' He'. inversion He'; subst e'. split; [ reflexivity | ].
      exact Ks.
Qed.

End TurbuStat.

(** * Worked examples *)

(** Runs a method on concrete inputs, leaving the arithmetic on reals
    alone. *)
Ltac run_python :=
  cbv -[Rplus Rmult Rminus Ropp Rinv Rdiv IZR INR Rmax Rlt_dec Rle_dec
        Req_dec_T ln exp sqrt PI Rpower Rabs Int_part pow].

Lemma log10_1 : Np.log10 1 = 0.
Proof. unfold Np.log10. rewrite ln_1. lra. Qed.

Lemma ln_10_pos : 0 < ln 10.
Proof. rewrite <- ln_1. apply ln_increasing; lra. Qed.

Lemma log10_10 : Np.log10 10 = 1.
Proof. unfold Np.log10. pose proof ln_10_pos. field. lra. Qed.

Lemma log10_tenth : Np.log10 (1 / 10) = -1.
Proof.
  unfold Np.log10. pose proof ln_10_pos.
  replace (1 / 10) with (/ 10) by lra.
  rewrite ln_Rinv by lra. field. lra.
Qed.

Lemma ltb_true a b : a < b -> Np.ltb a b = true.
Proof. intros H. unfold Np.ltb. now destruct (Rlt_dec a b). Qed.

Lemma ltb_false a b : b <= a -> Np.ltb a b = false.
Proof. intros H. unfold Np.ltb. destruct (Rlt_dec a b); [ lra | easy ]. Qed.

Lemma demo_fit_data :
  fit_data Demo.clip_all None None Demo.start
  = (Ok (Demo.x, Demo.y), Demo.with_cuts).
Proof. reflexivity. Qed.

Lemma demo_points_below : points_below Demo.x (1 / 2) = 2%Z.
Proof.
  unfold points_below, Np.less, Demo.x. simpl map.
  rewrite log10_tenth, log10_1, log10_10.
  rewrite !ltb_true by lra. rewrite ltb_false by lra. reflexivity.
Qed.

Lemma demo_points_above : points_above Demo.x (1 / 2) = 1%Z.
Proof.
  unfold points_above, Np.gtb, Demo.x. simpl map.
  rewrite log10_tenth, log10_1, log10_10.
  rewrite !ltb_false by lra. rewrite ltb_true by lra. reflexivity.
Qed.

Lemma demo_break_guess :
  break_guess (Plain (1 / 2)) true Demo.with_cuts
  = (Ok (1 / 2), Demo.with_cuts).
Proof. reflexivity. Qed.

(** C1, as stated, fails.  The profile has three points, at log-frequencies
    -1, 0 and 1; the segmented fit converges (5 parameters) with its break
    at 1/2 and [min_fits_pts] is 2.  One point lies beyond the break, fewer
    than [min_fits_pts], yet the break is kept: the call returns with
    [_brk] set, no warning and no second fit, because the two points below
    the break are enough. *)
Lemma fit_pspec_keeps_break_with_few_points_beyond :
  let r := fit_pspec Demo.clip_all Demo.Lm_Seg_fit Demo.OLS Demo.WLS
             (Some (Plain (1 / 2))) true None None 2 false false
             Demo.start in
  Demo.Lm_Seg_fit Demo.x Demo.y (1 / 2) false = Ok (Demo.segmented (1 / 2))
  /\ Lm_Seg.params_size (Demo.segmented (1 / 2)) = 5%nat
  /\ (points_above Demo.x (Lm_Seg.brk (Demo.segmented (1 / 2))) < 2)%Z
  /\ fst r = Ok tt
  /\ _brk (self (snd r)) = Some (Some (Np.pow10 (1 / 2)))
  /\ _brk (self (snd r)) <> Some None
  /\ warned (snd r) = []
  /\ fitted (snd r) = [Call_Lm_Seg Demo.x Demo.y (1 / 2)].
Proof.
  intros r.
  assert (Hr : r = (Ok tt, break_accepted Demo.x Demo.y (1 / 2)
                             (Demo.segmented (1 / 2)) Demo.with_cuts)).
  { unfold r.
    apply (@fit_pspec_after_acceptance Demo.clip_all Demo.Lm_Seg_fit
             Demo.OLS Demo.WLS (Plain (1 / 2)) true None None 2 false
             Demo.start Demo.x Demo.y Demo.with_cuts (1 / 2)
             Demo.with_cuts (Demo.segmented (1 / 2))
             demo_fit_data demo_break_guess eq_refl eq_refl).
    simpl Lm_Seg.brk. rewrite demo_points_below. lia. }
  rewrite Hr. repeat split.
  - simpl Lm_Seg.brk. rewrite demo_points_above. lia.
  - discriminate.
Qed.

(** The same profile with [min_fits_pts = 3]: two points below the break
    are too few and the call falls back to the line. *)
Lemma fit_pspec_too_few_points_below_break_falls_back_witness :
  let r := fit_pspec Demo.clip_all Demo.Lm_Seg_fit Demo.OLS Demo.WLS
             (Some (Plain (1 / 2))) true None None 3 false false
             Demo.start in
  (points_below Demo.x (Lm_Seg.brk (Demo.segmented (1 / 2))) < 3)%Z
  /\ fst r = Ok tt
  /\ _brk (self (snd r)) = Some None
  /\ warned (snd r) = [Msg.not_enough_points]
  /\ fitted (snd r)
     = [Call_Lm_Seg Demo.x Demo.y (1 / 2); Call_OLS Demo.y Demo.x]
  /\ _slope (self (snd r)) = Some (Float (-1)).
Proof.
  assert (Hlt : (points_below Demo.x (Lm_Seg.brk (Demo.segmented (1 / 2)))
                 < 3)%Z).
  { simpl Lm_Seg.brk. rewrite demo_points_below. lia. }
  intros r. split; [ exact Hlt | ].
  destruct (@fit_pspec_too_few_points_below_break_falls_back
              Demo.clip_all Demo.Lm_Seg_fit Demo.OLS Demo.WLS
              (Plain (1 / 2)) true None None 3 false Demo.start
              Demo.x Demo.y Demo.with_cuts (1 / 2) Demo.with_cuts
              (Demo.segmented (1 / 2))
              demo_fit_data demo_break_guess eq_refl eq_refl Hlt)
    as (Hb & Hw & Hc & Hfit).
  destruct (Hfit Demo.line (-1) 0 eq_refl eq_refl eq_refl)
    as (Hok & _ & Hs & _).
  repeat split; assumption.
Defined.

(** With [min_fits_pts = 2] the two points below the break are enough. *)
Lemma fit_pspec_break_kept_iff_enough_points_below_witness :
  let r := fit_pspec Demo.clip_all Demo.Lm_Seg_fit Demo.OLS Demo.WLS
             (Some (Plain (1 / 2))) true None None 2 false false
             Demo.start in
  (2 <= points_below Demo.x (Lm_Seg.brk (Demo.segmented (1 / 2))))%Z
  /\ r = (Ok tt, break_accepted Demo.x Demo.y (1 / 2)
                   (Demo.segmented (1 / 2)) Demo.with_cuts)
  /\ exists q, _brk (self (snd r)) = Some (Some q).
Proof.
  assert (Hge : (2 <= points_below Demo.x
                        (Lm_Seg.brk (Demo.segmented (1 / 2))))%Z).
  { simpl Lm_Seg.brk. rewrite demo_points_below. lia. }
  intros r. split; [ exact Hge | ].
  destruct (@fit_pspec_break_kept_iff_enough_points_below
              Demo.clip_all Demo.Lm_Seg_fit Demo.OLS Demo.WLS
              (Plain (1 / 2)) true None None 2 false Demo.start
              Demo.x Demo.y Demo.with_cuts (1 / 2) Demo.with_cuts
              (Demo.segmented (1 / 2))
              demo_fit_data demo_break_guess eq_refl eq_refl)
    as (Hiff & Hacc & _).
  split; [ exact (proj1 (Hacc Hge)) | exact (proj1 Hiff Hge) ].
Defined.

(** A weighted fit asked with a break guess on the demo object. *)
(** C2, counterexample.  On a radial profile without a bin the call with
    [weighted_fit=True] and a break guess ends in numpy's [ValueError] on
    the maximum of an empty array, raised at line 144 with [low_cut]
    already assigned: the check of the incompatible options at lines
    153-157 is not reached. *)
Lemma fit_pspec_weighted_with_break_on_empty_profile :
  fit_pspec Demo.clip_all Demo.Lm_Seg_fit Demo.OLS Demo.WLS
    (Some (Plain (1 / 2))) true None None 10 true false Demo.empty_start
  = (Raise (ValueError Msg.zero_size_max),
     update (set_low_cut (1 / (0.5 * INR 2))) Demo.empty_start)
  /\ ValueError Msg.zero_size_max <> ValueError Msg.wls_with_break
  /\ low_cut (self Demo.empty_start) = None.
Proof.
  split; [ reflexivity | ]. split; [ discriminate | reflexivity ].
Qed.

Lemma fit_pspec_weighted_with_break_raises_witness :
  fit_pspec Demo.clip_all Demo.Lm_Seg_fit Demo.OLS Demo.WLS
    (Some (Plain (1 / 2))) true None None 10 true false Demo.start
  = (Raise (ValueError Msg.wls_with_break), Demo.with_cuts).
Proof.
  destruct (@fit_pspec_weighted_with_break_raises
              Demo.clip_all Demo.Lm_Seg_fit Demo.OLS Demo.WLS
              Demo.start (Plain (1 / 2)) true None None 10%Z false)
    as (_ & Hrun & _).
  exact (Hrun (Demo.x, Demo.y) Demo.with_cuts demo_fit_data).
Defined.

(** C3 at a concrete input.  Every radial bin has standard deviation 10 and
    the cut-offs keep all three bins.  The weighted fit returns, and the
    weights handed to [sm.WLS] are 1 for each bin, one over the squared
    base-10 logarithm of 10, where the inverse square of the standard
    deviation would be 1/100. *)
Lemma fit_pspec_weights_at_stddev_10 :
  let r := fit_pspec Demo.clip_all Demo.Lm_Seg_fit Demo.OLS Demo.WLS
             None false None None 10 true false Demo.start in
  _ps1D_stddev (self Demo.start) = Some [10; 10; 10]
  /\ fst r = Ok tt
  /\ fitted (snd r) = [Call_WLS Demo.y Demo.x [1; 1; 1]]
  /\ map (fun sd => 1 / sd ^ 2) [10; 10; 10] = [1 / 100; 1 / 100; 1 / 100]
  /\ [1; 1; 1] <> [1 / 100; 1 / 100; 1 / 100].
Proof.
  intros r.
  destruct (@fit_pspec_weighted Demo.clip_all Demo.Lm_Seg_fit Demo.OLS
              Demo.WLS false None None 10%Z false Demo.start
              Demo.x Demo.y Demo.with_cuts [10; 10; 10] [1 / 10; 1; 10]
              (1 / (0.5 * INR 2)) (Rmax (Rmax (1 / 10) 1) 10)
              demo_fit_data eq_refl eq_refl eq_refl eq_refl eq_refl eq_refl)
    as (Hr & Hc).
  fold r in Hr, Hc.
  split; [ reflexivity | ]. split; [ now rewrite Hr | ]. split.
  - rewrite Hc. unfold wls_weights. simpl.
    rewrite log10_10. replace (1 / (1 * (1 * 1))) with 1 by lra.
    reflexivity.
  - split.
    + simpl. repeat f_equal; lra.
    + intros H. inversion H. lra.
Qed.

Lemma demo_set_cuts : set_cuts None None Demo.start = (Ok tt, Demo.with_cuts).
Proof. reflexivity. Qed.

Lemma demo_empty_mask :
  build_mask Demo.clip_none Demo.radial_freq_arrays false Demo.with_cuts
  = (Ok ([[false; false]; [false; false]],
         [[0; 0]; [1; 1]], [[0; 1]; [0; 1]]), Demo.with_cuts).
Proof. reflexivity. Qed.

(** Cut-offs that exclude every pixel of the 2x2 spectrum. *)
Lemma fit_2Dpspec_empty_mask_raises_witness :
  fit_2Dpspec Demo.clip_none Demo.radial_freq_arrays
    (Demo.ellip_fit 0.5 4) Demo.transform Demo.transform_stderr
    "LevMarq" [] None None true 100 false false false Demo.start
  = (Raise (ValueError Msg.empty_mask), Demo.with_cuts).
Proof.
  refine (proj1 (@fit_2Dpspec_empty_mask_raises
                   Demo.clip_none Demo.radial_freq_arrays
                   (Demo.ellip_fit 0.5 4) Demo.transform
                   Demo.transform_stderr
                   "LevMarq" [] None None true 100%Z false false false
                   Demo.start Demo.with_cuts
                   [[false; false]; [false; false]]
                   [[0; 0]; [1; 1]] [[0; 1]; [0; 1]] Demo.with_cuts
                   demo_set_cuts demo_empty_mask _)).
  intros row b Hrow Hb. simpl in Hrow.
  destruct Hrow as [<- | [<- | []]]; simpl in Hb;
    destruct Hb as [<- | [<- | []]]; reflexivity.
Defined.

(** With every pixel inside the cut-offs the 2D fit of the demo object
    returns, whatever ellipticity and angle the fitter reports. *)
Lemma demo_fit_2Dpspec_returns e theta :
  exists w',
    fit_2Dpspec Demo.clip_all Demo.radial_freq_arrays
      (Demo.ellip_fit e theta) Demo.transform Demo.transform_stderr
      "LevMarq" [] None None true 100 false false false Demo.start
    = (Ok tt, w').
Proof.
  eexists. rewrite surjective_pairing at 1. f_equal.
  run_python. destruct (Rlt_dec _ _); reflexivity.
Qed.



(** An ellipticity of 0.98 is warned about, one of 0.5 is not. *)
Lemma fit_2Dpspec_warns_iff_ellip2D_above_97_witness :
  (exists w',
     fit_2Dpspec Demo.clip_all Demo.radial_freq_arrays
       (Demo.ellip_fit 0.98 4) Demo.transform Demo.transform_stderr
       "LevMarq" [] None None true 100 false false false Demo.start
     = (Ok tt, w')
     /\ warned w' = [Msg.ellip_close_to_1]
     /\ _ellip2D (self w') = Some 0.98
     /\ _slope2D (self w') = Some (-3))
  /\ (exists w',
        fit_2Dpspec Demo.clip_all Demo.radial_freq_arrays
          (Demo.ellip_fit 0.5 4) Demo.transform Demo.transform_stderr
          "LevMarq" [] None None true 100 false false false Demo.start
        = (Ok tt, w')
        /\ warned w' = []
        /\ _ellip2D (self w') = Some 0.5
        /\ _slope2D (self w') = Some (-3)).
Proof.
  split.
  - destruct (demo_fit_2Dpspec_returns 0.98 4) as [w' H].
    destruct (@fit_2Dpspec_warns_iff_ellip2D_above_97
                Demo.clip_all Demo.radial_freq_arrays
                (Demo.ellip_fit 0.98 4)
                Demo.transform Demo.transform_stderr
                "LevMarq" [] None None true 100%Z false false false
                Demo.start w' H)
      as (z & xx & yy & p0' & r & p1 & p2 & p3
          & Hfit & Hp1 & Hp2 & Hp3 & _ & _ & Hyes & _ & He & _ & Hs & _).
    unfold Demo.ellip_fit in Hfit. inversion Hfit; subst r.
    simpl in Hp1, Hp3. inversion Hp1; subst p1. inversion Hp3; subst p3.
    exists w'. split; [ exact H | ].
    split; [ exact (Hyes eq_refl) | ]. split; [ exact He | exact Hs ].
  - destruct (demo_fit_2Dpspec_returns 0.5 4) as [w' H].
    destruct (@fit_2Dpspec_warns_iff_ellip2D_above_97
                Demo.clip_all Demo.radial_freq_arrays
                (Demo.ellip_fit 0.5 4)
                Demo.transform Demo.transform_stderr
                "LevMarq" [] None None true 100%Z false false false
                Demo.start w' H)
      as (z & xx & yy & p0' & r & p1 & p2 & p3
          & Hfit & Hp1 & Hp2 & Hp3 & _ & _ & _ & Hno & He & _ & Hs & _).
    unfold Demo.ellip_fit in Hfit. inversion Hfit; subst r.
    simpl in Hp1, Hp3. inversion Hp1; subst p1. inversion Hp3; subst p3.
    exists w'. split; [ exact H | ].
    split; [ exact (Hno eq_refl) | ]. split; [ exact He | exact Hs ].
Defined.


Lemma demo_run_without_stddev w :
  _ps2D (self w) = Some Demo.spectrum ->
  exists w',
    compute_radial_pspec Demo.radial_profile false false None [] w
    = (Ok tt, w').
Proof.
  intros Hg. eexists. rewrite surjective_pairing at 1. f_equal.
  assert (Hp : ps2D w = (Ok (rev Demo.spectrum), w)).
  { unfold ps2D.
    now rewrite (@bind_Ok _ _ _ _ _ _ _ (getattr_Some "_ps2D" _ _ Hg)). }
  unfold compute_radial_pspec.
  rewrite (@bind_Ok _ _ _ _ _ _ _ Hp). reflexivity.
Qed.

Lemma demo_run_with_stddev :
  exists w,
    compute_radial_pspec Demo.radial_profile true false None []
      Demo.bare_start = (Ok tt, w)
    /\ _ps2D (self w) = Some Demo.spectrum.
Proof. eexists. split; reflexivity. Qed.

(** On an object that never computed the standard deviation, and on one
    that computed it in an earlier run. *)
Lemma ps1D_stddev_after_run_without_stddev_witness :
  (exists w',
     compute_radial_pspec Demo.radial_profile false false None []
       Demo.bare_start = (Ok tt, w')
     /\ ps1D_stddev w' = (Raise (AttributeError "_ps1D_stddev"),
                          warning Msg.stddev_not_enabled w'))
  /\ (exists w w',
        compute_radial_pspec Demo.radial_profile true false None []
          Demo.bare_start = (Ok tt, w)
        /\ compute_radial_pspec Demo.radial_profile false false None [] w
           = (Ok tt, w')
        /\ ps1D_stddev w' = (Ok [10; 10; 10],
                             warning Msg.stddev_not_enabled w')).
Proof.
  split.
  - destruct (@demo_run_without_stddev Demo.bare_start eq_refl) as [w' H].
    exists w'. split; [ exact H | ].
    destruct (@ps1D_stddev_after_run_without_stddev
                Demo.radial_profile false None [] Demo.bare_start w' H)
      as (_ & _ & Hnone & _).
    exact (Hnone eq_refl).
  - destruct demo_run_with_stddev as (w & H1 & Hg).
    destruct (@demo_run_without_stddev w Hg) as [w' H2].
    exists w, w'. split; [ exact H1 | ]. split; [ exact H2 | ].
    destruct (@ps1D_stddev_after_run_without_stddev
                Demo.radial_profile false None [] w w' H2)
      as (_ & _ & _ & Hstale).
    destruct (Hstale false None [] Demo.bare_start H1)
      as (g & out & sd & Hg' & Hout & Hsd & Hacc).
    unfold Demo.radial_profile in Hout. inversion Hout; subst out.
    simpl in Hsd. inversion Hsd; subst sd. exact Hacc.
Defined.

(** Five, two and three knots. *)
Lemma break_spline_picks_the_knot_witness :
  (exists k,
     snd (break_spline (Demo.knots_of [-2; -1; 0; 1; 2]) [] [] []) = Ok k
     /\ In k [-2; -1; 0; 1; 2]
     /\ forall k', In k' [-2; -1; 0; 1; 2] ->
          Rabs (k - (-0.8)) <= Rabs (k' - (-0.8)))
  /\ snd (break_spline (Demo.knots_of [-2; 2]) [-2; 0; 2] [] []) = Ok (-2)
  /\ snd (break_spline (Demo.knots_of [-2; 0; 2]) [] [] []) = Ok 0.
Proof.
  split; [ | split ].
  - refine (proj1 (@break_spline_picks_the_knot
                     (Demo.knots_of [-2; -1; 0; 1; 2]) [] [] []
                     [-2; -1; 0; 1; 2] eq_refl) _).
    simpl. lia.
  - destruct (proj1 (proj2 (@break_spline_picks_the_knot
                              (Demo.knots_of [-2; 2]) [-2; 0; 2] [] []
                              [-2; 2] eq_refl)) eq_refl)
      as (k0 & k1 & Hk & Hres & _).
    inversion Hk; subst. exact Hres.
  - destruct (proj2 (proj2 (@break_spline_picks_the_knot
                              (Demo.knots_of [-2; 0; 2]) [] [] []
                              [-2; 0; 2] eq_refl)))
      as (a & k & b & Hk & Hres).
    + simpl. lia.
    + simpl. lia.
    + simpl. lia.
    + inversion Hk; subst. exact Hres.
Defined.

(** ** Further examples *)

(** A size of 5, with pixels of 2 degrees at a distance of 3 pc. *)
Lemma spatial_conversion_round_trip_witness :
  (q <- _to_pixel (Quantity 5 deg) ;; _spatial_unit_conversion q deg)
    Demo.located
  = (Ok (Quantity 5 deg), Demo.located)
  /\ (q <- _spatial_unit_conversion (Quantity 5 pix) deg ;; _to_pixel q)
       Demo.located
     = (Ok (Quantity 5 pix), Demo.located)
  /\ (q <- _to_pixel (Quantity 5 pc) ;; _spatial_unit_conversion q pc)
       Demo.located
     = (Ok (Quantity 5 pc), Demo.located)
  /\ (q <- _spatial_unit_conversion (Quantity 5 pix) pc ;; _to_pixel q)
       Demo.located
     = (Ok (Quantity 5 pix), Demo.located).
Proof.
  apply (@spatial_conversion_round_trip Demo.located 2 3 5 eq_refl eq_refl);
    lra.
Defined.

(** A frequency of 5 per degree is 10 per pixel of 2 degrees. *)
Lemma frequency_conversion_round_trip_witness :
  _to_pixel_freq (Quantity 5 (per pix)) Demo.located
  = (Ok (Quantity 5 (per pix)), Demo.located)
  /\ _to_pixel_freq (Quantity 5 (per deg)) Demo.located
     = (Ok (Quantity (5 * 2) (per pix)), Demo.located)
  /\ (q <- _to_pixel_freq (Quantity 5 (per deg)) ;;
      _spatial_freq_unit_conversion q (per deg)) Demo.located
     = (Ok (Quantity 5 (per deg)), Demo.located).
Proof.
  assert (H5 : 5 <> 0) by lra. assert (H2 : 2 <> 0) by lra.
  destruct (@frequency_conversion_round_trip Demo.located 5 H5) as [Hp Hd].
  destruct (Hd 2 eq_refl H2) as (Hto & Hback & _).
  split; [ exact Hp | ]. split; [ exact Hto | exact Hback ].
Defined.

(** The demo profile without a break guess. *)
Lemma fit_pspec_without_break_witness :
  fst (fit_pspec Demo.clip_all Demo.Lm_Seg_fit Demo.OLS Demo.WLS
         None false None None 10 false false Demo.start) = Ok tt
  /\ _brk (self (snd (fit_pspec Demo.clip_all Demo.Lm_Seg_fit Demo.OLS
                        Demo.WLS None false None None 10 false false
                        Demo.start))) = Some None
  /\ _slope (self (snd (fit_pspec Demo.clip_all Demo.Lm_Seg_fit Demo.OLS
                          Demo.WLS None false None None 10 false false
                          Demo.start))) = Some (Float (-1))
  /\ fitted (snd (fit_pspec Demo.clip_all Demo.Lm_Seg_fit Demo.OLS
                    Demo.WLS None false None None 10 false false
                    Demo.start)) = [Call_OLS Demo.y Demo.x].
Proof.
  destruct (@fit_pspec_without_break
              Demo.clip_all Demo.Lm_Seg_fit Demo.OLS Demo.WLS
              false None None 10%Z false Demo.start
              Demo.x Demo.y Demo.with_cuts demo_fit_data)
    as (Hbrk & _ & _ & Hfitted & Hres).
  destruct (Hres Demo.line (-1) 0 eq_refl eq_refl eq_refl)
    as (Hret & _ & Hslope & _).
  split; [ exact Hret | ]. split; [ exact Hbrk | ].
  split; [ exact Hslope | exact Hfitted ].
Defined.

(** [Lm_Seg] comes back with the model of a single line. *)
Lemma fit_pspec_failed_break_falls_back_witness :
  fst (fit_pspec Demo.clip_all Demo.Lm_Seg_fails Demo.OLS Demo.WLS
         (Some (Plain (1 / 2))) true None None 1 false false Demo.start)
  = Ok tt
  /\ _brk (self (snd (fit_pspec Demo.clip_all Demo.Lm_Seg_fails Demo.OLS
                        Demo.WLS (Some (Plain (1 / 2))) true None None 1
                        false false Demo.start))) = Some None
  /\ warned (snd (fit_pspec Demo.clip_all Demo.Lm_Seg_fails Demo.OLS
                    Demo.WLS (Some (Plain (1 / 2))) true None None 1
                    false false Demo.start)) = [Msg.break_failed]
  /\ fitted (snd (fit_pspec Demo.clip_all Demo.Lm_Seg_fails Demo.OLS
                    Demo.WLS (Some (Plain (1 / 2))) true None None 1
                    false false Demo.start))
     = [Call_Lm_Seg Demo.x Demo.y (1 / 2); Call_OLS Demo.y Demo.x].
Proof.
  assert (Hsize : Lm_Seg.params_size (Demo.unbroken (1 / 2)) <> 5%nat)
    by (simpl; lia).
  destruct (@fit_pspec_failed_break_falls_back
              Demo.clip_all Demo.Lm_Seg_fails Demo.OLS Demo.WLS
              (Plain (1 / 2)) true None None 1%Z false Demo.start
              Demo.x Demo.y Demo.with_cuts (1 / 2) Demo.with_cuts
              (Demo.unbroken (1 / 2))
              demo_fit_data demo_break_guess eq_refl Hsize)
    as (Hbrk & Hwarned & Hfitted & Hres).
  destruct (Hres Demo.line (-1) 0 eq_refl eq_refl eq_refl) as (Hret & _).
  split; [ exact Hret | ]. split; [ exact Hbrk | ].
  split; [ exact Hwarned | exact Hfitted ].
Defined.

(** The same call leaves the error of the break as it was. *)
Lemma fit_pspec_dropped_break_keeps_old_brk_err_witness :
  _brk (self (snd (fit_pspec Demo.clip_all Demo.Lm_Seg_fails Demo.OLS
                     Demo.WLS (Some (Plain (1 / 2))) true None None 1
                     false false Demo.start))) = Some None
  /\ _brk_err (self (snd (fit_pspec Demo.clip_all Demo.Lm_Seg_fails
                            Demo.OLS Demo.WLS (Some (Plain (1 / 2))) true
                            None None 1 false false Demo.start)))
     = _brk_err (self Demo.start).
Proof.
  assert (Hsize : Lm_Seg.params_size (Demo.unbroken (1 / 2)) <> 5%nat)
    by (simpl; lia).
  exact (@fit_pspec_dropped_break_keeps_old_brk_err
           Demo.clip_all Demo.Lm_Seg_fails Demo.OLS Demo.WLS
           (Plain (1 / 2)) true None None 1%Z false Demo.start
           Demo.x Demo.y Demo.with_cuts (1 / 2) Demo.with_cuts
           (Demo.unbroken (1 / 2))
           demo_fit_data demo_break_guess eq_refl (or_introl Hsize)).
Defined.

Lemma demo_fit_data_no_stddev :
  fit_data Demo.clip_all None None Demo.no_stddev
  = (Ok (Demo.x, Demo.y),
     update (set_high_cut (Rmax (Rmax (1 / 10) 1) 10))
       (update (set_low_cut (1 / (0.5 * INR 2))) Demo.no_stddev)).
Proof. reflexivity. Qed.

(** A weighted fit after a run without [return_stddev]. *)
Lemma fit_pspec_weighted_needs_stddev_witness :
  fit_pspec Demo.clip_all Demo.Lm_Seg_fit Demo.OLS Demo.WLS
    None false None None 10 true false Demo.no_stddev
  = (Raise (ValueError Msg.stddev_required),
     update (set_high_cut (Rmax (Rmax (1 / 10) 1) 10))
       (update (set_low_cut (1 / (0.5 * INR 2))) Demo.no_stddev)).
Proof.
  exact (proj1 (@fit_pspec_weighted_needs_stddev
                  Demo.clip_all Demo.Lm_Seg_fit Demo.OLS Demo.WLS
                  false None None 10%Z false Demo.no_stddev
                  (Demo.x, Demo.y) _ demo_fit_data_no_stddev eq_refl)).
Defined.

(** The 2x2 spectrum with frequencies 1/10, 1 and 10. *)
Lemma default_cuts_witness :
  exists m,
    In m [1 / 10; 1; 10]
    /\ (forall v, In v [1 / 10; 1; 10] -> v <= m)
    /\ set_cuts None None Demo.start
       = (Ok tt,
          update (set_high_cut m)
            (update (set_low_cut (1 / (0.5 * INR 2))) Demo.start)).
Proof.
  apply (proj1 (@default_cuts Demo.start Demo.spectrum [1 / 10; 1; 10]
                  eq_refl eq_refl)).
  discriminate.
Defined.

Lemma pixel_cuts_are_stored_as_given_witness :
  set_cuts (Some (Quantity (1 / 2) (per pix)))
    (Some (Quantity 5 (per pix))) Demo.located
  = (Ok tt,
     update (set_high_cut 5) (update (set_low_cut (1 / 2)) Demo.located)).
Proof.
  apply (@pixel_cuts_are_stored_as_given Demo.located (1 / 2) 5); lra.
Defined.

(** Without a 1D fit, the 2D fit of the demo object starts from the
    logarithm of the largest entry of the spectrum and a slope of -2. *)
Lemma fit_2Dpspec_initial_parameters_witness :
  exists w' z xx yy m,
    fit_2Dpspec Demo.clip_all Demo.radial_freq_arrays
      (Demo.ellip_fit 0.5 4) Demo.transform Demo.transform_stderr
      "LevMarq" [] None None true 100 false false false Demo.start
    = (Ok tt, w')
    /\ Grid.nanmax (rev Demo.spectrum) = Some m
    /\ fitted w'
       = [Call_fit_elliptical_powerlaw z xx yy [Np.log10 m; 0; PI / 2; -2]].
Proof.
  destruct (demo_fit_2Dpspec_returns 0.5 4) as [w' H].
  destruct (@fit_2Dpspec_initial_parameters
              Demo.clip_all Demo.radial_freq_arrays
              (Demo.ellip_fit 0.5 4) Demo.transform Demo.transform_stderr
              "LevMarq" [] None None true 100%Z false false false
              Demo.start w' H)
    as (z & xx & yy & p0' & Hfitted & _ & _ & Hdefault).
  destruct (Hdefault eq_refl eq_refl) as (g & m & Hg & Hm & Hp0).
  inversion Hg; subst g. subst p0'.
  exists w', z, xx, yy, m.
  split; [ exact H | ]. split; [ exact Hm | exact Hfitted ].
Defined.

(** A run with [return_stddev] on the object that holds only its 2D
    spectrum. *)
Lemma compute_radial_pspec_with_stddev_witness :
  exists w',
    compute_radial_pspec Demo.radial_profile true false None []
      Demo.bare_start = (Ok tt, w')
    /\ _freqs (self w') = Some [1 / 10; 1; 10]
    /\ ps1D_stddev w' = (Ok [10; 10; 10], w').
Proof.
  destruct demo_run_with_stddev as (w' & H & _).
  destruct (@compute_radial_pspec_with_stddev
              Demo.radial_profile false None [] Demo.bare_start w' H)
    as (g & out & sd & _ & Hout & Hsd & Hfreqs & _ & Hprop).
  unfold Demo.radial_profile in Hout. inversion Hout; subst out.
  simpl in Hsd. inversion Hsd; subst sd.
  exists w'. split; [ exact H | ]. split; [ exact Hfreqs | exact Hprop ].
Defined.

(** A length of 6 pc, with pixels of 2 degrees at a distance of 3 pc; on
    the object without a header the same call raises. *)
Lemma _to_pixel_returns_iff_convertible_witness :
  (exists v, fst (_to_pixel (Quantity 6 pc) Demo.located)
             = Ok (Quantity v pix))
  /\ ~ (exists v, fst (_to_pixel (Quantity 6 pc) Demo.start)
                  = Ok (Quantity v pix)).
Proof.
  split.
  - apply (proj1 (proj2 (@_to_pixel_returns_iff_convertible
                           (Quantity 6 pc) Demo.located))).
    simpl. split; discriminate.
  - intros H.
    apply (proj1 (proj2 (@_to_pixel_returns_iff_convertible
                           (Quantity 6 pc) Demo.start))) in H.
    simpl in H. destruct H as [H _]. now apply H.
Defined.

(** An angle of 1 and the same axis two half-turns back. *)
Lemma theta2D_is_an_axis_witness :
  Np.mod_ 1 Np.pi = 1
  /\ Np.mod_ (1 + IZR (-2) * Np.pi) Np.pi = Np.mod_ 1 Np.pi.
Proof.
  destruct (@theta2D_is_an_axis 1 (-2)) as (Hperiod & Hin & _).
  split; [ | exact Hperiod ].
  apply Hin. unfold Np.pi. pose proof PI2_1. lra.
Defined.

Lemma demo_masked_run :
  exists w',
    compute_radial_pspec Demo.radial_profile false false None []
      Demo.masked = (Ok tt, w').
Proof. apply demo_run_without_stddev. reflexivity. Qed.

(** A run without [theta_0] after one that left a mask, and the mask of
    the 2D fit on the object that still holds it. *)
Lemma azimuthal_mask_outlives_its_run_witness :
  (exists w',
     compute_radial_pspec Demo.radial_profile false false None []
       Demo.masked = (Ok tt, w')
     /\ _azim_constraint_flag (self w') = Some false
     /\ _azim_mask (self w') = Some [[true; false]; [false; true]])
  /\ build_mask Demo.clip_all Demo.radial_freq_arrays true Demo.masked
     = (Ok ([[true; false]; [false; true]],
            [[0; 0]; [1; 1]], [[0; 1]; [0; 1]]), Demo.masked)
  /\ exists mask0,
       build_mask Demo.clip_all Demo.radial_freq_arrays false Demo.masked
       = (Ok (mask0, [[0; 0]; [1; 1]], [[0; 1]; [0; 1]]), Demo.masked)
       /\ [[true; false]; [false; true]]
          = Grid.map2 andb mask0 [[true; false]; [false; true]].
Proof.
  destruct (@azimuthal_mask_outlives_its_run
              Demo.clip_all Demo.radial_profile Demo.radial_freq_arrays)
    as (Hrun & Hmask & _).
  assert (Hb : build_mask Demo.clip_all Demo.radial_freq_arrays true
                 Demo.masked
               = (Ok ([[true; false]; [false; true]],
                      [[0; 0]; [1; 1]], [[0; 1]; [0; 1]]), Demo.masked))
    by reflexivity.
  split; [ | split; [ exact Hb | ] ].
  - destruct demo_masked_run as [w' H]. exists w'.
    destruct (Hrun false false None [] Demo.masked w' eq_refl H)
      as [Hflag Hkept].
    split; [ exact H | ]. split; [ exact Hflag | exact Hkept ].
  - destruct (Hmask Demo.masked [[true; false]; [false; true]]
                [[true; false]; [false; true]]
                [[0; 0]; [1; 1]] [[0; 1]; [0; 1]] Demo.masked eq_refl Hb)
      as (mask0 & H0 & _ & Hand).
    exists mask0. split; [ exact H0 | exact Hand ].
Defined.

(** The demo object, whose profile cannot be computed. *)
Lemma compute_radial_pspec_fails_without_trace_witness :
  compute_radial_pspec Demo.no_profile true false None [] Demo.start
  = (Raise (Foreign "psds.pspec"), Demo.start).
Proof.
  exact (proj2 (@compute_radial_pspec_fails_without_trace
                  Demo.no_profile true false None [] Demo.start)
           Demo.spectrum (Foreign "psds.pspec") eq_refl eq_refl).
Defined.

(** * The functions on arrays *)

(** ** Sums *)

Lemma nansum_cons (v : option R) (l : list (option R)) :
  Nan.nansum (v :: l)
  = match v with Some x => x + Nan.nansum l | None => Nan.nansum l end.
Proof. destruct v; reflexivity. Qed.

Lemma finite_map_Some (l : list R) : Nan.finite (map Some l) = l.
Proof. induction l as [|v l IH]; simpl; [ | rewrite IH ]; reflexivity. Qed.

Lemma finite_option_map (f : R -> R) (l : list (option R)) :
  Nan.finite (map (option_map f) l) = map f (Nan.finite l).
Proof.
  induction l as [|[v|] l IH]; simpl; [ | rewrite IH | ]; auto.
Qed.

Lemma sum_app (l l' : list R) : Nan.sum (l ++ l') = Nan.sum l + Nan.sum l'.
Proof.
  induction l as [|v l IH]; simpl; [ | rewrite IH ]; lra.
Qed.

Lemma sum_nonneg (l : list R) : Forall (Rle 0) l -> 0 <= Nan.sum l.
Proof.
  induction 1 as [|v l Hv _ IH]; simpl; lra.
Qed.

Lemma sum_scaled (c : R) (l : list R) :
  Nan.sum (map (fun v => v / c) l) = Nan.sum l / c.
Proof.
  induction l as [|v l IH]; simpl; [ | rewrite IH ]; unfold Rdiv; ring.
Qed.

(** ** The Hellinger statistic *)

Lemma hellinger_sym (i j : list (option R)) : hellinger i j = hellinger j i.
Proof.
  unfold hellinger. do 2 f_equal. unfold Nan.nansum. f_equal.
  revert j; induction i as [|a i IH]; intros [|b j]; simpl; auto.
  rewrite IH. f_equal.
  destruct (Nan.sqrt a), (Nan.sqrt b); simpl; auto.
  f_equal. ring.
Qed.

Lemma same_shape_sym (A B : Type) (g : grid A) (h : grid B) :
  Grid.same_shape g h = Grid.same_shape h g.
Proof.
  unfold Grid.same_shape.
  destruct (list_eq_dec Nat.eq_dec (map (@List.length A) g)
              (map (@List.length B) h)),
           (list_eq_dec Nat.eq_dec (map (@List.length B) h)
              (map (@List.length A) g)); congruence.
Qed.

Lemma same_shape_refl (A : Type) (g : grid A) : Grid.same_shape g g = true.
Proof.
  unfold Grid.same_shape.
  destruct (list_eq_dec Nat.eq_dec (map (@List.length A) g)
              (map (@List.length A) g)); congruence.
Qed.

Lemma hellinger_same (a : list (option R)) : hellinger a a = 0.
Proof.
  unfold hellinger.
  assert (H : Nan.nansum
                (map (fun ab =>
                        Nan.lift2 (fun u v => (u - v) ^ 2)
                          (Nan.sqrt (fst ab)) (Nan.sqrt (snd ab)))
                     (combine a a)) = 0).
  { induction a as [|v a IH]; [ reflexivity | ].
    cbn [map combine fst snd]. rewrite nansum_cons, IH.
    destruct (Nan.sqrt v); simpl; ring. }
  rewrite H, sqrt_0. ring.
Qed.

(** X16. [hellinger_stat] does not depend on the order of its two arrays,
    whether it returns or fails. *)
Theorem hellinger_stat_symmetric (x y : ndarray) :
  hellinger_stat x y = hellinger_stat y x.
Proof.
  destruct x as [a|a], y as [b|b]; simpl; auto.
  - rewrite Nat.eqb_sym. destruct (Nat.eqb _ _); auto.
    now rewrite hellinger_sym.
  - rewrite same_shape_sym. destruct (Grid.same_shape b a); auto.
    do 2 f_equal.
    revert b; induction a as [|r a IH]; intros [|s b]; simpl; auto.
    f_equal; [ apply hellinger_sym | apply IH ].
Qed.

(** X17. The Hellinger statistic of an array with itself is 0: for a 1D
    array always (NaN entries and negative entries, whose root is NaN,
    drop out of the [nansum]), for a 2D array when it has a row (without
    rows the mean is NaN). *)
Theorem hellinger_stat_of_identical_arrays (a : list (option R))
  (g : grid (option R)) :
  hellinger_stat (Arr1 a) (Arr1 a) = Ok (Some 0)
  /\ (g <> [] -> hellinger_stat (Arr2 g) (Arr2 g) = Ok (Some 0))
  /\ hellinger_stat (Arr2 []) (Arr2 []) = Ok None.
Proof.
  split; [ | split ].
  - simpl. now rewrite Nat.eqb_refl, hellinger_same.
  - intros Hg. simpl. rewrite same_shape_refl.
    assert (H : forall h : grid (option R),
              map (fun rows => hellinger (fst rows) (snd rows)) (combine h h)
              = map (fun _ => 0) h).
    { induction h as [|r h IH]; simpl; [ | rewrite IH, hellinger_same ];
        reflexivity. }
    rewrite H. destruct g as [|r g]; [ congruence | ].
    assert (Hs : forall h : grid (option R),
               Nan.sum (map (fun _ => 0) h) = 0).
    { induction h as [|r' h IH]; simpl; [ | rewrite IH ]; lra. }
    unfold mean. rewrite Hs. cbn [map].
    do 2 f_equal. unfold Rdiv. ring.
  - reflexivity.
Qed.

Lemma hellinger_terms_bounded (p q : list R) :
  Forall (Rle 0) p -> Forall (Rle 0) q ->
  0 <= Nan.nansum
         (map (fun ab =>
                 Nan.lift2 (fun u v => (u - v) ^ 2)
                   (Nan.sqrt (fst ab)) (Nan.sqrt (snd ab)))
              (combine (map Some p) (map Some q)))
    <= Nan.sum p + Nan.sum q.
Proof.
  intros Hp; revert q; induction Hp as [|a p Ha Hp IH]; intros q Hq.
  - pose proof (sum_nonneg Hq).
    change (0 <= 0 <= 0 + Nan.sum q). lra.
  - destruct Hq as [|b q Hb Hq].
    + pose proof (sum_nonneg Hp).
      change (0 <= 0 <= (a + Nan.sum p) + 0). lra.
    + cbn [map combine fst snd].
      rewrite nansum_cons. specialize (IH q Hq).
      set (T := Nan.nansum _) in *.
      unfold Nan.sqrt.
      destruct (Rlt_dec a 0) as [Hlt|_]; [ lra | ].
      destruct (Rlt_dec b 0) as [Hlt|_]; [ lra | ].
      cbn [Nan.lift2].
      change (Nan.sum (a :: p)) with (a + Nan.sum p).
      change (Nan.sum (b :: q)) with (b + Nan.sum q).
      pose proof (sqrt_pos a) as Hsa. pose proof (sqrt_pos b) as Hsb.
      pose proof (sqrt_sqrt a Ha) as Ea. pose proof (sqrt_sqrt b Hb) as Eb.
      assert (0 <= (sqrt a - sqrt b) ^ 2) by (apply pow2_ge_0).
      assert ((sqrt a - sqrt b) ^ 2 <= a + b) by nra.
      lra.
Qed.

(** X18. For two distributions over the same bins (entries that are not
    negative, each array summing to 1) the Hellinger statistic lies
    between 0 and 1. *)
Theorem hellinger_stat_of_distributions (p q : list R) :
  List.length p = List.length q ->
  Forall (Rle 0) p -> Forall (Rle 0) q ->
  Nan.sum p = 1 -> Nan.sum q = 1 ->
  exists h, hellinger_stat (Arr1 (map Some p)) (Arr1 (map Some q))
            = Ok (Some h)
            /\ 0 <= h <= 1.
Proof.
  intros Hlen Hp Hq Sp Sq. simpl.
  rewrite !length_map, Hlen, Nat.eqb_refl.
  eexists; split; [ reflexivity | ].
  unfold hellinger.
  pose proof (hellinger_terms_bounded Hp Hq) as [H0 H2].
  rewrite Sp, Sq in H2.
  set (S := Nan.nansum _) in *.
  assert (Hs2 : 0 < sqrt 2) by (apply sqrt_lt_R0; lra).
  assert (HS : sqrt S <= sqrt 2) by (apply sqrt_le_1; lra).
  pose proof (sqrt_pos S) as HS0.
  split.
  - apply Rmult_le_pos; [ | exact HS0 ].
    apply Rlt_le, Rdiv_lt_0_compat; lra.
  - apply Rmult_le_reg_l with (r := sqrt 2); [ exact Hs2 | ].
    replace (sqrt 2 * (1 / sqrt 2 * sqrt S)) with (sqrt S)
      by (field; lra).
    lra.
Qed.

(** ** Standardizing *)

Lemma sum_shifted (mu sd : R) (l : list R) :
  Nan.sum (map (fun v => (v - mu) / sd) l)
  = (Nan.sum l - INR (List.length l) * mu) / sd.
Proof.
  induction l as [|v l IH]; [ simpl; unfold Rdiv; ring | ].
  cbn [map]. change (Nan.sum (?a :: ?b)) with (a + Nan.sum b).
  rewrite IH. cbn [List.length]. rewrite S_INR. unfold Rdiv. ring.
Qed.

Lemma sum_squares_nonneg (mu : R) (l : list R) :
  0 <= Nan.sum (map (fun v => (v - mu) ^ 2) l).
Proof.
  apply sum_nonneg. apply Forall_forall. intros x Hx.
  apply in_map_iff in Hx. destruct Hx as (v & <- & _). apply pow2_ge_0.
Qed.

Lemma sum_squares_scaled (mu sd : R) (l : list R) :
  sd <> 0 ->
  Nan.sum (map (fun v => (v - 0) ^ 2) (map (fun v => (v - mu) / sd) l))
  = Nan.sum (map (fun v => (v - mu) ^ 2) l) / (sd * sd).
Proof.
  intros Hsd.
  induction l as [|v l IH]; [ simpl; unfold Rdiv; ring | ].
  cbn [map]. change (Nan.sum (?a :: ?b)) with (a + Nan.sum b).
  rewrite IH. field. exact Hsd.
Qed.

Lemma nanmean_finite (l : list (option R)) :
  Nan.finite l <> [] ->
  Nan.nanmean l
  = Some (Nan.sum (Nan.finite l) / INR (List.length (Nan.finite l))).
Proof.
  unfold Nan.nanmean. destruct (Nan.finite l); congruence.
Qed.

Lemma nanmean_inv (l : list (option R)) (mu : R) :
  Nan.nanmean l = Some mu ->
  Nan.finite l <> []
  /\ mu = Nan.sum (Nan.finite l) / INR (List.length (Nan.finite l)).
Proof.
  unfold Nan.nanmean. destruct (Nan.finite l); [ discriminate | ].
  intros H. split; congruence.
Qed.

Lemma nanstd_inv (l : list (option R)) (sd : R) :
  Nan.nanstd l = Some sd ->
  exists mu,
    Nan.nanmean l = Some mu
    /\ sd = sqrt (Nan.sum (map (fun v => (v - mu) ^ 2) (Nan.finite l))
                  / INR (List.length (Nan.finite l))).
Proof.
  unfold Nan.nanstd. destruct (Nan.nanmean l) as [mu|] eqn:Hmean;
    [ | discriminate ].
  destruct (@nanmean_inv _ _ Hmean) as [Hne _].
  rewrite nanmean_finite by (rewrite finite_option_map;
                             destruct (Nan.finite l); simpl; congruence).
  rewrite finite_option_map, length_map. cbn [option_map].
  intros H. exists mu. split; congruence.
Qed.

(** X19. Standardizing an array whose deviation is not zero gives an array
    of the same length, with NaN in the same places, whose mean over the
    entries that are not NaN is 0 and whose deviation is 1 (in exact
    arithmetic). *)
Theorem standardize_has_mean_0_and_deviation_1 (x : list (option R))
  (sd : R) :
  Nan.nanstd x = Some sd -> sd <> 0 ->
  List.length (standardize x) = List.length x
  /\ (forall i, nth_error (standardize x) i = Some None
                <-> nth_error x i = Some None)
  /\ Nan.nanmean (standardize x) = Some 0
  /\ Nan.nanstd (standardize x) = Some 1.
Proof.
  intros Hstd Hsd. unfold standardize. rewrite Hstd.
  destruct (@nanstd_inv _ _ Hstd) as (mu & Hmean & Hvar).
  rewrite Hmean.
  destruct (@nanmean_inv _ _ Hmean) as [Hne Hmu].
  destruct (Req_dec_T sd 0) as [E|_]; [ contradiction | ].
  set (l := Nan.finite x) in *.
  set (y := map (option_map (fun v => (v - mu) / sd)) x).
  assert (Hy : Nan.finite y = map (fun v => (v - mu) / sd) l)
    by apply finite_option_map.
  assert (Hyne : Nan.finite y <> [])
    by (rewrite Hy; destruct l; simpl; congruence).
  assert (Hpos : 0 < INR (List.length l)).
  { apply lt_0_INR. destruct l; [ congruence | simpl; lia ]. }
  assert (Hn : INR (List.length l) <> 0) by lra.
  assert (Hm0 : Nan.nanmean y = Some 0).
  { rewrite nanmean_finite by exact Hyne. rewrite Hy.
    rewrite sum_shifted, length_map, Hmu. f_equal. field.
    split; assumption. }
  split; [ apply length_map | ]. split.
  { intros i. unfold y. rewrite nth_error_map.
    destruct (nth_error x i) as [[u|]|]; simpl; split; congruence. }
  split; [ exact Hm0 | ].
  unfold Nan.nanstd. rewrite Hm0.
  rewrite nanmean_finite
    by (rewrite finite_option_map; destruct (Nan.finite y); simpl;
        congruence).
  rewrite finite_option_map, length_map, Hy, length_map.
  cbn [option_map]. f_equal.
  rewrite sum_squares_scaled by exact Hsd.
  set (V := Nan.sum (map (fun v => (v - mu) ^ 2) l)) in *.
  assert (HV : 0 <= V) by apply sum_squares_nonneg.
  assert (Hq : 0 <= V / INR (List.length l)).
  { apply Rmult_le_pos; [ exact HV | ].
    apply Rlt_le, Rinv_0_lt_compat, Hpos. }
  assert (Hsq : sd * sd = V / INR (List.length l))
    by (rewrite Hvar; apply sqrt_sqrt, Hq).
  replace (V / (sd * sd) / INR (List.length l)) with 1.
  - apply sqrt_1.
  - rewrite Hsq. field. split; [ exact Hn | ].
    intros E. apply Hsd. rewrite Hvar.
    replace (V / INR (List.length l)) with 0; [ apply sqrt_0 | ].
    rewrite E. unfold Rdiv. ring.
Qed.

(** ** The distance between two dendrograms *)

(** X20. The distance on the number of features does not depend on the
    order of the two dendrograms; when the two errors are not both zero it
    is not negative, and it is zero exactly when the two slopes agree. *)
Theorem numfeature_stat_symmetric_and_zero_iff_equal_slopes
  (dendro1 dendro2 : Dendrogram_Stats) :
  numfeature_stat dendro1 dendro2 = numfeature_stat dendro2 dendro1
  /\ (tail_slope_err dendro1 <> 0 \/ tail_slope_err dendro2 <> 0 ->
      0 <= numfeature_stat dendro1 dendro2
      /\ (numfeature_stat dendro1 dendro2 = 0
          <-> tail_slope dendro1 = tail_slope dendro2)).
Proof.
  unfold numfeature_stat. split.
  - rewrite Rabs_minus_sym. do 2 f_equal. ring.
  - intros Herr.
    set (e1 := tail_slope_err dendro1) in *.
    set (e2 := tail_slope_err dendro2) in *.
    assert (Hpos : 0 < e1 ^ 2 + e2 ^ 2).
    { pose proof (pow2_ge_0 e1). pose proof (pow2_ge_0 e2).
      destruct Herr as [H1|H2].
      - assert (e1 ^ 2 <> 0) by (apply pow_nonzero, H1). lra.
      - assert (e2 ^ 2 <> 0) by (apply pow_nonzero, H2). lra. }
    assert (Hs : 0 < sqrt (e1 ^ 2 + e2 ^ 2)) by (apply sqrt_lt_R0, Hpos).
    pose proof (Rabs_pos (tail_slope dendro1 - tail_slope dendro2)) as Ha.
    split.
    + apply Rmult_le_pos; [ exact Ha | ].
      apply Rlt_le, Rinv_0_lt_compat, Hs.
    + split.
      * intros H0.
        apply Rmult_integral in H0. destruct H0 as [H0|H0].
        -- destruct (Req_dec_T (tail_slope dendro1 - tail_slope dendro2) 0)
             as [E|N]; [ lra | ].
           apply Rabs_no_R0 in N. contradiction.
        -- pose proof (Rinv_0_lt_compat _ Hs). lra.
      * intros ->. rewrite Rminus_diag, Rabs_R0. unfold Rdiv. ring.
Qed.

(** ** The cut-off on the number of features *)

Lemma argwhere_gt_In (a : list R) (m : R) (i j : nat) :
  In j (argwhere_gt a m i)
  <-> exists k v, j = (i + k)%nat /\ nth_error a k = Some v /\ m < v.
Proof.
  revert i; induction a as [|u a IH]; intros i; simpl.
  - split; [ tauto | ]. intros (k & v & _ & H & _). destruct k; discriminate.
  - unfold Np.gtb, Np.ltb. destruct (Rlt_dec m u) as [Hu|Hu]; simpl.
    + rewrite IH. split.
      * intros [<-|(k & v & -> & Hk & Hv)].
        -- exists O, u. split; [ lia | ]. split; [ reflexivity | exact Hu ].
        -- exists (S k), v. split; [ lia | ]. split; assumption.
      * intros ([|k] & v & -> & Hk & Hv).
        -- left. lia.
        -- right. exists k, v. split; [ lia | ]. split; assumption.
    + rewrite IH. split.
      * intros (k & v & -> & Hk & Hv).
        exists (S k), v. split; [ lia | ]. split; assumption.
      * intros ([|k] & v & -> & Hk & Hv).
        -- simpl in Hk. inversion Hk; subst. contradiction.
        -- exists k, v. split; [ lia | ]. split; assumption.
Qed.

Lemma last_In (l : list nat) (d : nat) : l <> [] -> In (last l d) l.
Proof.
  induction l as [|x l IH]; [ congruence | ]. intros _.
  destruct l as [|y l]; [ left; reflexivity | ].
  right. apply IH. discriminate.
Qed.

Lemma argwhere_gt_last (a : list R) (m : R) (i j : nat) :
  In j (argwhere_gt a m i) -> (j <= last (argwhere_gt a m i) O)%nat.
Proof.
  revert i; induction a as [|u a IH]; intros i; simpl; [ tauto | ].
  destruct (Np.gtb u m); [ | apply IH ].
  intros Hj. destruct (argwhere_gt a m (S i)) as [|x l] eqn:E.
  - destruct Hj as [<-|[]]. simpl. lia.
  - change (last (i :: x :: l) O) with (last (x :: l) O).
    destruct Hj as [<-|Hj].
    + assert (Hin : In (last (x :: l) O) (argwhere_gt a m (S i)))
        by (rewrite E; apply last_In; discriminate).
      apply argwhere_gt_In in Hin. destruct Hin as (k & v & Hk & _).
      rewrite Hk. lia.
    + rewrite <- E. apply IH. rewrite E. exact Hj.
Qed.

Lemma any_nonzero_argwhere (a : list R) (m : R) :
  any_nonzero (argwhere_gt a m 0) = true
  <-> exists k v, (1 <= k)%nat /\ nth_error a k = Some v /\ m < v.
Proof.
  unfold any_nonzero. rewrite existsb_exists. split.
  - intros (j & Hj & Hnz). apply argwhere_gt_In in Hj.
    destruct Hj as (k & v & -> & Hk & Hv). exists k, v.
    split; [ | split; assumption ].
    destruct k; [ discriminate | lia ].
  - intros (k & v & Hk1 & Hk & Hv). exists k. split.
    + apply argwhere_gt_In. exists k, v. split; [ reflexivity | ].
      split; assumption.
    + destruct k; [ lia | reflexivity ].
Qed.

(** X21. The cut-off is computed exactly when each of the two dendrograms
    has more than [min_features] features at some level other than the
    first one: [any()] is taken of the positions, and position 0 counts as
    false.  Otherwise the [ValueError] names the first cube that lacks such
    a level. *)
Theorem cutoff_needs_a_level_beyond_the_first
  (dendro1 dendro2 : Dendrogram_Stats) (min_features : Z) :
  let enough (d : Dendrogram_Stats) :=
    exists k v, (1 <= k)%nat /\ nth_error (numfeatures d) k = Some v
                /\ IZR min_features < v in
  ((exists c, cutoff dendro1 dendro2 min_features = Ok c)
   <-> enough dendro1 /\ enough dendro2)
  /\ (~ enough dendro1 ->
      cutoff dendro1 dendro2 min_features
      = Raise (ValueError (too_few_features "cube1" min_features)))
  /\ (enough dendro1 -> ~ enough dendro2 ->
      cutoff dendro1 dendro2 min_features
      = Raise (ValueError (too_few_features "cube2" min_features))).
Proof.
  intros enough. unfold cutoff.
  pose proof (any_nonzero_argwhere (numfeatures dendro1) (IZR min_features))
    as H1.
  pose proof (any_nonzero_argwhere (numfeatures dendro2) (IZR min_features))
    as H2.
  fold (enough dendro1) in H1. fold (enough dendro2) in H2.
  destruct (any_nonzero (argwhere_gt (numfeatures dendro1) _ 0));
    destruct (any_nonzero (argwhere_gt (numfeatures dendro2) _ 0)).
  - split; [ split | split ].
    + intros _. split; [ apply H1 | apply H2 ]; reflexivity.
    + intros _. eexists; reflexivity.
    + intros N. exfalso. apply N, H1. reflexivity.
    + intros _ N. exfalso. apply N, H2. reflexivity.
  - split; [ split | split ].
    + intros [c Hc]. discriminate.
    + intros [_ E]. apply H2 in E. discriminate.
    + intros N. exfalso. apply N, H1. reflexivity.
    + reflexivity.
  - split; [ split | split ].
    + intros [c Hc]. discriminate.
    + intros [E _]. apply H1 in E. discriminate.
    + reflexivity.
    + intros E. apply H1 in E. discriminate.
  - split; [ split | split ].
    + intros [c Hc]. discriminate.
    + intros [E _]. apply H1 in E. discriminate.
    + reflexivity.
    + intros E. apply H1 in E. discriminate.
Qed.

(** X22. A cut-off that is computed is a level other than the first, at
    which one of the two dendrograms has more than [min_features]
    features, and beyond which they never both have. *)
Theorem cutoff_is_the_smaller_of_the_last_levels
  (dendro1 dendro2 : Dendrogram_Stats) (min_features : Z) (c : nat) :
  cutoff dendro1 dendro2 min_features = Ok c ->
  (1 <= c)%nat
  /\ ((exists v, nth_error (numfeatures dendro1) c = Some v
                 /\ IZR min_features < v)
      \/ (exists v, nth_error (numfeatures dendro2) c = Some v
                    /\ IZR min_features < v))
  /\ (forall k v1 v2,
        (c < k)%nat ->
        nth_error (numfeatures dendro1) k = Some v1 ->
        nth_error (numfeatures dendro2) k = Some v2 ->
        ~ (IZR min_features < v1 /\ IZR min_features < v2)).
Proof.
  unfold cutoff.
  set (l1 := argwhere_gt (numfeatures dendro1) (IZR min_features) 0).
  set (l2 := argwhere_gt (numfeatures dendro2) (IZR min_features) 0).
  destruct (any_nonzero l1) eqn:A1; [ | discriminate ].
  destruct (any_nonzero l2) eqn:A2; [ | discriminate ].
  intros H. inversion H as [Hc]. clear H.
  assert (nonzero : forall l, any_nonzero l = true ->
            exists j, In j l /\ (1 <= j)%nat).
  { intros l Hl. apply existsb_exists in Hl. destruct Hl as (j & Hj & Hnz).
    exists j. split; [ exact Hj | ]. destruct j; [ discriminate | lia ]. }
  destruct (nonzero _ A1) as (j1 & Hj1 & Hp1).
  destruct (nonzero _ A2) as (j2 & Hj2 & Hp2).
  pose proof (@argwhere_gt_last _ _ _ _ Hj1) as Hl1. fold l1 in Hl1.
  pose proof (@argwhere_gt_last _ _ _ _ Hj2) as Hl2. fold l2 in Hl2.
  assert (Hin1 : In (last l1 O) l1)
    by (apply last_In; intros E; rewrite E in Hj1; destruct Hj1).
  assert (Hin2 : In (last l2 O) l2)
    by (apply last_In; intros E; rewrite E in Hj2; destruct Hj2).
  split; [ lia | ]. split.
  - destruct (Nat.min_spec (last l1 O) (last l2 O)) as [[_ ->]|[_ ->]].
    + left. apply argwhere_gt_In in Hin1.
      destruct Hin1 as (k & v & -> & Hk & Hv). exists v. split; assumption.
    + right. apply argwhere_gt_In in Hin2.
      destruct Hin2 as (k & v & -> & Hk & Hv). exists v. split; assumption.
  - intros k v1 v2 Hk Hv1 Hv2 [G1 G2].
    assert (K1 : In k l1)
      by (apply argwhere_gt_In; exists k, v1; split; [ reflexivity | ];
          split; assumption).
    assert (K2 : In k l2)
      by (apply argwhere_gt_In; exists k, v2; split; [ reflexivity | ];
          split; assumption).
    pose proof (@argwhere_gt_last _ _ _ _ K1) as L1. fold l1 in L1.
    pose proof (@argwhere_gt_last _ _ _ _ K2) as L2. fold l2 in L2.
    lia.
Qed.

(** ** The distribution function of each row *)

Lemma total_Some (l : list R) : total (map Some l) = Some (Nan.sum l).
Proof.
  induction l as [|v l IH]; [ reflexivity | ].
  cbn [map total fold_right] in *. unfold total in IH. now rewrite IH.
Qed.

Lemma total_nan (l : list (option R)) : In None l -> total l = None.
Proof.
  induction l as [|v l IH]; [ intros [] | ].
  intros [->|H]; cbn [total fold_right]; [ reflexivity | ].
  unfold total in IH. rewrite (IH H). now destruct v.
Qed.

Lemma cumsum_from_nan (l : list (option R)) :
  cumsum_from None l = map (fun _ => None) l.
Proof.
  induction l as [|v l IH]; [ reflexivity | ].
  cbn [cumsum_from map Nan.lift2]. now rewrite IH.
Qed.

Lemma cumsum_from_length (acc : option R) (l : list (option R)) :
  List.length (cumsum_from acc l) = List.length l.
Proof.
  revert acc; induction l as [|v l IH]; intros acc; simpl;
    [ | rewrite IH ]; reflexivity.
Qed.

Lemma cumsum_from_nth (acc : R) (l : list R) (k : nat) (b : option R) :
  nth_error (cumsum_from (Some acc) (map Some l)) k = Some b ->
  b = Some (acc + Nan.sum (firstn (S k) l)).
Proof.
  revert acc k; induction l as [|v l IH]; intros acc k H.
  - destruct k; discriminate.
  - destruct k as [|k].
    + simpl in H. inversion H. simpl. f_equal. ring.
    + cbn [map cumsum_from nth_error Nan.lift2] in H.
      apply IH in H. rewrite H.
      change (firstn (S (S k)) (v :: l)) with (v :: firstn (S k) l).
      change (Nan.sum (v :: firstn (S k) l))
        with (v + Nan.sum (firstn (S k) l)).
      f_equal. ring.
Qed.

Lemma cumsum_from_last (acc : R) (l : list R) (d : option R) :
  l <> [] ->
  last (cumsum_from (Some acc) (map Some l)) d = Some (acc + Nan.sum l).
Proof.
  revert acc; induction l as [|v l IH]; intros acc Hne; [ congruence | ].
  destruct l as [|u l].
  - simpl. f_equal. ring.
  - change (last (cumsum_from (Some acc) (map Some (v :: u :: l))) d)
      with (last (cumsum_from (Some (acc + v)) (map Some (u :: l))) d).
    rewrite IH by discriminate.
    change (Nan.sum (v :: u :: l)) with (v + Nan.sum (u :: l)).
    f_equal. ring.
Qed.

Lemma firstn_nonneg (l : list R) (i : nat) :
  Forall (Rle 0) l -> Forall (Rle 0) (firstn i l).
Proof.
  intros Hl; revert i; induction Hl as [|v l Hv Hl IH]; intros [|i];
    simpl; constructor; auto.
Qed.

Lemma sum_firstn_mono (l : list R) (i j : nat) :
  Forall (Rle 0) l -> (i <= j)%nat ->
  0 <= Nan.sum (firstn i l) <= Nan.sum (firstn j l).
Proof.
  intros Hl; revert i j; induction Hl as [|v l Hv Hl IH]; intros i j Hij.
  - rewrite !firstn_nil. simpl. lra.
  - destruct i as [|i].
    + split; [ simpl; lra | ]. simpl firstn at 1.
      change (Nan.sum []) with 0.
      apply sum_nonneg, firstn_nonneg. constructor; assumption.
    + destruct j as [|j]; [ lia | ].
      cbn [firstn].
      change (Nan.sum (v :: ?t)) with (v + Nan.sum t).
      specialize (IH i j ltac:(lia)). lra.
Qed.

Lemma sum_firstn_le (l : list R) (i : nat) :
  Forall (Rle 0) l -> Nan.sum (firstn i l) <= Nan.sum l.
Proof.
  intros Hl.
  destruct (Nat.le_ge_cases i (List.length l)) as [H|H].
  - rewrite <- (firstn_all l) at 2. apply sum_firstn_mono; assumption.
  - rewrite firstn_all2 by exact H. lra.
Qed.

Lemma mecdf_finite_row (arr : grid (option R)) (n : nat) (row : list R) :
  nth_error arr n = Some (map Some row) -> Nan.sum row <> 0 ->
  nth_error (mecdf arr) n
  = Some (cumsum (map Some (map (fun v => v / Nan.sum row) row))).
Proof.
  intros H Hsum. unfold mecdf. rewrite nth_error_map, H. cbn [option_map].
  do 2 f_equal. rewrite total_Some, !map_map. apply map_ext.
  intros v. unfold divide. now destruct (Req_dec_T (Nan.sum row) 0).
Qed.

(** X23. For a row without NaN that has an entry and a sum other than
    zero, the row of [mecdf] has the same length and ends at 1 (in exact
    arithmetic). *)
Theorem mecdf_rows_end_at_1 (arr : grid (option R)) (n : nat)
  (row : list R) :
  nth_error arr n = Some (map Some row) -> row <> [] -> Nan.sum row <> 0 ->
  exists ecdf,
    nth_error (mecdf arr) n = Some ecdf
    /\ List.length ecdf = List.length row
    /\ last ecdf None = Some 1.
Proof.
  intros Hrow Hne Hsum. eexists.
  split; [ exact (@mecdf_finite_row arr n row Hrow Hsum) | ].
  unfold cumsum. split.
  - now rewrite cumsum_from_length, !length_map.
  - rewrite cumsum_from_last by (destruct row; simpl; congruence).
    rewrite sum_scaled. f_equal. field. exact Hsum.
Qed.

(** X24. For a row of entries that are not negative, with a positive sum,
    the row of [mecdf] is a distribution function: its entries are
    numbers that start at or above 0, never decrease and stay at or below
    1. *)
Theorem mecdf_rows_are_distribution_functions
  (arr : grid (option R)) (n : nat) (row : list R)
  (ecdf : list (option R)) :
  nth_error arr n = Some (map Some row) ->
  Forall (Rle 0) row -> 0 < Nan.sum row ->
  nth_error (mecdf arr) n = Some ecdf ->
  forall i j a b,
    (i <= j)%nat ->
    nth_error ecdf i = Some a -> nth_error ecdf j = Some b ->
    exists a' b', a = Some a' /\ b = Some b'
                  /\ 0 <= a' /\ a' <= b' /\ b' <= 1.
Proof.
  intros Hrow Hpos Hsum Hecdf i j a b Hij Ha Hb.
  rewrite (@mecdf_finite_row arr n row Hrow ltac:(lra)) in Hecdf.
  inversion Hecdf; subst ecdf.
  unfold cumsum in Ha, Hb.
  apply cumsum_from_nth in Ha. apply cumsum_from_nth in Hb.
  set (p := map (fun v => v / Nan.sum row) row) in *.
  assert (Hp : Forall (Rle 0) p).
  { apply Forall_forall. intros x Hx. apply in_map_iff in Hx.
    destruct Hx as (v & <- & Hv).
    apply Rmult_le_pos;
      [ exact (proj1 (Forall_forall _ _) Hpos v Hv)
      | apply Rlt_le, Rinv_0_lt_compat, Hsum ]. }
  assert (H1 : Nan.sum p = 1)
    by (unfold p; rewrite sum_scaled; field; lra).
  pose proof (@sum_firstn_mono p (S i) (S j) Hp ltac:(lia)) as [M0 M1].
  pose proof (@sum_firstn_le p (S j) Hp) as M2.
  eexists _, _. split; [ exact Ha | ]. split; [ exact Hb | ]. lra.
Qed.

(** X25. One NaN in a row, such as the padding of a histogram with fewer
    bins than the widest one, makes the whole row of [mecdf] NaN. *)
Theorem mecdf_loses_rows_with_nan (arr : grid (option R)) (n : nat)
  (row : list (option R)) :
  nth_error arr n = Some row -> In None row ->
  nth_error (mecdf arr) n = Some (map (fun _ => None) row).
Proof.
  intros Hrow Hnan. unfold mecdf. rewrite nth_error_map, Hrow.
  cbn [option_map]. f_equal. rewrite (@total_nan row Hnan).
  assert (Hd : map (fun v => divide v None) row = map (fun _ => None) row)
    by (apply map_ext; intros [v|]; reflexivity).
  rewrite Hd. destruct row as [|v row]; [ reflexivity | ].
  unfold cumsum. cbn [map cumsum_from Nan.lift2].
  now rewrite cumsum_from_nan, map_map.
Qed.

(** ** Clipping the histogram for the Tsallis fit *)

Lemma take_where (A : Type) (mask : list bool) :
  forall (pre a : list A),
    (List.length mask <= List.length a)%nat ->
    take (pre ++ a)
      (flat_map (fun ib => if snd ib : bool then [fst ib] else [])
         (combine (seq (List.length pre) (List.length mask)) mask))
    = Ok (Np.compress a mask).
Proof.
  induction mask as [|b mask IH]; intros pre a Hlen.
  - simpl. destruct a; reflexivity.
  - destruct a as [|v a]; [ simpl in Hlen; lia | ].
    cbn [List.length seq combine flat_map fst snd].
    specialize (IH (pre ++ [v]) a ltac:(simpl in Hlen; lia)).
    rewrite <- app_assoc, length_app in IH. cbn [List.length app] in IH.
    rewrite Nat.add_1_r in IH.
    destruct b.
    + cbn [app take Np.compress].
      rewrite nth_error_app2 by lia. rewrite Nat.sub_diag.
      cbn [nth_error]. now rewrite IH.
    + cbn [app Np.compress]. exact IH.
Qed.

Lemma take_where_true (A : Type) (a : list A) (mask : list bool) :
  (List.length mask <= List.length a)%nat ->
  take a (where_true mask) = Ok (Np.compress a mask).
Proof.
  intros H. exact (@take_where A mask [] a H).
Qed.

Lemma compress_all (A : Type) (a : list A) (mask : list bool) :
  List.length mask = List.length a ->
  Forall (fun b => b = true) mask ->
  Np.compress a mask = a.
Proof.
  intros Hlen Hall; revert a Hlen.
  induction Hall as [|b mask -> _ IH]; intros [|v a] Hlen;
    try discriminate; [ reflexivity | ].
  simpl. f_equal. apply IH. simpl in Hlen. lia.
Qed.

(** X26. With a positive [sigma] nothing is clipped by its abscissa: every
    number is below [sigma] or above [-sigma].  What is left of two arrays
    of one length is the points whose ordinate is finite. *)
Theorem clip_to_sigma_with_positive_sigma_keeps_all_finite_points
  (x : list R) (y : list (option R)) (sigma : R) :
  List.length x = List.length y -> 0 < sigma ->
  clip_to_sigma x y sigma
  = Ok (Np.compress x
          (map (fun v => match v with Some _ => true | None => false end) y),
        Nan.finite y).
Proof.
  intros Hlen Hsigma. unfold clip_to_sigma.
  set (mask := map _ x).
  assert (Hall : Forall (fun b => b = true) mask).
  { apply Forall_forall. intros b Hb. apply in_map_iff in Hb.
    destruct Hb as (v & <- & _). unfold Np.gtb, Np.ltb.
    destruct (Rlt_dec v sigma); [ reflexivity | ].
    destruct (Rlt_dec (- sigma) v); [ reflexivity | lra ]. }
  assert (Hm : List.length mask = List.length x) by apply length_map.
  rewrite !take_where_true by lia.
  rewrite (@compress_all _ x mask Hm Hall).
  rewrite (@compress_all _ y mask ltac:(lia) Hall).
  reflexivity.
Qed.

(** ** The distance between two sets of Tsallis fits *)

Lemma column_raises (k : nat) (table : grid R) (e : exn) :
  column k table = Raise e -> e = IndexError.
Proof.
  induction table as [|row table IH]; simpl; [ discriminate | ].
  destruct (nth_error row k); [ | congruence ].
  destruct (column k table); [ discriminate | ].
  intros H. inversion H; subst. now apply IH.
Qed.

Lemma column_length (k : nat) (table : grid R) (c : list R) :
  column k table = Ok c -> List.length c = List.length table.
Proof.
  revert c; induction table as [|row table IH]; simpl; intros c H.
  - now inversion H.
  - destruct (nth_error row k); [ | discriminate ].
    destruct (column k table); [ | discriminate ].
    inversion H. simpl. f_equal. now apply IH.
Qed.

Lemma normalized_diff_sym (a b : R) :
  normalized_diff a b = normalized_diff b a.
Proof. unfold normalized_diff. f_equal; ring. Qed.

Lemma normalized_diff_bounds (a b : R) :
  a <> 0 \/ b <> 0 -> 0 <= normalized_diff a b <= 2.
Proof.
  intros H. unfold normalized_diff.
  assert (Hpos : 0 < a ^ 2 + b ^ 2).
  { pose proof (pow2_ge_0 a). pose proof (pow2_ge_0 b).
    destruct H as [H|H].
    - assert (a ^ 2 <> 0) by (apply pow_nonzero, H). lra.
    - assert (b ^ 2 <> 0) by (apply pow_nonzero, H). lra. }
  pose proof (pow2_ge_0 (a - b)). pose proof (pow2_ge_0 (a + b)).
  split.
  - apply Rmult_le_pos; [ assumption | ].
    apply Rlt_le, Rinv_0_lt_compat, Hpos.
  - apply Rmult_le_reg_r with (r := a ^ 2 + b ^ 2); [ exact Hpos | ].
    replace ((a - b) ^ 2 / (a ^ 2 + b ^ 2) * (a ^ 2 + b ^ 2))
      with ((a - b) ^ 2) by (field; lra).
    nra.
Qed.

Lemma normalized_diffs_sym (u v : list R) :
  normalized_diffs u v = normalized_diffs v u.
Proof.
  assert (Hc : forall u v : list R,
            map (fun p => normalized_diff (fst p) (snd p)) (combine u v)
            = map (fun p => normalized_diff (fst p) (snd p)) (combine v u)).
  { clear u v. induction u as [|a u IH]; intros [|b v]; simpl; auto.
    f_equal; [ apply normalized_diff_sym | apply IH ]. }
  assert (Hm : forall (x : R) (l : list R),
            map (fun y => normalized_diff x y) l
            = map (fun y => normalized_diff y x) l).
  { intros x l. apply map_ext. intros y. apply normalized_diff_sym. }
  unfold normalized_diffs. rewrite (Nat.eqb_sym (List.length v)).
  destruct (Nat.eqb (List.length u) (List.length v)) eqn:E;
    [ now rewrite Hc | ].
  destruct u as [|x [|x' u]], v as [|y [|y' v]];
    try discriminate; try reflexivity; now rewrite Hm.
Qed.

(** X27. The Tsallis distance does not depend on the order of the two
    data sets, whether it is computed or an exception is raised. *)
Theorem tsallis_distance_symmetric (params1 params2 : grid R) :
  tsallis_distance params1 params2 = tsallis_distance params2 params1.
Proof.
  unfold tsallis_distance.
  destruct (column 1 params1) as [w1|e1] eqn:W1;
    destruct (column 1 params2) as [w2|e2] eqn:W2;
    destruct (column 2 params1) as [q1|e3] eqn:Q1;
    destruct (column 2 params2) as [q2|e4] eqn:Q2;
    repeat match goal with
           | H : column _ _ = Raise _ |- _ =>
               apply column_raises in H; subst
           end; try reflexivity.
  rewrite (normalized_diffs_sym w2 w1), (normalized_diffs_sym q2 q1).
  apply column_length in W1, W2, Q1, Q2.
  unfold normalized_diffs.
  replace (List.length q1) with (List.length w1) by congruence.
  replace (List.length q2) with (List.length w2) by congruence.
  destruct (Nat.eqb (List.length w1) (List.length w2)) eqn:E;
    [ reflexivity | ].
  destruct w1 as [|a [|a' w1]], w2 as [|b [|b' w2]],
           q1 as [|c [|c' q1]], q2 as [|d [|d' q2]];
    try discriminate; try reflexivity;
    simpl in W1, W2, Q1, Q2; congruence.
Qed.

Lemma column_Ok (k : nat) (table : grid R) (c : list R) :
  column k table = Ok c -> c = map (fun row => nth k row 0) table.
Proof.
  revert c; induction table as [|row table IH]; simpl; intros c H.
  - now inversion H.
  - destruct (nth_error row k) as [v|] eqn:E; [ | discriminate ].
    destruct (column k table) as [vs|]; [ | discriminate ].
    inversion H. f_equal.
    + symmetry. now apply nth_error_nth.
    + now apply IH.
Qed.

(** X28. For two tables with one row per lag, when in no lag the two
    widths are both zero, nor the two exponents, a Tsallis distance that
    is computed lies between 0 and four times the number of lags. *)
Theorem tsallis_distance_bounds (params1 params2 : grid R) (d : R) :
  Forall2 (fun row1 row2 =>
             (nth 1 row1 0 <> 0 \/ nth 1 row2 0 <> 0)
             /\ (nth 2 row1 0 <> 0 \/ nth 2 row2 0 <> 0))
          params1 params2 ->
  tsallis_distance params1 params2 = Ok d ->
  0 <= d <= 4 * INR (List.length params1).
Proof.
  intros Hrows. unfold tsallis_distance.
  destruct (column 1 params1) as [w1|] eqn:W1; [ | discriminate ].
  destruct (column 1 params2) as [w2|] eqn:W2;
    [ | destruct (column 2 params1); discriminate ].
  destruct (column 2 params1) as [q1|] eqn:Q1; [ | discriminate ].
  destruct (column 2 params2) as [q2|] eqn:Q2; [ | discriminate ].
  apply column_Ok in W1, W2, Q1, Q2. subst w1 w2 q1 q2.
  unfold normalized_diffs. rewrite !length_map.
  rewrite (Forall2_length Hrows), Nat.eqb_refl.
  intros H. inversion H as [Hd]. clear H Hd d.
  induction Hrows as [|row1 row2 params1 params2 [Hw Hq] _ IH].
  - simpl. lra.
  - cbn [map combine fst snd].
    change (Nan.sum (?a :: ?b)) with (a + Nan.sum b).
    cbn [List.length]. rewrite S_INR.
    pose proof (@normalized_diff_bounds _ _ Hw).
    pose proof (@normalized_diff_bounds _ _ Hq).
    lra.
Qed.

(** ** Clipping the genus curve *)

Lemma enumerate_from_nth (A : Type) (l : list A) (s i : nat) :
  nth_error (combine (seq s (List.length l)) l) i
  = option_map (fun v => ((s + i)%nat, v)) (nth_error l i).
Proof.
  revert s i; induction l as [|v l IH]; intros s i.
  - destruct i; reflexivity.
  - destruct i as [|i]; cbn [List.length seq combine nth_error].
    + now rewrite Nat.add_0_r.
    + rewrite IH. now rewrite Nat.add_succ_r.
Qed.

Lemma enumerate_nth (A : Type) (l : list A) (i : nat) :
  nth_error (enumerate l) i = option_map (fun v => (i, v)) (nth_error l i).
Proof. exact (@enumerate_from_nth A l 0 i). Qed.

Lemma enumerate_In (A : Type) (l : list A) (i : nat) (v : A) :
  In (i, v) (enumerate l) <-> nth_error l i = Some v.
Proof.
  split.
  - intros H. apply In_nth_error in H. destruct H as [k Hk].
    rewrite enumerate_nth in Hk.
    destruct (nth_error l k) as [u|] eqn:E; [ | discriminate ].
    simpl in Hk. inversion Hk; subst. exact E.
  - intros H. apply nth_error_In with (n := i).
    now rewrite enumerate_nth, H.
Qed.

Lemma zeros_In (genus_curve : list R) (i : nat) :
  In i (zeros genus_curve) <-> nth_error genus_curve i = Some 0.
Proof.
  unfold zeros. rewrite in_flat_map. split.
  - intros ([k v] & Hin & Hi). cbn [fst snd] in Hi.
    destruct (Req_dec_T v 0) as [->|]; [ | destruct Hi ].
    destruct Hi as [<-|[]]. now apply enumerate_In.
  - intros H. exists (i, 0). split; [ now apply enumerate_In | ].
    cbn [fst snd]. destruct (Req_dec_T 0 0); [ now left | congruence ].
Qed.

Lemma set_nan_nth (genus_curve : list R) (section : list nat) (i : nat) :
  nth_error (set_nan genus_curve section) i
  = option_map (fun v => if existsb (Nat.eqb i) section then None
                         else Some v)
               (nth_error genus_curve i).
Proof.
  unfold set_nan. rewrite nth_error_map, enumerate_nth.
  now destruct (nth_error genus_curve i).
Qed.

Lemma groupby_from_concat (A : Type) (key : A -> Z) (l : list A) :
  forall (k : Z) (run : list A),
    List.concat (groupby_from key k run l) = rev run ++ l.
Proof.
  induction l as [|a l IH]; intros k run; cbn [groupby_from].
  - simpl. reflexivity.
  - destruct (Z.eqb (key a) k).
    + rewrite IH. cbn [rev]. now rewrite <- app_assoc.
    + cbn [List.concat]. rewrite IH. reflexivity.
Qed.

Lemma groupby_concat (A : Type) (key : A -> Z) (l : list A) :
  List.concat (groupby key l) = l.
Proof.
  destruct l as [|a l]; [ reflexivity | ].
  unfold groupby. now rewrite groupby_from_concat.
Qed.

Lemma map_snd_enumerate (A : Type) (l : list A) : map snd (enumerate l) = l.
Proof.
  unfold enumerate. generalize 0%nat.
  induction l as [|v l IH]; intros s; [ reflexivity | ].
  cbn [List.length seq combine map snd]. now rewrite IH.
Qed.

Lemma continuous_sections_concat (zs : list nat) :
  List.concat (continuous_sections zs) = zs.
Proof.
  unfold continuous_sections.
  rewrite <- concat_map, groupby_concat. apply map_snd_enumerate.
Qed.

Lemma longest_from_In (l : list (list nat)) :
  forall best, longest_from best l = best \/ In (longest_from best l) l.
Proof.
  induction l as [|s l IH]; intros best; cbn [longest_from];
    [ now left | ].
  destruct (Nat.ltb _ _).
  - destruct (IH s) as [->|H]; right; [ now left | now right ].
  - destruct (IH best) as [->|H]; [ now left | right; now right ].
Qed.

Lemma max_cont_section_In (sections : list (list nat)) :
  max_cont_section sections = [] \/ In (max_cont_section sections) sections.
Proof.
  destruct sections as [|s l]; [ now left | ]. right.
  cbn [max_cont_section].
  destruct (longest_from_In l s) as [->|H]; [ now left | now right ].
Qed.

Lemma section_of_zeros (genus_curve : list R) (i : nat) :
  In i (max_cont_section (continuous_sections (zeros genus_curve))) ->
  nth_error genus_curve i = Some 0.
Proof.
  intros H. apply zeros_In.
  rewrite <- continuous_sections_concat. apply in_concat.
  destruct (max_cont_section_In
              (continuous_sections (zeros genus_curve))) as [E|Hin].
  - rewrite E in H. destruct H.
  - eexists. split; [ exact Hin | exact H ].
Qed.

Lemma length_in_concat (A : Type) (s : list A) (l : list (list A)) :
  In s l -> (List.length s <= List.length (List.concat l))%nat.
Proof.
  induction l as [|r l IH]; [ intros [] | ].
  cbn [List.concat]. rewrite length_app.
  intros [->|H]; [ lia | ]. specialize (IH H). lia.
Qed.

Lemma section_length (genus_curve : list R) :
  (List.length
     (max_cont_section (continuous_sections (zeros genus_curve)))
   <= List.length (zeros genus_curve))%nat.
Proof.
  destruct (max_cont_section_In
              (continuous_sections (zeros genus_curve))) as [E|Hin].
  - rewrite E. simpl. lia.
  - apply length_in_concat in Hin.
    now rewrite continuous_sections_concat in Hin.
Qed.

Lemma groupby_from_segments (A : Type) (key : A -> Z) (l : list A) :
  forall (k : Z) (run g : list A),
    (forall a, In a run -> key a = k) ->
    In g (groupby_from key k run l) ->
    (exists pre post, rev run ++ l = pre ++ g ++ post)
    /\ (exists k', forall a, In a g -> key a = k').
Proof.
  induction l as [|a l IH]; intros k run g Hrun Hg; cbn [groupby_from] in Hg.
  - destruct Hg as [<-|[]]. split.
    + exists [], []. now rewrite !app_nil_r.
    + exists k. intros a Ha. apply Hrun. now apply in_rev.
  - destruct (Z.eqb (key a) k) eqn:E.
    + apply Z.eqb_eq in E.
      destruct (IH k (a :: run) g) as [(pre & post & Hseg) Hkey];
        [ intros a' [<-|Ha']; [ exact E | now apply Hrun ] | exact Hg | ].
      split; [ | exact Hkey ]. exists pre, post.
      rewrite <- Hseg. cbn [rev]. now rewrite <- app_assoc.
    + destruct Hg as [<-|Hg].
      * split.
        -- exists [], (a :: l). reflexivity.
        -- exists k. intros a' Ha'. apply Hrun. now apply in_rev.
      * destruct (IH (key a) [a] g) as [(pre & post & Hseg) Hkey];
          [ intros a' [<-|[]]; reflexivity | exact Hg | ].
        split; [ | exact Hkey ]. exists (rev run ++ pre), post.
        cbn [rev app] in Hseg. rewrite <- app_assoc. now rewrite <- Hseg.
Qed.

Lemma groupby_segments (A : Type) (key : A -> Z) (l g : list A) :
  In g (groupby key l) ->
  (exists pre post, l = pre ++ g ++ post)
  /\ (exists k', forall a, In a g -> key a = k').
Proof.
  destruct l as [|a l]; [ intros [] | ]. unfold groupby. intros Hg.
  apply groupby_from_segments in Hg; [ exact Hg | ].
  intros a' [<-|[]]. reflexivity.
Qed.

Lemma segment_nth (A : Type) (pre g post : list A) (j : nat) (e : A) :
  nth_error g j = Some e ->
  nth_error (pre ++ g ++ post) (List.length pre + j) = Some e.
Proof.
  intros H. rewrite nth_error_app2 by lia.
  replace (List.length pre + j - List.length pre)%nat with j by lia.
  rewrite nth_error_app1; [ exact H | ].
  apply nth_error_Some. congruence.
Qed.

(** Every section is a run of consecutive positions. *)
Lemma continuous_sections_are_runs (zs section : list nat) :
  In section (continuous_sections zs) ->
  exists a, section = seq a (List.length section).
Proof.
  unfold continuous_sections. intros H. apply in_map_iff in H.
  destruct H as (g & <- & Hg).
  apply groupby_segments in Hg.
  destruct Hg as [(pre & post & Hseg) (K & HK)].
  rewrite length_map.
  assert (Hnth : forall j i x, nth_error g j = Some (i, x) ->
            i = (List.length pre + j)%nat
            /\ (Z.of_nat i - Z.of_nat x = K)%Z).
  { intros j i x Hj. split.
    - pose proof (@segment_nth _ pre g post j (i, x) Hj) as Hl.
      rewrite <- Hseg, enumerate_nth in Hl.
      destruct (nth_error zs (List.length pre + j)); [ | discriminate ].
      simpl in Hl. congruence.
    - apply (HK (i, x)). eapply nth_error_In. exact Hj. }
  destruct g as [|[i0 x0] g']; [ exists O; reflexivity | ].
  exists x0. apply nth_error_ext. intros j.
  rewrite nth_error_map.
  destruct (Hnth O i0 x0 eq_refl) as [Hi0 HK0].
  destruct (nth_error ((i0, x0) :: g') j) as [[i x]|] eqn:Hj.
  - destruct (Hnth j i x Hj) as [Hi HKj].
    assert (Hlt : (j < List.length ((i0, x0) :: g'))%nat)
      by (apply nth_error_Some; congruence).
    cbn [option_map snd].
    rewrite nth_error_seq. rewrite (proj2 (Nat.ltb_lt _ _) Hlt).
    f_equal. lia.
  - apply nth_error_None in Hj. cbn [option_map].
    symmetry. apply nth_error_None. now rewrite length_seq.
Qed.

Lemma max_cont_section_is_a_run (genus_curve : list R) :
  exists a,
    max_cont_section (continuous_sections (zeros genus_curve))
    = seq a (List.length
               (max_cont_section (continuous_sections (zeros genus_curve)))).
Proof.
  destruct (max_cont_section_In
              (continuous_sections (zeros genus_curve))) as [E|Hin].
  - rewrite E. exists O. reflexivity.
  - exact (@continuous_sections_are_runs _ _ Hin).
Qed.

Lemma existsb_seq (i a n : nat) :
  existsb (Nat.eqb i) (seq a n) = true <-> (a <= i < a + n)%nat.
Proof.
  rewrite existsb_exists. split.
  - intros (j & Hj & E). apply Nat.eqb_eq in E. subst j.
    apply in_seq in Hj. lia.
  - intros H. exists i. split; [ apply in_seq; lia | apply Nat.eqb_refl ].
Qed.

(** X29. [clip_genus] keeps the length of the curve and replaces by NaN
    at most one run of consecutive positions, all of them zeros of the
    curve; every other entry is left as it is.  A run that is replaced is
    at least [length_threshold] long. *)
Theorem clip_genus_replaces_one_run_of_zeros
  (genus_curve : list R) (length_threshold : Z) :
  List.length (clip_genus genus_curve length_threshold)
  = List.length genus_curve
  /\ exists a n,
       (forall i, nth_error (clip_genus genus_curve length_threshold) i
                  = Some None
                  <-> (a <= i < a + n)%nat)
       /\ (forall i, (a <= i < a + n)%nat ->
                     nth_error genus_curve i = Some 0)
       /\ (forall i v, ~ (a <= i < a + n)%nat ->
                       nth_error genus_curve i = Some v ->
                       nth_error (clip_genus genus_curve length_threshold) i
                       = Some (Some v))
       /\ (n = O \/ (length_threshold <= Z.of_nat n)%Z).
Proof.
  unfold clip_genus.
  destruct (max_cont_section_is_a_run genus_curve) as [a Hrun].
  pose proof (@section_of_zeros genus_curve) as Hzero.
  set (section := max_cont_section _) in *.
  set (n := List.length section) in *.
  destruct (Z.leb length_threshold (Z.of_nat n)) eqn:Hthr.
  - split; [ unfold set_nan, enumerate;
             now rewrite length_map, length_combine, length_seq,
               Nat.min_id | ].
    exists a, n.
    assert (Hin : forall i, (a <= i < a + n)%nat ->
              nth_error genus_curve i = Some 0).
    { intros i Hi. apply Hzero. rewrite Hrun. apply in_seq. exact Hi. }
    split; [ | split; [ exact Hin | split ] ].
    + intros i. rewrite set_nan_nth, Hrun. split.
      * destruct (nth_error genus_curve i) as [v|]; [ | discriminate ].
        cbn [option_map].
        destruct (existsb (Nat.eqb i) (seq a n)) eqn:E; [ | discriminate ].
        intros _. now apply existsb_seq.
      * intros Hi. rewrite (Hin i Hi). cbn [option_map].
        now rewrite (proj2 (existsb_seq i a n) Hi).
    + intros i v Hi Hv. rewrite set_nan_nth, Hrun, Hv. cbn [option_map].
      destruct (existsb (Nat.eqb i) (seq a n)) eqn:E; [ | reflexivity ].
      apply existsb_seq in E. contradiction.
    + right. now apply Z.leb_le.
  - split; [ apply length_map | ].
    exists O, O. split; [ | split; [ | split ] ].
    + intros i. rewrite nth_error_map. split; [ | lia ].
      destruct (nth_error genus_curve i); discriminate.
    + intros i Hi. lia.
    + intros i v _ Hv. now rewrite nth_error_map, Hv.
    + now left.
Qed.

(** X30. A curve with fewer than [length_threshold] zeros is returned as
    it is. *)
Theorem clip_genus_keeps_curves_with_few_zeros
  (genus_curve : list R) (length_threshold : Z) :
  (Z.of_nat (List.length (zeros genus_curve)) < length_threshold)%Z ->
  clip_genus genus_curve length_threshold = map Some genus_curve.
Proof.
  intros H. unfold clip_genus.
  pose proof (section_length genus_curve) as Hlen.
  destruct (Z.leb_spec length_threshold
              (Z.of_nat
                 (List.length
                    (max_cont_section
                       (continuous_sections (zeros genus_curve))))));
    [ lia | reflexivity ].
Qed.

(** ** Examples *)

(** The comparisons of a computation on literals. *)
Ltac compare_floats :=
  repeat match goal with
         | |- context [Np.ltb ?a ?b] =>
             first [ rewrite (@ltb_true a b) by lra
                   | rewrite (@ltb_false a b) by lra ]
         end.

(** A fair coin against a certain outcome. *)
Lemma hellinger_stat_of_distributions_witness :
  exists h,
    hellinger_stat (Arr1 [Some (1 / 2); Some (1 / 2)])
      (Arr1 [Some 1; Some 0]) = Ok (Some h)
    /\ 0 <= h <= 1.
Proof.
  apply (@hellinger_stat_of_distributions [1 / 2; 1 / 2] [1; 0] eq_refl).
  - repeat constructor; lra.
  - repeat constructor; lra.
  - unfold Nan.sum. simpl. lra.
  - unfold Nan.sum. simpl. lra.
Defined.

Lemma demo_nanstd : Nan.nanstd [Some 1; None; Some 3] = Some 1.
Proof.
  unfold Nan.nanstd, Nan.nanmean. simpl. f_equal.
  match goal with
  | |- sqrt ?e = 1 => replace e with 1; [ apply sqrt_1 | field ]
  end.
Qed.

(** The entries 1 and 3 around a NaN have mean 2 and deviation 1. *)
Lemma standardize_has_mean_0_and_deviation_1_witness :
  Nan.nanmean (standardize [Some 1; None; Some 3]) = Some 0
  /\ Nan.nanstd (standardize [Some 1; None; Some 3]) = Some 1
  /\ nth_error (standardize [Some 1; None; Some 3]) 1 = Some None.
Proof.
  assert (H1 : 1 <> 0) by lra.
  destruct (@standardize_has_mean_0_and_deviation_1
              [Some 1; None; Some 3] 1 demo_nanstd H1)
    as (_ & Hnan & Hmean & Hstd).
  split; [ exact Hmean | ]. split; [ exact Hstd | ].
  apply Hnan. reflexivity.
Defined.

Lemma demo_cutoff : cutoff Demo.dendro1 Demo.dendro2 4 = Ok 1%nat.
Proof.
  unfold cutoff, Demo.dendro1, Demo.dendro2. cbn [numfeatures argwhere_gt].
  unfold Np.gtb. compare_floats. reflexivity.
Qed.

(** With more than 4 features asked for, the first dendrogram has enough
    down to its third level and the second down to its second. *)
Lemma cutoff_is_the_smaller_of_the_last_levels_witness :
  cutoff Demo.dendro1 Demo.dendro2 4 = Ok 1%nat
  /\ forall k v1 v2,
       (1 < k)%nat ->
       nth_error (numfeatures Demo.dendro1) k = Some v1 ->
       nth_error (numfeatures Demo.dendro2) k = Some v2 ->
       ~ (4 < v1 /\ 4 < v2).
Proof.
  split; [ exact demo_cutoff | ].
  exact (proj2 (proj2 (@cutoff_is_the_smaller_of_the_last_levels
                         Demo.dendro1 Demo.dendro2 4 1 demo_cutoff))).
Defined.

Lemma demo_mecdf_row :
  nth_error (mecdf [[Some 1; Some 3]]) 0
  = Some [Some (0 + 1 / (1 + (3 + 0)));
          Some (0 + 1 / (1 + (3 + 0)) + 3 / (1 + (3 + 0)))].
Proof.
  assert (Hsum : Nan.sum [1; 3] <> 0) by (unfold Nan.sum; simpl; lra).
  exact (@mecdf_finite_row [[Some 1; Some 3]] 0 [1; 3] eq_refl Hsum).
Qed.

(** The row 1, 3. *)
Lemma mecdf_rows_end_at_1_witness :
  exists ecdf,
    nth_error (mecdf [[Some 1; Some 3]]) 0 = Some ecdf
    /\ List.length ecdf = 2%nat
    /\ last ecdf None = Some 1.
Proof.
  apply (@mecdf_rows_end_at_1 [[Some 1; Some 3]] 0 [1; 3] eq_refl).
  - discriminate.
  - unfold Nan.sum. simpl. lra.
Defined.

Lemma mecdf_rows_are_distribution_functions_witness :
  exists a b,
    nth_error (mecdf [[Some 1; Some 3]]) 0 = Some [Some a; Some b]
    /\ 0 <= a /\ a <= b /\ b <= 1.
Proof.
  assert (Hpos : Forall (Rle 0) [1; 3]) by (repeat constructor; lra).
  assert (Hsum : 0 < Nan.sum [1; 3]) by (unfold Nan.sum; simpl; lra).
  destruct (@mecdf_rows_are_distribution_functions
              [[Some 1; Some 3]] 0 [1; 3] _ eq_refl Hpos Hsum
              demo_mecdf_row 0 1 _ _ (le_S _ _ (le_n 0)) eq_refl eq_refl)
    as (a & b & Ha & Hb & Hbounds).
  exists a, b. split; [ | exact Hbounds ].
  rewrite demo_mecdf_row. now rewrite Ha, Hb.
Defined.

(** A histogram of two bins, padded to three. *)
Lemma mecdf_loses_rows_with_nan_witness :
  nth_error (mecdf [[Some 1; Some 2; None]]) 0 = Some [None; None; None].
Proof.
  apply (@mecdf_loses_rows_with_nan
           [[Some 1; Some 2; None]] 0 [Some 1; Some 2; None] eq_refl).
  right. right. left. reflexivity.
Defined.

(** The default [sigma] of 2: the points at -3 and at 3 are kept. *)
Lemma clip_to_sigma_with_positive_sigma_keeps_all_finite_points_witness :
  clip_to_sigma [-3; 0; 3] [Some 1; None; Some 2] 2 = Ok ([-3; 3], [1; 2]).
Proof.
  apply (@clip_to_sigma_with_positive_sigma_keeps_all_finite_points
           [-3; 0; 3] [Some 1; None; Some 2] 2 eq_refl).
  lra.
Defined.

(** One lag, with widths 1 and 1 and exponents 2 and 3. *)
Lemma tsallis_distance_bounds_witness :
  exists d,
    tsallis_distance [[0; 1; 2]] [[5; 1; 3]] = Ok d
    /\ 0 <= d <= 4 * INR 1.
Proof.
  eexists. split; [ reflexivity | ].
  apply (@tsallis_distance_bounds [[0; 1; 2]] [[5; 1; 3]]);
    [ | reflexivity ].
  constructor; [ split; left; simpl; lra | constructor ].
Defined.

Lemma zeros_length (genus_curve : list R) :
  (List.length (zeros genus_curve) <= List.length genus_curve)%nat.
Proof.
  unfold zeros, enumerate. generalize 0%nat.
  induction genus_curve as [|v c IH]; intros s; [ simpl; lia | ].
  cbn [List.length seq combine flat_map fst snd]. rewrite length_app.
  specialize (IH (S s)).
  destruct (Req_dec_T v 0); simpl; lia.
Qed.

(** One zero, and the default threshold of 5. *)
Lemma clip_genus_keeps_curves_with_few_zeros_witness :
  clip_genus [1; 0; 2] 5 = [Some 1; Some 0; Some 2].
Proof.
  apply (@clip_genus_keeps_curves_with_few_zeros [1; 0; 2] 5).
  pose proof (zeros_length [1; 0; 2]) as H. simpl in H. lia.
Defined.

(** One row, holding a NaN. *)
Lemma hellinger_stat_of_identical_arrays_witness :
  hellinger_stat (Arr2 [[Some 1; None]]) (Arr2 [[Some 1; None]])
  = Ok (Some 0).
Proof.
  apply (proj1 (proj2 (@hellinger_stat_of_identical_arrays
                         [] [[Some 1; None]]))).
  discriminate.
Defined.

(** Slopes of -1 and -2, each with an error of 0.1. *)
Lemma numfeature_stat_symmetric_and_zero_iff_equal_slopes_witness :
  0 <= numfeature_stat Demo.dendro1 Demo.dendro2
  /\ numfeature_stat Demo.dendro1 Demo.dendro2 <> 0.
Proof.
  assert (Herr : tail_slope_err Demo.dendro1 <> 0
                 \/ tail_slope_err Demo.dendro2 <> 0)
    by (left; simpl; lra).
  destruct (proj2 (@numfeature_stat_symmetric_and_zero_iff_equal_slopes
                     Demo.dendro1 Demo.dendro2) Herr) as [Hpos Hzero].
  split; [ exact Hpos | ].
  intros E. apply Hzero in E. simpl in E. lra.
Defined.

(** More than 4 features at the first level only. *)
Lemma cutoff_needs_a_level_beyond_the_first_witness :
  cutoff Demo.dendro0 Demo.dendro2 4
  = Raise (ValueError (too_few_features "cube1" 4)).
Proof.
  apply (proj1 (proj2 (@cutoff_needs_a_level_beyond_the_first
                         Demo.dendro0 Demo.dendro2 4))).
  intros (k & v & Hk & Hv & Hlt).
  destruct k as [|[|[|[|k]]]]; simpl in Hv; try lia; try discriminate;
    inversion Hv; subst v; lra.
Defined.
